(** * simple-gallery: the tag normaliser, the gallery database, the
      token-based photo delivery handler and the admin routes

    A shallow embedding of [db.js] (the SQLite-backed store), of the
    [GET /api/photo] handler and the admin, settings, upload and file
    routes of [server.js], and of the environment readers of [config.js],
    with the properties of the delivery state machine, the tag normaliser,
    [setPictureTags], the listing and its paging, the picture, tag and
    token tables, the settings, and the conditions the store keeps.  The
    class [Gallery] and the router of the multi-gallery server repeat the
    same functions and the same handler, method for function. *)

From Stdlib Require Import ZArith NArith QArith Qround String Ascii.
From stdpp Require Import gmap list sorting lexico.

Close Scope Q_scope.
Local Open Scope Z_scope.
Set Warnings "-clear-no-such-hyp".

(** ** JavaScript values and strings *)

(** A JavaScript string is a sequence of UTF-16 code units. *)
Abbreviation jsstring := (list N).

(** The code units of an ASCII literal of the source. *)
Definition str (s : string) : jsstring :=
  N_of_ascii <$> list_ascii_of_string s.

(** The values a JSON request body can put in a tag list.  Only the
    distinction string / not a string matters to [normalizeTag]. *)
Inductive JsValue :=
  | JsUndefined
  | JsNull
  | JsBool (b : bool)
  | JsNumber (z : Z)
  | JsString (s : jsstring)
  | JsObject.

(** [String.prototype.toLowerCase] is the host's Unicode lower-casing.  All
    that is used of it is what it does on ASCII strings, where it maps
    [A-Z] to [a-z] and leaves the other code units alone. *)
Definition ascii_lower (c : N) : N :=
  if bool_decide (65 ≤ c ≤ 90)%N then (c + 32)%N else c.

Class StringHost := {
  toLowerCase : jsstring → jsstring;
  toLowerCase_ascii s :
    Forall (λ c, (c < 128)%N) s → toLowerCase s = ascii_lower <$> s
}.

(** ** Regular-expression replacements of [normalizeTag] *)

Definition hyphen : N := 45%N.

(** [\s] without the [u] flag: WhiteSpace and LineTerminator code units. *)
Definition is_space (c : N) : bool :=
  bool_decide (c ∈ [9; 10; 11; 12; 13; 32; 160; 5760; 8232; 8233; 8239;
                    8287; 12288; 65279]%N)
  || bool_decide (8192 ≤ c ≤ 8202)%N.

Definition is_hyphen (c : N) : bool := bool_decide (c = hyphen).

(** [[a-z0-9-]] *)
Definition is_slug_unit (c : N) : bool :=
  bool_decide (97 ≤ c ≤ 122)%N || bool_decide (48 ≤ c ≤ 57)%N || is_hyphen c.

Definition head_matches (p : N → bool) (s : jsstring) : bool :=
  match s with
  | c :: _ => p c
  | [] => false
  end.

(** [s.replace(/P+/g, r)]: every maximal run of code units matching [P]
    becomes the single unit [r].  A matching unit followed by another one
    is inside its run; the last unit of the run emits [r]. *)
Fixpoint replace_runs (p : N → bool) (r : N) (s : jsstring) : jsstring :=
  match s with
  | [] => []
  | c :: s' =>
      if p c then
        if head_matches p s' then replace_runs p r s'
        else r :: replace_runs p r s'
      else c :: replace_runs p r s'
  end.

(** [s.replace(/[^a-z0-9-]/g, '')] *)
Definition strip_non_slug (s : jsstring) : jsstring :=
  filter (λ c, is_slug_unit c = true) s.

(** [s.replace(/^-|-$/g, '')]: one hyphen at the start is removed, and one
    hyphen at the end of what follows it. *)
Definition strip_first_hyphen (s : jsstring) : jsstring :=
  match s with
  | c :: s' => if is_hyphen c then s' else s
  | [] => []
  end.

Fixpoint strip_last_hyphen (s : jsstring) : jsstring :=
  match s with
  | [] => []
  | [c] => if is_hyphen c then [] else [c]
  | c :: s' => c :: strip_last_hyphen s'
  end.

Definition strip_edge_hyphens (s : jsstring) : jsstring :=
  strip_last_hyphen (strip_first_hyphen s).

(** [normalizeTag] of db.js. *)
Definition normalizeTag `{StringHost} (s : JsValue) : jsstring :=
  match s with
  | JsString s =>
      strip_edge_hyphens
        (replace_runs is_hyphen hyphen
           (strip_non_slug
              (replace_runs is_space hyphen (toLowerCase s))))
  | _ => []
  end.

(** ** The tag normaliser as the specification words it *)

(** "collapse runs ... to a single hyphen": scan left to right and emit the
    hyphen when a run is entered. *)
Fixpoint squeeze (p : N → bool) (in_run : bool) (s : jsstring) : jsstring :=
  match s with
  | [] => []
  | c :: s' =>
      if p c then
        if in_run then squeeze p true s' else hyphen :: squeeze p true s'
      else c :: squeeze p false s'
  end.

Fixpoint drop_while (p : N → bool) (s : jsstring) : jsstring :=
  match s with
  | c :: s' => if p c then drop_while p s' else s
  | [] => []
  end.

(** "trim leading/trailing hyphens": all of them, at both ends. *)
Definition trim_hyphens (s : jsstring) : jsstring :=
  reverse (drop_while is_hyphen (reverse (drop_while is_hyphen s))).

Definition normalize_spec `{StringHost} (raw : JsValue) : jsstring :=
  match raw with
  | JsString s =>
      let lowered := toLowerCase s in
      let hyphenated := squeeze is_space false lowered in
      let stripped := filter (λ c, is_slug_unit c = true) hyphenated in
      let collapsed := squeeze is_hyphen false stripped in
      trim_hyphens collapsed
  | _ => []
  end.

(** A host that lower-cases ASCII only; it evaluates the model on ASCII
    inputs. *)
Definition ascii_toLowerCase (s : jsstring) : jsstring := ascii_lower <$> s.

Definition ascii_host : StringHost :=
  {| toLowerCase := ascii_toLowerCase;
     toLowerCase_ascii := λ s _, eq_refl |}.

(** ** A state monad for the code that reads and updates the store *)

Definition State (S A : Type) : Type := S → A * S.

#[global] Instance state_ret {S} : MRet (State S) := λ A x s, (x, s).
#[global] Instance state_bind {S} : MBind (State S) :=
  λ A B f m s, let '(x, s') := m s in f x s'.

Definition gets {S A} (f : S → A) : State S A := λ s, (f s, s).
Definition modify {S} (f : S → S) : State S unit := λ s, (tt, f s).

(** [xs.map(f)] for an [f] with effects, left to right. *)
Fixpoint mapM {S A B} (f : A → State S B) (xs : list A) : State S (list B) :=
  match xs with
  | [] => mret []
  | x :: xs' => y ← f x; ys ← mapM f xs'; mret (y :: ys)
  end.

(** ** The gallery database (db.js)

    A table with a PRIMARY KEY is a finite map from the key to the other
    columns.  [tags] has two keys, [id] (PRIMARY KEY AUTOINCREMENT) and
    [name] (UNIQUE); it is kept as its UNIQUE index, name to id, and the
    primary key is the well-formedness condition [tags_wf] below.  The
    AUTOINCREMENT counters of [sqlite_sequence] are the [_seq] fields: a
    new row takes the counter plus one. *)

Record PictureCols := {
  filename : jsstring;
  pic_created_at : Z;
  description : option jsstring;
  date : option jsstring;
  location : option jsstring
}.

(** A row of [SELECT * FROM pictures]. *)
Record Picture := { id : Z; cols : PictureCols }.

(** [random_ids] holds [JSON.stringify] of an array of picture ids, or
    NULL; the model keeps the array itself. *)
Record TokenCols := {
  current_index : Z;
  random_ids : option (list Z);
  random_index : Z;
  tok_created_at : Z
}.

Record Db := {
  pictures : gmap Z PictureCols;
  pictures_seq : Z;
  tags : gmap jsstring Z;
  tags_seq : Z;
  picture_tags : gset (Z * Z);
  tokens : gmap jsstring TokenCols
}.

Definition empty_db : Db :=
  {| pictures := ∅; pictures_seq := 0; tags := ∅; tags_seq := 0;
     picture_tags := ∅; tokens := ∅ |}.

(** [x || null] on a nullable string: the empty string is falsy. *)
Definition or_null (x : option jsstring) : option jsstring :=
  match x with
  | Some [] => None
  | _ => x
  end.

(** *** Pictures *)

Definition id_le (p q : Picture) : Prop := id p ≤ id q.

#[global] Instance id_le_dec : RelDecision id_le := λ p q, decide (id p ≤ id q).

(** [SELECT * FROM pictures ORDER BY id] *)
Definition pictures_by_id (db : Db) : list Picture :=
  merge_sort id_le ((λ kv, {| id := kv.1; cols := kv.2 |}) <$>
                    map_to_list (pictures db)).

Definition getPictureById (i : Z) (db : Db) : option Picture :=
  (λ c, {| id := i; cols := c |}) <$> pictures db !! i.

(** [SELECT COUNT( * ) FROM pictures] *)
Definition getPictureCount (db : Db) : Z := Z.of_nat (size (pictures db)).

Definition getAllPictureIds (db : Db) : list Z := id <$> pictures_by_id db.

(** [... ORDER BY id LIMIT 1 OFFSET ?]: SQLite reads a negative OFFSET as
    zero, which is what [Z.to_nat] does. *)
Definition getPictureByIndex (index : Z) (db : Db) : option Picture :=
  pictures_by_id db !! Z.to_nat index.

(** [addPicture]; [now] is [Date.now()].  [None] is the SqliteError of the
    UNIQUE constraint on [filename]. *)
Definition addPicture (now : Z) (file : jsstring)
    (date location : option jsstring) (db : Db) : option (Z * Db) :=
  if bool_decide (map_Exists (λ _ c, filename c = file) (pictures db)) then None
  else
    let i := pictures_seq db + 1 in
    let row := {| filename := file; pic_created_at := now;
                  description := None; date := or_null date;
                  location := or_null location |} in
    Some (i, {| pictures := <[i := row]> (pictures db);
                pictures_seq := i;
                tags := tags db; tags_seq := tags_seq db;
                picture_tags := picture_tags db; tokens := tokens db |}).

(** [deletePicture]; the rows of [picture_tags] go with the picture
    (ON DELETE CASCADE).  The JavaScript [false] is [None]. *)
Definition deletePicture (i : Z) (db : Db) : option Picture * Db :=
  match getPictureById i db with
  | None => (None, db)
  | Some pic =>
      (Some pic,
       {| pictures := delete i (pictures db);
          pictures_seq := pictures_seq db;
          tags := tags db; tags_seq := tags_seq db;
          picture_tags := filter (λ pt, pt.1 ≠ i) (picture_tags db);
          tokens := tokens db |})
  end.

(** *** Tags *)

Definition with_tags (t : gmap jsstring Z) (seq : Z) (db : Db) : Db :=
  {| pictures := pictures db; pictures_seq := pictures_seq db;
     tags := t; tags_seq := seq;
     picture_tags := picture_tags db; tokens := tokens db |}.

Definition with_picture_tags (pt : gset (Z * Z)) (db : Db) : Db :=
  {| pictures := pictures db; pictures_seq := pictures_seq db;
     tags := tags db; tags_seq := tags_seq db;
     picture_tags := pt; tokens := tokens db |}.

Definition getOrCreateTagId `{StringHost} (name : JsValue)
    : State Db (option Z) :=
  let n := normalizeTag name in
  if bool_decide (n = []) then mret None
  else
    row ← gets (λ db, tags db !! n);
    match row with
    | Some i => mret (Some i)
    | None =>
        modify (λ db, with_tags (<[n := tags_seq db + 1]> (tags db))
                                (tags_seq db + 1) db);;
        gets (λ db, tags db !! n)
    end.

(** [.filter(Boolean)] on tag ids: [null] and [0] are falsy. *)
Definition filter_Boolean (l : list (option Z)) : list Z :=
  omap (λ o, match o with
             | Some i => if bool_decide (i = 0) then None else Some i
             | None => None
             end) l.

(** [[...new Set(l)]]: the first occurrence of each value, in order. *)
Fixpoint set_values (seen : list Z) (l : list Z) : list Z :=
  match l with
  | [] => []
  | x :: l' =>
      if bool_decide (x ∈ seen) then set_values seen l'
      else x :: set_values (x :: seen) l'
  end.

(** [INSERT INTO picture_tags]; [None] is the SqliteError of a violated
    PRIMARY KEY or FOREIGN KEY constraint. *)
Definition insert_picture_tag (pictureId tagId : Z) (db : Db) : option Db :=
  if bool_decide ((pictureId, tagId) ∈ picture_tags db) then None
  else if bool_decide (pictures db !! pictureId = None) then None
  else if bool_decide (map_Exists (λ _ i, i = tagId) (tags db)) then
    Some (with_picture_tags ({[ (pictureId, tagId) ]} ∪ picture_tags db) db)
  else None.

(** [setPictureTags]; [None] is an exception thrown by a statement. *)
Definition setPictureTags `{StringHost} (pictureId : Z)
    (tagNames : list JsValue) (db : Db) : option (bool * Db) :=
  match getPictureById pictureId db with
  | None => Some (false, db)
  | Some _ =>
      let db1 := with_picture_tags
                   (filter (λ pt, pt.1 ≠ pictureId) (picture_tags db)) db in
      let '(ids, db2) := mapM getOrCreateTagId tagNames db1 in
      let tagIds := set_values [] (filter_Boolean ids) in
      db3 ← foldl (λ acc tagId, acc ≫= insert_picture_tag pictureId tagId)
                  (Some db2) tagIds;
      Some (true, db3)
  end.

(** [getPictureTags]: the names, in [ORDER BY t.name], compared code unit
    by code unit (on the ASCII names [normalizeTag] produces, the byte
    order SQLite uses). *)
Definition getPictureTags (pictureId : Z) (db : Db) : list jsstring :=
  merge_sort (λ a b, a = b ∨ lexico a b)
    (filter (λ t, (pictureId, t.2) ∈ picture_tags db)
            (map_to_list (tags db))).*1.

(** *** Tokens *)

Definition with_tokens (t : gmap jsstring TokenCols) (db : Db) : Db :=
  {| pictures := pictures db; pictures_seq := pictures_seq db;
     tags := tags db; tags_seq := tags_seq db;
     picture_tags := picture_tags db; tokens := t |}.

Definition getToken (token : jsstring) (db : Db) : option TokenCols :=
  tokens db !! token.

(** [createToken]; [token] is the hex string of [crypto.randomBytes] and
    [now] is [Date.now()].  [None] is the SqliteError of the PRIMARY KEY. *)
Definition createToken (token : jsstring) (now : Z) (db : Db)
    : option (jsstring * Db) :=
  match tokens db !! token with
  | Some _ => None
  | None =>
      Some (token,
            with_tokens (<[token := {| current_index := 0; random_ids := None;
                                       random_index := 0;
                                       tok_created_at := now |}]> (tokens db))
                        db)
  end.

(** [UPDATE tokens SET current_index = ? WHERE token = ?] *)
Definition updateTokenIndex (token : jsstring) (index : Z) (db : Db) : Db :=
  with_tokens
    (alter (λ r, {| current_index := index; random_ids := random_ids r;
                    random_index := random_index r;
                    tok_created_at := tok_created_at r |}) token (tokens db))
    db.

(** The parsed [random_ids] and [random_index || 0] of the token's row. *)
Definition getTokenRandomState (token : jsstring) (db : Db)
    : option (option (list Z) * Z) :=
  (λ r, (random_ids r, random_index r)) <$> tokens db !! token.

Definition updateTokenRandomState (token : jsstring) (ids : list Z)
    (index : Z) (db : Db) : Db :=
  with_tokens
    (alter (λ r, {| current_index := current_index r; random_ids := Some ids;
                    random_index := index;
                    tok_created_at := tok_created_at r |}) token (tokens db))
    db.

(** [deleteToken]: the number of deleted rows and the new store. *)
Definition deleteToken (token : jsstring) (db : Db) : Z * Db :=
  ((if bool_decide (is_Some (tokens db !! token)) then 1 else 0),
   with_tokens (delete token (tokens db)) db).

(** ** The photo handler (server.js) *)

(** [Math.random()]: the successive results are rationals of [0, 1). *)
Class RandomSource := {
  Math_random : nat → Q;
  Math_random_range k : (0 <= Math_random k)%Q ∧ (Math_random k < 1)%Q
}.

(** The process: its store and the number of [Math.random()] calls made. *)
Record World := { db : Db; random_calls : nat }.

Definition with_db (f : Db → Db) (w : World) : World :=
  {| db := f (db w); random_calls := random_calls w |}.

(** [Math.floor(Math.random() * bound)] *)
Definition random_below `{RandomSource} (bound : Z) : State World Z :=
  λ w, (Qfloor (Math_random (random_calls w) * inject_Z bound),
        {| db := db w; random_calls := S (random_calls w) |}).

(** [[a[i], a[j]] = [a[j], a[i]]].  Both indices are inside the array when
    the loop of [shuffle] runs (lemma [random_below_range]). *)
Definition swap (a : list Z) (i j : nat) : list Z :=
  match a !! i, a !! j with
  | Some x, Some y => <[j := x]> (<[i := y]> a)
  | _, _ => a
  end.

(** The loop of [shuffle], from its counter [i] down to 1. *)
Fixpoint shuffle_from `{RandomSource} (i : nat) (a : list Z)
    : State World (list Z) :=
  match i with
  | O => mret a
  | S i' =>
      j ← random_below (Z.of_nat i + 1);
      shuffle_from i' (swap a i (Z.to_nat j))
  end.

Definition shuffle `{RandomSource} (arr : list Z) : State World (list Z) :=
  shuffle_from (length arr - 1) arr.

Record Request := {
  query_token : option jsstring;
  query_mode : option jsstring;
  base_url : jsstring
}.

(** The address [`${baseUrl}/api/photo/file/${id}?token=${token}`], kept as
    its three parts. *)
Record FileUrl := { url_base : jsstring; url_id : Z; url_token : jsstring }.

Inductive Response :=
  | Error (status : Z) (error : jsstring)
  | Photo (pid : Z) (url : FileUrl)
          (pdescription pdate plocation : option jsstring).

Definition TokenRequired : Response := Error 400 (str "token required").
Definition EmptyCollection : Response := Error 404 (str "No pictures in gallery").
Definition Forbidden : Response := Error 403 (str "Invalid or revoked token").
Definition NotFound : Response := Error 404 (str "Not found").

Definition photo_json (req_base token : jsstring) (pic : Picture) : Response :=
  Photo (id pic)
        {| url_base := req_base; url_id := id pic; url_token := token |}
        (or_null (description (cols pic)))
        (or_null (date (cols pic)))
        (or_null (location (cols pic))).

(** [x || 'next'] *)
Definition mode_of (req : Request) : jsstring :=
  match query_mode req with
  | Some (c :: m) => c :: m
  | _ => str "next"
  end.

(** [ids[idx]]; [None] is [undefined]. *)
Definition array_get (ids : list Z) (idx : Z) : option Z :=
  if bool_decide (0 ≤ idx) then ids !! Z.to_nat idx else None.

(** [ids = shuffle(getAllPictureIds()); idx = 0], the two statements that
    regenerate the permutation, before and after the picture is read. *)
Definition regenerate `{RandomSource} : State World (list Z * Z) :=
  all ← gets (λ w, getAllPictureIds (db w));
  ids ← shuffle all;
  mret (ids, 0).

(** [!ids || ids.length === 0 || idx >= ids.length] *)
Definition exhausted (ids : option (list Z)) (idx : Z) : bool :=
  match ids with
  | Some (i :: ids') => bool_decide (Z.of_nat (length (i :: ids')) ≤ idx)
  | _ => true
  end.

(** The random branch.  [getPictureById(undefined)] is written as no row;
    the index is inside the array whenever the stored cursor is not
    negative (lemma [array_get_in_range]). *)
Definition photo_random `{RandomSource} (token : jsstring)
    : State World (option Picture) :=
  state ← gets (λ w, getTokenRandomState token (db w));
  let ids := state ≫= fst in
  let idx := from_option snd 0 state in
  '(ids, idx) ←
    (if exhausted ids idx then regenerate
     else mret (default [] ids, idx));
  let picId := array_get ids idx in
  pic ← gets (λ w, picId ≫= λ i, getPictureById i (db w));
  let idx := idx + 1 in
  '(ids, idx) ←
    (if bool_decide (Z.of_nat (length ids) ≤ idx) then regenerate
     else mret (ids, idx));
  modify (with_db (updateTokenRandomState token ids idx));;
  mret pic.

(** The sequential branch; [%] is the remainder with the sign of the
    dividend, [Z.rem]. *)
Definition photo_next (token : jsstring) (tokenData : TokenCols) (count : Z)
    : State World (option Picture) :=
  let index := Z.rem (current_index tokenData) count in
  pic ← gets (λ w, getPictureByIndex index (db w));
  modify (with_db (updateTokenIndex token (Z.rem (index + 1) count)));;
  mret pic.

(** [app.get('/api/photo', ...)] *)
Definition photo `{RandomSource} (req : Request) : State World Response :=
  match query_token req with
  | Some (c :: t) =>
      let token := c :: t in
      count ← gets (λ w, getPictureCount (db w));
      if bool_decide (count = 0) then mret EmptyCollection
      else
        tokenData ← gets (λ w, getToken token (db w));
        match tokenData with
        | None => mret Forbidden
        | Some tokenData =>
            pic ← (if bool_decide (mode_of req = str "random")
                   then photo_random token
                   else photo_next token tokenData count);
            match pic with
            | None => mret NotFound
            | Some pic => mret (photo_json (base_url req) token pic)
            end
        end
  | _ => mret TokenRequired
  end.

(** [k] deliveries in a row with the same request, nothing else touching
    the store in between; the responses in order. *)
Fixpoint deliveries `{RandomSource} (k : nat) (req : Request)
    : State World (list Response) :=
  match k with
  | O => mret []
  | S k' => r ← photo req; rs ← deliveries k' req; mret (r :: rs)
  end.

(** ** Definitions of the statements and proofs *)

(** No two hyphens in a row. *)
Fixpoint single_hyphens (s : jsstring) : bool :=
  match s with
  | [] => true
  | c :: s' =>
      negb (is_hyphen c && head_matches is_hyphen s') && single_hyphens s'
  end.

(** What the handler answers once the picture has been looked up. *)
Definition answer (req : Request) (token : jsstring) (pic : option Picture)
    : Response :=
  from_option (photo_json (base_url req) token) NotFound pic.

(** The second half of the random branch, from the reading of [ids[idx]]
    on; [photo_random] enters it with the cached or the regenerated pair. *)
Definition serve_cursor `{RandomSource} (token : jsstring) (ids : list Z)
    (idx : Z) : State World (option Picture) :=
  pic ← gets (λ w, array_get ids idx ≫= λ i, getPictureById i (db w));
  '(ids, idx) ←
    (if bool_decide (Z.of_nat (length ids) ≤ idx + 1) then regenerate
     else mret (ids, idx + 1));
  modify (with_db (updateTokenRandomState token ids idx));;
  mret pic.

(** The permutation and cursor a randomized delivery reads from: the cached
    pair, or the pair regenerated on entry. *)
Definition cursor_in_use `{RandomSource} (token : jsstring) (w : World)
    : list Z * Z :=
  let state := getTokenRandomState token (db w) in
  if exhausted (state ≫= fst) (from_option snd 0 state)
  then (regenerate w).1
  else (default [] (state ≫= fst), from_option snd 0 state).

(** What the schema and AUTOINCREMENT guarantee of the [tags] table: [id]
    is a key, and every id is positive and at most the sequence counter. *)
Definition tags_wf (d : Db) : Prop :=
  (∀ n1 n2 i, tags d !! n1 = Some i → tags d !! n2 = Some i → n1 = n2) ∧
  (∀ n i, tags d !! n = Some i → 0 < i ≤ tags_seq d) ∧
  0 ≤ tags_seq d.

(** The id the tag of a name has in a store, for the names that normalise
    to a tag. *)
Definition tag_id_of `{StringHost} (d : Db) (name : JsValue) : option Z :=
  if bool_decide (normalizeTag name = []) then None
  else tags d !! normalizeTag name.

(** The rows of [picture_tags] of one picture. *)
Definition associations (pictureId : Z) (d : Db) : gset (Z * Z) :=
  filter (λ pt, pt.1 = pictureId) (picture_tags d).

(** The names a tag list denotes: normalised, the empty ones dropped, each
    one once. *)
Definition tag_set `{StringHost} (tagNames : list JsValue) : list jsstring :=
  remove_dups (filter (λ n, n ≠ []) (normalizeTag <$> tagNames)).

(** No stored cursor is negative: [createToken] writes 0 and the handler
    writes remainders and successors (lemma [photo_cursors_nonneg]). *)
Definition cursors_nonneg (d : Db) : Prop :=
  ∀ t row, getToken t d = Some row →
           0 ≤ current_index row ∧ 0 ≤ random_index row.

(** ** Concrete galleries and requests *)

(** A source of random numbers in quarters: 0, 1/4, 1/2, 3/4, 0, ... *)
Definition quarters (k : nat) : Q := (Z.of_nat (k mod 4) # 4)%Q.

Definition quarters_source : RandomSource.
Proof.
  refine {| Math_random := quarters |}. intros k.
  pose proof (Nat.mod_upper_bound k 4).
  unfold quarters, Qle, Qlt. cbn [Qnum Qden]. lia.
Defined.

Definition token_T : jsstring := str "5f1c".

Definition next_request : Request :=
  {| query_token := Some token_T; query_mode := None;
     base_url := str "http://localhost:3456" |}.

Definition random_request : Request :=
  {| query_token := Some token_T; query_mode := Some (str "random");
     base_url := str "http://localhost:3456" |}.

Definition picture_row (file : jsstring) : PictureCols :=
  {| filename := file; pic_created_at := 0; description := None;
     date := None; location := None |}.

Definition fresh_token : TokenCols :=
  {| current_index := 0; random_ids := None; random_index := 0;
     tok_created_at := 0 |}.

(** Picture A (id 1) and token T, as [addPicture] and [createToken] leave
    them. *)
Definition gallery_A : Db :=
  {| pictures := {[ 1 := picture_row (str "a.jpg") ]}; pictures_seq := 1;
     tags := ∅; tags_seq := 0; picture_tags := ∅;
     tokens := {[ token_T := fresh_token ]} |}.

Definition start (d : Db) : World := {| db := d; random_calls := 0 |}.

(** The picture a response carries. *)
Definition served_id (r : Response) : option Z :=
  match r with
  | Photo pid _ _ _ _ => Some pid
  | Error _ _ => None
  end.

Definition stored_cursor (token : jsstring) (w : World) : option Z :=
  current_index <$> getToken token (db w).

(** Pictures 1, 2 and 5 and token T. *)
Definition gallery_three : Db :=
  {| pictures := {[ 1 := picture_row (str "a.jpg");
                    2 := picture_row (str "b.jpg");
                    5 := picture_row (str "e.jpg") ]};
     pictures_seq := 5;
     tags := ∅; tags_seq := 0; picture_tags := ∅;
     tokens := {[ token_T := fresh_token ]} |}.

(** [gallery_three] after one randomized delivery (which cached the
    permutation 2, 5, 1 and served 2) and the deletion of picture 5: the
    cursor of T now points at an id that is gone. *)
Definition gallery_stale : Db :=
  {| pictures := {[ 1 := picture_row (str "a.jpg");
                    2 := picture_row (str "b.jpg") ]};
     pictures_seq := 5;
     tags := ∅; tags_seq := 0; picture_tags := ∅;
     tokens := {[ token_T := {| current_index := 0;
                                random_ids := Some [2; 5; 1];
                                random_index := 1;
                                tok_created_at := 0 |} ]} |}.

(** ** The rest of db.js: listing, updates and tag counts *)

Definition with_pictures (p : gmap Z PictureCols) (db : Db) : Db :=
  {| pictures := p; pictures_seq := pictures_seq db;
     tags := tags db; tags_seq := tags_seq db;
     picture_tags := picture_tags db; tokens := tokens db |}.

(** The join [INNER JOIN picture_tags pt ON pt.picture_id = p.id INNER JOIN
    tags t ON t.id = pt.tag_id AND t.name = ?]: the picture has a row of
    [picture_tags] with the id of the tag of that name. *)
Definition tagged (tag : jsstring) (db : Db) (p : Picture) : bool :=
  match tags db !! tag with
  | Some i => bool_decide ((id p, i) ∈ picture_tags db)
  | None => false
  end.

(** [SELECT DISTINCT p.* FROM pictures p [join] ORDER BY p.id]; the join is
    added [if (tagFilter)], that is for a non-empty string. *)
Definition select_pictures (tagFilter : option jsstring) (db : Db)
    : list Picture :=
  match tagFilter with
  | Some (c :: t) => filter (λ p, tagged (c :: t) db p = true) (pictures_by_id db)
  | _ => pictures_by_id db
  end.

(** [LIMIT ? OFFSET ?]: SQLite reads a negative LIMIT as no limit and a
    negative OFFSET as zero. *)
Definition limit_offset {A} (limit offset : Z) (l : list A) : list A :=
  if bool_decide (limit < 0) then drop (Z.to_nat offset) l
  else take (Z.to_nat limit) (drop (Z.to_nat offset) l).

(** [listPictures]: each row with [tags: getPictureTags(p.id)]. *)
Definition listPictures (tagFilter : option jsstring) (limit : option Z)
    (offset : Z) (db : Db) : list (Picture * list jsstring) :=
  let pics := select_pictures tagFilter db in
  let pics := match limit with
              | Some l => limit_offset l offset pics
              | None => pics
              end in
  (λ p, (p, getPictureTags (id p) db)) <$> pics.

(** [countPictures]: [COUNT(DISTINCT p.id)] over the same join. *)
Definition countPictures (tagFilter : option jsstring) (db : Db) : Z :=
  Z.of_nat (length (select_pictures tagFilter db)).

(** [SET description = ?] and [SET date = ?, location = ?] on a row. *)
Definition set_description (text : option jsstring) (c : PictureCols)
    : PictureCols :=
  {| filename := filename c; pic_created_at := pic_created_at c;
     description := text; date := date c; location := location c |}.

Definition set_date_location (day place : option jsstring) (c : PictureCols)
    : PictureCols :=
  {| filename := filename c; pic_created_at := pic_created_at c;
     description := description c; date := day; location := place |}.

(** [updatePictureDescription]; the argument is a string or null. *)
Definition updatePictureDescription (i : Z) (text : option jsstring) (db : Db)
    : bool * Db :=
  match getPictureById i db with
  | None => (false, db)
  | Some _ =>
      (true,
       with_pictures (alter (set_description (or_null text)) i (pictures db))
                     db)
  end.

(** [updatePictureDateLocation] *)
Definition updatePictureDateLocation (i : Z) (day place : option jsstring)
    (db : Db) : bool * Db :=
  match getPictureById i db with
  | None => (false, db)
  | Some _ =>
      (true,
       with_pictures
         (alter (set_date_location (or_null day) (or_null place)) i
                (pictures db)) db)
  end.

(** [listTagsWithCount]: [COUNT(pt.picture_id)] of [tags LEFT JOIN
    picture_tags], one group per tag row, in [ORDER BY t.name] (compared
    as in [getPictureTags]). *)
Definition listTagsWithCount (db : Db) : list (jsstring * Z) :=
  (λ t, (t.1, Z.of_nat (size (filter (λ pt, pt.2 = t.2) (picture_tags db)))))
    <$> merge_sort (λ a b : jsstring * Z, a.1 = b.1 ∨ lexico a.1 b.1)
          (map_to_list (tags db)).

(** ** The admin routes and the file route (server.js) *)

(** The values of config.js the routes read. *)
Record Config := {
  defaultPageLimit : Z;
  maxPageLimit : Z;
  defaultMaxResolution : Z;
  maxResolutionMin : Z;
  maxResolutionMax : Z
}.

(** The defaults of config.js, when no environment variable is set. *)
Definition default_config : Config :=
  {| defaultPageLimit := 24; maxPageLimit := 100;
     defaultMaxResolution := 1920; maxResolutionMin := 100;
     maxResolutionMax := 10000 |}.

(** What a route answers: [res.status(s).json({ error })], [res.json(body)]
    or [res.sendFile]. *)
Inductive Reply (A : Type) :=
  | Refused (status : Z) (error : jsstring)
  | Sent (body : A).
Arguments Refused {A} status error.
Arguments Sent {A} body.





(** A field of a JSON body that is a string when it is given. *)
Inductive Field :=
  | Absent
  | Null
  | Text (s : jsstring).

Definition field_value (f : Field) : option jsstring :=
  match f with
  | Text s => Some s
  | _ => None
  end.

Record PatchBody := {
  patch_description : Field;
  patch_tags : option (list JsValue);
  patch_date : Field;
  patch_location : Field
}.

(** [PATCH /api/admin/pictures/:id]; [i] is [parseInt(req.params.id)], and
    [patch_tags] is the body's [tags] when it is an array.  [None] is an
    exception of [setPictureTags] leaving the handler.  The body sent is the
    spread of [getPictureById(id)] with the picture's tags. *)
Definition patch_picture `{StringHost} (authenticated : bool) (i : option Z)
    (body : PatchBody) (db : Db)
    : option (Reply (option Picture * list jsstring) * Db) :=
  if authenticated then
    match i ≫= λ i, (λ _, i) <$> getPictureById i db with
    | None => Some (Refused 404 (str "Not found"), db)
    | Some i =>
        let db1 := match patch_description body with
                   | Absent => db
                   | f => (updatePictureDescription i (field_value f) db).2
                   end in
        db2 ← match patch_tags body with
               | Some names => snd <$> setPictureTags i names db1
               | None => Some db1
               end;
        let db3 := match patch_date body, patch_location body with
                   | Absent, Absent => db2
                   | day, place =>
                       (updatePictureDateLocation i (field_value day)
                          (field_value place) db2).2
                   end in
        Some (Sent (getPictureById i db3, getPictureTags i db3), db3)
    end
  else Some (Refused 401 (str "Unauthorized"), db).

(** [DELETE /api/admin/tokens/:token] *)
Definition delete_token (authenticated : bool) (token : jsstring) (db : Db)
    : Reply unit * Db :=
  if authenticated then
    let r := deleteToken token db in
    if bool_decide (r.1 = 0) then (Refused 404 (str "Token not found"), r.2)
    else (Sent tt, r.2)
  else (Refused 401 (str "Unauthorized"), db).

(** [GET /api/photo/file/:id]; [i] is [parseInt(req.params.id)].  What is
    sent is the file of that name under the images directory. *)
Definition photo_file (token : option jsstring) (i : option Z) (db : Db)
    : Reply jsstring :=
  match token with
  | Some (c :: t) =>
      match getToken (c :: t) db with
      | None => Refused 403 (str "Invalid or revoked token")
      | Some _ =>
          match i ≫= λ i, getPictureById i db with
          | None => Refused 404 (str "Not found")
          | Some pic => Sent (filename (cols pic))
          end
      end
  | _ => Refused 400 (str "token required")
  end.

(** ** Numbers as strings: [String(n)] and [parseInt(s, 10)] *)

(** The decimal digits of [n], most significant first, in front of [acc];
    [fuel] bounds the number of digits. *)
Fixpoint decimal (fuel : nat) (n : N) (acc : jsstring) : jsstring :=
  match fuel with
  | O => acc
  | S fuel' =>
      let acc' := (48 + n mod 10)%N :: acc in
      if (n / 10 =? 0)%N then acc' else decimal fuel' (n / 10) acc'
  end.

(** [String(z)] for an integer-valued number below 10^21 in absolute value,
    where JavaScript writes all the digits and no exponent. *)
Definition String_of_number (z : Z) : jsstring :=
  match z with
  | Z0 => [48%N]
  | Zpos p => decimal (Pos.size_nat p) (Npos p) []
  | Zneg p => 45%N :: decimal (Pos.size_nat p) (Npos p) []
  end.

(** [\d], the digits [0-9]. *)
Definition is_digit (c : N) : bool := bool_decide (48 ≤ c ≤ 57)%N.

Fixpoint take_digits (s : jsstring) : jsstring :=
  match s with
  | c :: s' => if is_digit c then c :: take_digits s' else []
  | [] => []
  end.

Definition digits_value (ds : jsstring) : Z :=
  foldl (λ a c, 10 * a + (Z.of_N c - 48)) 0 ds.

(** [parseInt(s, 10)]: leading white space is skipped, then an optional
    sign and the longest run of digits are read; [None] is NaN.  (The value
    is exact here; JavaScript rounds beyond 2^53.) *)
Definition parseInt (s : jsstring) : option Z :=
  let s := drop_while is_space s in
  let '(negative, s) :=
    match s with
    | c :: s' =>
        if bool_decide (c = 45%N) then (true, s')
        else if bool_decide (c = 43%N) then (false, s')
        else (false, s)
    | [] => (false, [])
    end in
  match take_digits s with
  | [] => None
  | ds => Some (if negative : bool then - digits_value ds else digits_value ds)
  end.

(** ** Environment and settings (config.js, db.js) *)




(** The [settings] table, key to value. *)
Definition getSetting (key : jsstring) (s : gmap jsstring jsstring)
    : option jsstring :=
  s !! key.

(** [setSetting]: [INSERT OR REPLACE] of [String(value)]; the value is a
    number at its call in server.js. *)
Definition setSetting (key : jsstring) (value : Z)
    (s : gmap jsstring jsstring) : gmap jsstring jsstring :=
  <[key := String_of_number value]> s.

(** The row [initDb] adds: [INSERT OR IGNORE INTO settings ... VALUES
    ('max_resolution', '${config.defaultMaxResolution}')]. *)
Definition init_settings (cfg : Config) (s : gmap jsstring jsstring)
    : gmap jsstring jsstring :=
  match s !! str "max_resolution" with
  | Some _ => s
  | None =>
      <[str "max_resolution" := String_of_number (defaultMaxResolution cfg)]> s
  end.

(** [getMaxResolution]: [v ? parseInt(v, 10) : config.defaultMaxResolution];
    [None] is NaN. *)
Definition getMaxResolution (cfg : Config) (s : gmap jsstring jsstring)
    : option Z :=
  match getSetting (str "max_resolution") s with
  | Some (c :: v) => parseInt (c :: v)
  | _ => Some (defaultMaxResolution cfg)
  end.

(** [GET /api/admin/settings] *)
Definition get_settings (cfg : Config) (authenticated : bool)
    (s : gmap jsstring jsstring) : Reply (option Z) :=
  if authenticated then Sent (getMaxResolution cfg s)
  else Refused 401 (str "Unauthorized").

(** [PUT /api/admin/settings]; the body's [max_resolution] is any JSON
    value. *)
Definition put_settings (cfg : Config) (authenticated : bool)
    (max_resolution : JsValue) (s : gmap jsstring jsstring)
    : Reply Z * gmap jsstring jsstring :=
  if authenticated then
    let refused :=
      Refused 400 (str "max_resolution must be "
                   ++ String_of_number (maxResolutionMin cfg) ++ str "-"
                   ++ String_of_number (maxResolutionMax cfg)) in
    match max_resolution with
    | JsNumber z =>
        if bool_decide (z < maxResolutionMin cfg)
           || bool_decide (z > maxResolutionMax cfg)
        then (refused, s)
        else (Sent z, setSetting (str "max_resolution") z s)
    | _ => (refused, s)
    end
  else (Refused 401 (str "Unauthorized"), s).

(** ** The upload route: EXIF date and year tag (server.js) *)

(** What exifr gives for a date tag: a [Date], with the result of its
    [toISOString()] ([None] when that throws a RangeError), a string, or
    another value, of which only its truthiness matters ([undefined] for a
    missing tag is falsy). *)
Inductive ExifValue :=
  | ExifDate (iso : option jsstring)
  | ExifString (s : jsstring)
  | ExifOther (truthy : bool).

Definition exif_truthy (v : ExifValue) : bool :=
  match v with
  | ExifDate _ => true
  | ExifString s => negb (bool_decide (s = []))
  | ExifOther b => b
  end.

(** The results of [exifr.gps] and [exifr.parse]: [gps] is the string
    [`${lat.toFixed(n)},${lon.toFixed(n)}`] when both coordinates are there. *)
Record Exif := {
  gps : option jsstring;
  DateTimeOriginal : ExifValue;
  CreateDate : ExifValue;
  ModifyDate : ExifValue
}.

(** [date.match(/^(\d{4}):(\d{2}):(\d{2})/)] and
    [`${m[1]}-${m[2]}-${m[3]}`] *)
Definition match_exif_date (s : jsstring) : option jsstring :=
  match s with
  | y1 :: y2 :: y3 :: y4 :: c1 :: m1 :: m2 :: c2 :: d1 :: d2 :: _ =>
      if forallb is_digit [y1; y2; y3; y4; m1; m2; d1; d2]
         && bool_decide (c1 = 58%N) && bool_decide (c2 = 58%N)
      then Some [y1; y2; y3; y4; 45%N; m1; m2; 45%N; d1; d2]
      else None
  | _ => None
  end.

(** [extractExif]: the pair [(date, location)]; the argument is [None] when
    exifr rejects. *)
Definition extractExif (exif : option Exif)
    : option jsstring * option jsstring :=
  match exif with
  | None => (None, None)
  | Some e =>
      let loc := gps e in
      let date :=
        if exif_truthy (DateTimeOriginal e) then DateTimeOriginal e
        else if exif_truthy (CreateDate e) then CreateDate e
        else ModifyDate e in
      match date with
      | ExifDate (Some iso) => (Some (take 10 iso), loc)
      | ExifDate None => (None, loc)
      | ExifString s => (match_exif_date s, loc)
      | ExifOther _ => (None, loc)
      end
  end.

(** [/^\d{4}$/.test(year)] *)
Definition is_year (s : jsstring) : bool :=
  bool_decide (length s = 4%nat) && forallb is_digit s.

(** What the route reports for one file. *)
Inductive Uploaded :=
  | Added (i : Z) (file : jsstring)
  | Rejected.

(** The body of the loop of [POST /api/admin/upload] for one file, from the
    store's side: [image_ok] tells whether sharp wrote the resized file,
    [file] is the random file name, [exif] the result of [extractExif], and
    [now] is [Date.now()].  An error of the image pipeline or of
    [addPicture] is caught and the file is reported in [errors]; [None] is
    an error of [setPictureTags], caught as well, after which the store is
    not described here. *)
Definition upload_file `{StringHost} (image_ok : bool) (now : Z)
    (file : jsstring) (exif : option jsstring * option jsstring) (db : Db)
    : option (Uploaded * Db) :=
  if image_ok then
    match addPicture now file exif.1 exif.2 db with
    | None => Some (Rejected, db)
    | Some (i, db1) =>
        match exif.1 with
        | Some (c :: d) =>
            let year := take 4 (c :: d) in
            if is_year year then
              (λ r, (Added i file, r.2))
                <$> setPictureTags i [JsString year] db1
            else Some (Added i file, db1)
        | _ => Some (Added i file, db1)
        end
    end
  else Some (Rejected, db).

(** ** Conditions on the store *)

(** What AUTOINCREMENT guarantees of the [pictures] table: every id is
    positive and at most the sequence counter. *)
Definition pictures_wf (d : Db) : Prop :=
  0 ≤ pictures_seq d ∧
  map_Forall (λ i _, 0 < i ≤ pictures_seq d) (pictures d).

(** What the FOREIGN KEY constraints of [picture_tags] guarantee: the
    picture and the tag of every row exist. *)
Definition picture_tags_wf (d : Db) : Prop :=
  ∀ p t, (p, t) ∈ picture_tags d →
         is_Some (pictures d !! p) ∧ ∃ n, tags d !! n = Some t.

(** No two pictures share a file name (the UNIQUE constraint). *)
Definition filenames_unique (d : Db) : Prop :=
  ∀ i j ci cj, pictures d !! i = Some ci → pictures d !! j = Some cj →
               filename ci = filename cj → i = j.

(** Every stored tag name is a non-empty normalised name. *)
Definition tag_names_wf `{StringHost} (d : Db) : Prop :=
  ∀ n t, tags d !! n = Some t → n ≠ [] ∧ normalizeTag (JsString n) = n.

(** Every cached permutation has no duplicate, holds ids that have been
    given out, and has its cursor inside; a token without one has the
    cursor 0. *)
Definition random_states_wf (d : Db) : Prop :=
  ∀ t row, getToken t d = Some row →
    match random_ids row with
    | Some ids =>
        NoDup ids ∧ 0 ≤ random_index row < Z.of_nat (length ids) ∧
        Forall (λ i, 0 < i ≤ pictures_seq d) ids
    | None => random_index row = 0
    end.

Definition db_wf `{StringHost} (d : Db) : Prop :=
  pictures_wf d ∧ filenames_unique d ∧ tags_wf d ∧ tag_names_wf d ∧
  picture_tags_wf d ∧ cursors_nonneg d ∧ random_states_wf d.

(** The row [createToken] inserts. *)
Definition new_token_row (now : Z) : TokenCols :=
  {| current_index := 0; random_ids := None; random_index := 0;
     tok_created_at := now |}.

(** ** Histories

    The calls that change the store, as the routes of server.js make them,
    and a sequence of them run from a given state; [None] when a statement
    raises. *)
Inductive Op :=
  | OpAddPicture (now : Z) (file : jsstring) (day place : option jsstring)
  | OpDeletePicture (i : Z)
  | OpUpdateDescription (i : Z) (text : option jsstring)
  | OpUpdateDateLocation (i : Z) (day place : option jsstring)
  | OpSetPictureTags (i : Z) (names : list JsValue)
  | OpCreateToken (token : jsstring) (now : Z)
  | OpDeleteToken (token : jsstring)
  | OpPhoto (req : Request).

Definition set_db (d : Db) (w : World) : World := with_db (λ _, d) w.

Definition apply_op `{StringHost} `{RandomSource} (op : Op) (w : World)
    : option World :=
  match op with
  | OpAddPicture now file day place =>
      (λ r, set_db r.2 w) <$> addPicture now file day place (db w)
  | OpDeletePicture i => Some (set_db (deletePicture i (db w)).2 w)
  | OpUpdateDescription i text =>
      Some (set_db (updatePictureDescription i text (db w)).2 w)
  | OpUpdateDateLocation i day place =>
      Some (set_db (updatePictureDateLocation i day place (db w)).2 w)
  | OpSetPictureTags i names =>
      (λ r, set_db r.2 w) <$> setPictureTags i names (db w)
  | OpCreateToken token now =>
      (λ r, set_db r.2 w) <$> createToken token now (db w)
  | OpDeleteToken token => Some (set_db (deleteToken token (db w)).2 w)
  | OpPhoto req => Some (photo req w).2
  end.

Fixpoint apply_ops `{StringHost} `{RandomSource} (ops : list Op) (w : World)
    : option World :=
  match ops with
  | [] => Some w
  | op :: ops' => apply_op op w ≫= apply_ops ops'
  end.

(** The world after a sequence of requests to [GET /api/photo]. *)
Definition run_requests `{RandomSource} (reqs : list Request) (w : World)
    : World :=
  foldl (λ w r, (photo r w).2) w reqs.

(** ** More galleries and a history *)

(** [gallery_three] after [addPicture('x.jpg')] at time 7. *)
Definition gallery_four : Db :=
  {| pictures := <[ 6 := {| filename := str "x.jpg"; pic_created_at := 7;
                            description := None; date := None;
                            location := None |} ]> (pictures gallery_three);
     pictures_seq := 6;
     tags := ∅; tags_seq := 0; picture_tags := ∅;
     tokens := {[ token_T := fresh_token ]} |}.

(** Pictures 1 and 2 and no token. *)
Definition gallery_two : Db :=
  {| pictures := {[ 1 := picture_row (str "a.jpg");
                    2 := picture_row (str "b.jpg") ]};
     pictures_seq := 2;
     tags := ∅; tags_seq := 0; picture_tags := ∅; tokens := ∅ |}.

(** [gallery_three] with the tags [sea] (pictures 1 and 5) and [old] (no
    picture). *)
Definition gallery_tagged : Db :=
  {| pictures := pictures gallery_three; pictures_seq := 5;
     tags := {[ str "sea" := 1; str "old" := 2 ]}; tags_seq := 2;
     picture_tags := {[ (1, 1); (5, 1) ]};
     tokens := {[ token_T := fresh_token ]} |}.

(** A history: three uploads, tags, a token, deliveries in both modes, a
    deletion and another upload. *)
Definition history : list Op :=
  [ OpAddPicture 1 (str "a.jpg") None None;
    OpAddPicture 2 (str "b.jpg") (Some (str "2024-05-01")) None;
    OpAddPicture 3 (str "c.jpg") None (Some (str "Lisbon"));
    OpSetPictureTags 2 [JsString (str "Sea View"); JsString (str "old")];
    OpSetPictureTags 2 [JsString (str "sea view")];
    OpCreateToken token_T 4;
    OpPhoto random_request;
    OpPhoto next_request;
    OpDeletePicture 3;
    OpUpdateDescription 1 (Some (str "Harbour"));
    OpPhoto random_request;
    OpPhoto random_request;
    OpAddPicture 5 (str "d.jpg") None None;
    OpPhoto random_request;
    OpDeleteToken token_T ].

(** * Properties *)

(** ** Facts about the replacements *)

Section replacements.
Implicit Types (p : N → bool) (s t : jsstring) (c r : N).

Lemma head_matches_replace_runs p r s :
  p r = true →
  head_matches p (replace_runs p r s) = head_matches p s.
Proof.
  intros Hr. induction s as [|c s IH]; [done|]. simpl.
  destruct (p c) eqn:Hc; simpl; [|done].
  destruct (head_matches p s) eqn:Hs; simpl; [by rewrite IH | done].
Qed.

Lemma replace_runs_none p r s :
  Forall (λ c, p c = false) s → replace_runs p r s = s.
Proof.
  induction 1 as [|c s Hc _ IH]; [done|]. simpl. by rewrite Hc, IH.
Qed.

(** The run-entering scan of the specification and the run-leaving scan
    of the regular expression produce the same string. *)
Lemma squeeze_both p s :
  squeeze p false s = replace_runs p hyphen s ∧
  hyphen :: squeeze p true s =
    (if head_matches p s then replace_runs p hyphen s
     else hyphen :: replace_runs p hyphen s).
Proof.
  induction s as [|c s [IH1 IH2]]; [done|]. simpl.
  destruct (p c); [by rewrite IH2 | by rewrite IH1].
Qed.

Lemma squeeze_replace_runs p s :
  squeeze p false s = replace_runs p hyphen s.
Proof. apply squeeze_both. Qed.

Lemma single_hyphens_replace_runs s :
  single_hyphens (replace_runs is_hyphen hyphen s) = true.
Proof.
  induction s as [|c s IH]; [done|]. simpl.
  destruct (is_hyphen c) eqn:Hc.
  - destruct (head_matches is_hyphen s) eqn:Hs; [done|]. simpl.
    by rewrite head_matches_replace_runs, Hs, IH.
  - simpl. by rewrite Hc, IH.
Qed.

Lemma replace_runs_single s :
  single_hyphens s = true → replace_runs is_hyphen hyphen s = s.
Proof.
  induction s as [|c s IH]; [done|]. simpl.
  intros [H1 H2]%andb_prop. rewrite (IH H2).
  destruct (is_hyphen c) eqn:Hc; [|done].
  simpl in H1. apply negb_true_iff in H1. rewrite H1.
  unfold is_hyphen in Hc. by apply bool_decide_eq_true in Hc as ->.
Qed.

Lemma single_hyphens_app_l s t :
  single_hyphens (s ++ t) = true → single_hyphens s = true.
Proof.
  induction s as [|c s IH]; [done|]. simpl.
  intros [H1 H2]%andb_prop. rewrite (IH H2), andb_true_r.
  destruct (is_hyphen c); [|done]. simpl in *.
  destruct s; [done|]. done.
Qed.

Lemma single_hyphens_app_r s t :
  single_hyphens (s ++ t) = true → single_hyphens t = true.
Proof.
  induction s as [|c s IH]; [done|]. simpl.
  intros [_ H2]%andb_prop. auto.
Qed.

Lemma strip_last_hyphen_snoc s c :
  strip_last_hyphen (s ++ [c]) = if is_hyphen c then s else s ++ [c].
Proof.
  induction s as [|d s IH]; simpl.
  - by destruct (is_hyphen c).
  - rewrite IH. destruct s; simpl; by destruct (is_hyphen c).
Qed.

Lemma drop_while_head p s :
  head_matches p s = false → drop_while p s = s.
Proof. destruct s; simpl; [done|]. by intros ->. Qed.

Lemma strip_first_hyphen_drop_while s :
  single_hyphens s = true →
  drop_while is_hyphen s = strip_first_hyphen s.
Proof.
  destruct s as [|c s]; [done|]. simpl.
  intros [H1 _]%andb_prop. destruct (is_hyphen c); [|done].
  simpl in H1. apply negb_true_iff in H1. by apply drop_while_head.
Qed.

Lemma strip_first_hyphen_single s :
  single_hyphens s = true → single_hyphens (strip_first_hyphen s) = true.
Proof.
  destruct s as [|c s]; [done|]. simpl.
  destruct (is_hyphen c) eqn:Hc; simpl;
    [by intros [_ ?]%andb_prop | by rewrite Hc].
Qed.

Lemma strip_first_hyphen_head s :
  single_hyphens s = true →
  head_matches is_hyphen (strip_first_hyphen s) = false.
Proof.
  destruct s as [|c s]; [done|]. simpl.
  destruct (is_hyphen c) eqn:Hc; simpl.
  - intros [H1 _]%andb_prop. by apply negb_true_iff in H1.
  - by rewrite Hc.
Qed.

(** After [-+] has been collapsed, removing one hyphen at the end is
    removing all of them. *)
Lemma strip_last_hyphen_drop_while s :
  single_hyphens s = true →
  reverse (drop_while is_hyphen (reverse s)) = strip_last_hyphen s.
Proof.
  destruct s as [|c s _] using rev_ind; [done|].
  intros Hs. rewrite strip_last_hyphen_snoc, reverse_snoc. simpl.
  destruct (is_hyphen c) eqn:Hc.
  - rewrite drop_while_head; [apply reverse_involutive|].
    destruct s as [|d s _] using rev_ind; [done|].
    rewrite reverse_snoc. simpl.
    rewrite <- (assoc_L (++)) in Hs. apply single_hyphens_app_r in Hs.
    simpl in Hs. rewrite Hc in Hs. by destruct (is_hyphen d).
  - by rewrite <- reverse_snoc, reverse_involutive.
Qed.

Lemma trim_hyphens_strip_edge s :
  single_hyphens s = true → trim_hyphens s = strip_edge_hyphens s.
Proof.
  intros Hs. unfold trim_hyphens, strip_edge_hyphens.
  rewrite (strip_first_hyphen_drop_while s) by done.
  by apply strip_last_hyphen_drop_while, strip_first_hyphen_single.
Qed.

Lemma strip_last_hyphen_prefix s :
  strip_last_hyphen s = s ∨ s = strip_last_hyphen s ++ [hyphen].
Proof.
  destruct s as [|c s _] using rev_ind; [by left|].
  rewrite strip_last_hyphen_snoc. destruct (is_hyphen c) eqn:Hc; [|by left].
  right. unfold is_hyphen in Hc. by apply bool_decide_eq_true in Hc as ->.
Qed.

Lemma strip_last_hyphen_idemp s :
  single_hyphens s = true →
  strip_last_hyphen (strip_last_hyphen s) = strip_last_hyphen s.
Proof.
  destruct s as [|c s _] using rev_ind; [done|].
  intros Hs. rewrite strip_last_hyphen_snoc.
  destruct (is_hyphen c) eqn:Hc.
  - destruct s as [|d s _] using rev_ind; [done|].
    rewrite strip_last_hyphen_snoc.
    rewrite <- (assoc_L (++)) in Hs. apply single_hyphens_app_r in Hs.
    simpl in Hs. rewrite Hc in Hs. by destruct (is_hyphen d).
  - by rewrite strip_last_hyphen_snoc, Hc.
Qed.

Lemma strip_last_hyphen_head s :
  head_matches is_hyphen s = false →
  head_matches is_hyphen (strip_last_hyphen s) = false.
Proof.
  destruct s as [|c [|d s]]; simpl; [done| |done].
  intros Hc. by rewrite Hc.
Qed.

Lemma strip_edge_hyphens_idemp s :
  single_hyphens s = true →
  strip_edge_hyphens (strip_edge_hyphens s) = strip_edge_hyphens s.
Proof.
  intros Hs. unfold strip_edge_hyphens.
  assert (Hhd := strip_last_hyphen_head _ (strip_first_hyphen_head _ Hs)).
  assert (strip_first_hyphen (strip_last_hyphen (strip_first_hyphen s))
          = strip_last_hyphen (strip_first_hyphen s)) as ->.
  { destruct (strip_last_hyphen (strip_first_hyphen s)); [done|].
    simpl in *. by rewrite Hhd. }
  by apply strip_last_hyphen_idemp, strip_first_hyphen_single.
Qed.

Lemma strip_edge_hyphens_sublist s : strip_edge_hyphens s `sublist_of` s.
Proof.
  unfold strip_edge_hyphens. etrans; [|instantiate (1 := strip_first_hyphen s)].
  - destruct (strip_last_hyphen_prefix (strip_first_hyphen s)) as [->|Heq];
      [done|]. rewrite Heq at 2. by apply sublist_inserts_r.
  - destruct s as [|c s]; simpl; [done|].
    destruct (is_hyphen c); [by apply sublist_cons | done].
Qed.

Lemma strip_edge_hyphens_single s :
  single_hyphens s = true → single_hyphens (strip_edge_hyphens s) = true.
Proof.
  intros Hs%strip_first_hyphen_single. unfold strip_edge_hyphens.
  destruct (strip_last_hyphen_prefix (strip_first_hyphen s)) as [->|Heq];
    [done|]. rewrite Heq in Hs. by apply single_hyphens_app_l in Hs.
Qed.
End replacements.

(** ** The tag normaliser: slugs are its fixed points *)

Section normalizeTag.
Context `{StringHost}.
Implicit Types (s : jsstring) (c : N) (x : JsValue).

Lemma is_slug_unit_cases c :
  is_slug_unit c = true → (97 ≤ c ≤ 122 ∨ 48 ≤ c ≤ 57 ∨ c = 45)%N.
Proof.
  unfold is_slug_unit, is_hyphen, hyphen.
  rewrite !orb_true_iff, !bool_decide_eq_true. tauto.
Qed.

Lemma slug_unit_not_space c : is_slug_unit c = true → is_space c = false.
Proof.
  intros Hc%is_slug_unit_cases. unfold is_space.
  apply orb_false_iff. rewrite !bool_decide_eq_false.
  rewrite !elem_of_cons, elem_of_nil. lia.
Qed.

Lemma slug_unit_lower c : is_slug_unit c = true → ascii_lower c = c.
Proof.
  intros Hc%is_slug_unit_cases. unfold ascii_lower.
  rewrite bool_decide_eq_false_2; [done | lia].
Qed.

Lemma toLowerCase_slug s :
  Forall (λ c, is_slug_unit c = true) s → toLowerCase s = s.
Proof.
  intros Hs. rewrite toLowerCase_ascii.
  - induction Hs as [|c s Hc _ IH]; [done|].
    rewrite fmap_cons, IH. by rewrite slug_unit_lower.
  - eapply Forall_impl; [done|]. intros c Hc%is_slug_unit_cases. simpl. lia.
Qed.

(** What the first four replacements leave: slug units only, hyphens one
    at a time. *)
Lemma collapsed_slug_units s :
  Forall (λ c, is_slug_unit c = true)
    (replace_runs is_hyphen hyphen (strip_non_slug s)).
Proof.
  assert (∀ t, Forall (λ c, is_slug_unit c = true) t →
               Forall (λ c, is_slug_unit c = true)
                 (replace_runs is_hyphen hyphen t)) as Hrun.
  { induction 1 as [|c t Hc _ IH]; [done|]. simpl.
    destruct (is_hyphen c); [|by constructor].
    destruct (head_matches is_hyphen t); [done | by constructor]. }
  apply Hrun, Forall_forall. intros c Hc.
  unfold strip_non_slug in Hc. by apply list_elem_of_filter in Hc as [? _].
Qed.

Lemma normalizeTag_slug_units x :
  Forall (λ c, is_slug_unit c = true) (normalizeTag x).
Proof.
  destruct x; simpl; try done.
  apply Forall_forall. intros c Hc.
  eapply elem_of_sublist in Hc; [|apply strip_edge_hyphens_sublist].
  revert c Hc. apply Forall_forall, collapsed_slug_units.
Qed.

Lemma strip_non_slug_slug s :
  Forall (λ c, is_slug_unit c = true) s → strip_non_slug s = s.
Proof.
  unfold strip_non_slug. induction 1 as [|c s Hc _ IH]; [done|].
  by rewrite filter_cons_True, IH.
Qed.

Lemma normalizeTag_single_hyphens x :
  single_hyphens (normalizeTag x) = true.
Proof.
  destruct x; simpl; try done.
  apply strip_edge_hyphens_single, single_hyphens_replace_runs.
Qed.

Lemma normalizeTag_idempotent x :
  normalizeTag (JsString (normalizeTag x)) = normalizeTag x.
Proof.
  assert (Hunits := normalizeTag_slug_units x).
  assert (Hsingle := normalizeTag_single_hyphens x).
  unfold normalizeTag at 1.
  rewrite toLowerCase_slug by done.
  rewrite (replace_runs_none is_space)
    by (eapply Forall_impl; [exact Hunits | apply slug_unit_not_space]).
  rewrite strip_non_slug_slug by done.
  rewrite replace_runs_single by done.
  destruct x; simpl; try done.
  apply strip_edge_hyphens_idemp, single_hyphens_replace_runs.
Qed.

Lemma normalizeTag_refines_spec x : normalizeTag x = normalize_spec x.
Proof.
  destruct x; simpl; try done.
  rewrite !squeeze_replace_runs.
  symmetry. apply trim_hyphens_strip_edge, single_hyphens_replace_runs.
Qed.

Lemma normalizeTag_empty : normalizeTag (JsString []) = [].
Proof. simpl. by rewrite toLowerCase_ascii. Qed.

Lemma normalizeTag_paris :
  normalizeTag (JsString (str "  Paris, 2024!! ")) = str "paris-2024".
Proof.
  simpl. rewrite toLowerCase_ascii; [reflexivity|].
  apply Forall_forall. intros c Hc. vm_compute in Hc.
  repeat (apply elem_of_cons in Hc as [->|Hc]; [done|]).
  by apply elem_of_nil in Hc.
Qed.
End normalizeTag.

(** ** The picture table in id order *)

Section pictures.
Implicit Types (db : Db) (p : Picture) (i : Z).

#[local] Instance id_le_total : Total id_le.
Proof. intros p q. unfold id_le. lia. Qed.

#[local] Instance id_le_trans : Transitive id_le.
Proof. intros p q r. unfold id_le. lia. Qed.

Lemma pictures_by_id_perm db :
  pictures_by_id db ≡ₚ
    (λ kv, {| id := kv.1; cols := kv.2 |}) <$> map_to_list (pictures db).
Proof. apply merge_sort_Permutation. Qed.

Lemma length_pictures_by_id db :
  length (pictures_by_id db) = size (pictures db).
Proof.
  rewrite pictures_by_id_perm, length_fmap. apply length_map_to_list.
Qed.

Lemma elem_of_pictures_by_id db p :
  p ∈ pictures_by_id db ↔ pictures db !! id p = Some (cols p).
Proof.
  rewrite pictures_by_id_perm, list_elem_of_fmap. split.
  - intros ([k c] & -> & Hkc). simpl. by apply elem_of_map_to_list.
  - intros Hp. exists (id p, cols p). split; [by destruct p|].
    by apply elem_of_map_to_list.
Qed.

Lemma getPictureById_by_id db p :
  p ∈ pictures_by_id db → getPictureById (id p) db = Some p.
Proof.
  intros Hp%elem_of_pictures_by_id. unfold getPictureById.
  rewrite Hp. by destruct p.
Qed.

Lemma getAllPictureIds_NoDup db : NoDup (getAllPictureIds db).
Proof.
  unfold getAllPictureIds. rewrite pictures_by_id_perm, <- list_fmap_compose.
  apply (NoDup_fst_map_to_list (pictures db)).
Qed.

Lemma elem_of_getAllPictureIds db i :
  i ∈ getAllPictureIds db ↔ is_Some (pictures db !! i).
Proof.
  unfold getAllPictureIds. rewrite list_elem_of_fmap. split.
  - intros (p & -> & Hp%elem_of_pictures_by_id). eauto.
  - intros [c Hc]. exists {| id := i; cols := c |}.
    split; [done|]. by apply elem_of_pictures_by_id.
Qed.

(** [ORDER BY id] on a primary key: strictly ascending. *)
Lemma getAllPictureIds_ascending db :
  StronglySorted Z.lt (getAllPictureIds db).
Proof.
  assert (Hs : StronglySorted id_le (pictures_by_id db))
    by apply (StronglySorted_merge_sort id_le).
  assert (Hnd := getAllPictureIds_NoDup db).
  unfold getAllPictureIds in *.
  induction Hs as [|p l _ IH Hp]; [constructor|].
  rewrite fmap_cons in *. apply NoDup_cons in Hnd as [Hnot Hnd].
  constructor; [by apply IH|].
  apply Forall_fmap, Forall_forall. intros q Hq. simpl.
  rewrite Forall_forall in Hp. specialize (Hp q Hq). unfold id_le in Hp.
  assert (id p ≠ id q); [|lia].
  intros Heq. apply Hnot. rewrite Heq. by apply list_elem_of_fmap_2.
Qed.

Lemma getPictureCount_length db :
  getPictureCount db = Z.of_nat (length (pictures_by_id db)).
Proof. unfold getPictureCount. by rewrite length_pictures_by_id. Qed.

Lemma length_getAllPictureIds db :
  Z.of_nat (length (getAllPictureIds db)) = getPictureCount db.
Proof.
  unfold getAllPictureIds. by rewrite length_fmap, getPictureCount_length.
Qed.
End pictures.

(** ** The shuffle *)

Lemma state_bind_run {S A B} (m : State S A) (f : A → State S B) (s : S) :
  (m ≫= f) s = f (m s).1 (m s).2.
Proof. unfold mbind, state_bind. by destruct (m s). Qed.

Section shuffle.
Context `{RandomSource}.
Implicit Types (a arr : list Z) (w : World) (i j : nat).

Lemma swap_Permutation a i j : swap a i j ≡ₚ a.
Proof.
  unfold swap. destruct (a !! i) as [x|] eqn:Hi; [|done].
  destruct (a !! j) as [y|] eqn:Hj; [|done].
  by apply Permutation_insert_swap.
Qed.


Lemma shuffle_from_spec i a w :
  (shuffle_from i a w).1 ≡ₚ a ∧ db (shuffle_from i a w).2 = db w.
Proof.
  revert a w. induction i as [|i IH]; intros a w; [done|].
  cbn [shuffle_from]. rewrite state_bind_run.
  destruct (IH (swap a (S i) (Z.to_nat (random_below (Z.of_nat (S i) + 1) w).1))
               (random_below (Z.of_nat (S i) + 1) w).2) as [-> ->].
  split; [apply swap_Permutation | done].
Qed.

Lemma shuffle_Permutation arr w : (shuffle arr w).1 ≡ₚ arr.
Proof. apply shuffle_from_spec. Qed.

Lemma shuffle_db arr w : db (shuffle arr w).2 = db w.
Proof. apply shuffle_from_spec. Qed.

Lemma regenerate_spec w :
  (regenerate w).1.1 ≡ₚ getAllPictureIds (db w) ∧
  (regenerate w).1.2 = 0 ∧
  db (regenerate w).2 = db w.
Proof.
  unfold regenerate. rewrite !state_bind_run. simpl.
  split; [apply shuffle_Permutation|]. split; [done | apply shuffle_db].
Qed.
End shuffle.

(** ** One delivery *)

Section one_delivery.
Context `{RandomSource}.
Implicit Types (req : Request) (tok : jsstring) (w : World) (row : TokenCols).

Lemma pictures_by_id_ext (d d' : Db) :
  pictures d' = pictures d → pictures_by_id d' = pictures_by_id d.
Proof. unfold pictures_by_id. by intros ->. Qed.

Lemma getPictureCount_ext (d d' : Db) :
  pictures d' = pictures d → getPictureCount d' = getPictureCount d.
Proof. unfold getPictureCount. by intros ->. Qed.

Lemma getPictureById_ext (d d' : Db) i :
  pictures d' = pictures d → getPictureById i d' = getPictureById i d.
Proof. unfold getPictureById. by intros ->. Qed.

Lemma photo_run req tok row w :
  query_token req = Some tok → tok ≠ [] →
  getPictureCount (db w) ≠ 0 →
  getToken tok (db w) = Some row →
  photo req w =
    let r := (if bool_decide (mode_of req = str "random")
              then photo_random tok
              else photo_next tok row (getPictureCount (db w))) w in
    (answer req tok r.1, r.2).
Proof.
  intros Hq Hne Hn Hrow. unfold photo. rewrite Hq.
  destruct tok as [|c t]; [done|].
  rewrite state_bind_run. cbn [gets fst snd].
  rewrite bool_decide_eq_false_2 by done.
  rewrite state_bind_run. cbn [gets fst snd]. rewrite Hrow.
  rewrite state_bind_run. cbn zeta.
  by destruct ((if bool_decide (mode_of req = str "random")
                then photo_random (c :: t)
                else photo_next (c :: t) row (getPictureCount (db w))) w)
    as [[pic|] w'].
Qed.

Lemma photo_next_run tok row n w :
  photo_next tok row n w =
    (getPictureByIndex (Z.rem (current_index row) n) (db w),
     with_db (updateTokenIndex tok (Z.rem (Z.rem (current_index row) n + 1) n))
             w).
Proof. reflexivity. Qed.

Lemma serve_cursor_run tok ids idx w :
  serve_cursor tok ids idx w =
    (array_get ids idx ≫= (λ i, getPictureById i (db w)),
     if bool_decide (Z.of_nat (length ids) ≤ idx + 1)
     then with_db (updateTokenRandomState tok (regenerate w).1.1
                                          (regenerate w).1.2)
                  (regenerate w).2
     else with_db (updateTokenRandomState tok ids (idx + 1)) w).
Proof.
  unfold serve_cursor. rewrite state_bind_run. cbn [gets fst snd].
  rewrite state_bind_run. case_bool_decide.
  - by destruct (regenerate w) as [[ids' idx'] w'].
  - reflexivity.
Qed.

Lemma photo_random_run tok w :
  photo_random tok w =
    let state := getTokenRandomState tok (db w) in
    let ids := state ≫= fst in
    let idx := from_option snd 0 state in
    if exhausted ids idx
    then serve_cursor tok (regenerate w).1.1 (regenerate w).1.2
                      (regenerate w).2
    else serve_cursor tok (default [] ids) idx w.
Proof.
  unfold photo_random. rewrite state_bind_run. cbn [gets fst snd]. cbn zeta.
  rewrite state_bind_run.
  destruct (exhausted _ _).
  - by destruct (regenerate w) as [[ids' idx'] w'].
  - reflexivity.
Qed.

(** The delivery never touches the pictures, and never removes a token. *)
Lemma serve_cursor_pictures tok ids idx w :
  pictures (db (serve_cursor tok ids idx w).2) = pictures (db w).
Proof.
  rewrite serve_cursor_run. cbn [snd]. case_bool_decide; [|done].
  cbn. by destruct (regenerate_spec w) as (_ & _ & ->).
Qed.

Lemma photo_random_pictures tok w :
  pictures (db (photo_random tok w).2) = pictures (db w).
Proof.
  rewrite photo_random_run. cbn zeta. destruct (exhausted _ _).
  - rewrite serve_cursor_pictures.
    by destruct (regenerate_spec w) as (_ & _ & ->).
  - apply serve_cursor_pictures.
Qed.

Lemma photo_pictures req w :
  pictures (db (photo req w).2) = pictures (db w).
Proof.
  unfold photo. destruct (query_token req) as [[|c t]|]; try done.
  rewrite state_bind_run. cbn [gets fst snd]. case_bool_decide; [done|].
  rewrite state_bind_run. cbn [gets fst snd].
  destruct (getToken (c :: t) (db w)) as [row|]; [|done].
  rewrite state_bind_run.
  assert (pictures (db ((if bool_decide (mode_of req = str "random")
                         then photo_random (c :: t)
                         else photo_next (c :: t) row
                                (getPictureCount (db w))) w).2)
          = pictures (db w)) as Hp.
  { case_bool_decide; [apply photo_random_pictures | done]. }
  by destruct ((if bool_decide (mode_of req = str "random")
                then photo_random (c :: t)
                else photo_next (c :: t) row (getPictureCount (db w))) w)
    as [[pic|] w'].
Qed.
End one_delivery.

(** ** Sequential mode *)

Section sequential.
Context `{RandomSource}.
Variables (req : Request) (tok : jsstring).
Hypothesis Hquery : query_token req = Some tok.
Hypothesis Hpresent : tok ≠ [].
Hypothesis Hmode : mode_of req ≠ str "random".
Implicit Types (w : World) (row : TokenCols).

Lemma getPictureByIndex_ext (d d' : Db) i :
  pictures d' = pictures d → getPictureByIndex i d' = getPictureByIndex i d.
Proof. unfold getPictureByIndex. by intros ->%pictures_by_id_ext. Qed.

Lemma getPictureCount_pos (d : Db) :
  getPictureCount d ≠ 0 → 0 < getPictureCount d.
Proof. unfold getPictureCount. lia. Qed.

Lemma getPictureByIndex_in_range (d : Db) i :
  0 ≤ i < getPictureCount d → is_Some (getPictureByIndex i d).
Proof.
  intros Hi. apply lookup_lt_is_Some. rewrite getPictureCount_length in Hi. lia.
Qed.

(** One sequential delivery: the answer and the world it leaves. *)
Lemma photo_next_step w row :
  getToken tok (db w) = Some row →
  0 ≤ current_index row →
  getPictureCount (db w) ≠ 0 →
  let n := getPictureCount (db w) in
  let c := current_index row in
  photo req w =
    (answer req tok (getPictureByIndex (c mod n) (db w)),
     with_db (updateTokenIndex tok ((c mod n + 1) mod n)) w).
Proof.
  intros Hrow Hc Hn n c. assert (0 < n) by by apply getPictureCount_pos.
  rewrite (photo_run req tok row) by done.
  rewrite bool_decide_eq_false_2 by done. rewrite photo_next_run. cbn.
  fold n c. rewrite !Z.rem_mod_nonneg; try lia; [done|].
  pose proof (Z.mod_pos_bound c n). lia.
Qed.

Lemma getToken_updateTokenIndex (d : Db) row i :
  getToken tok d = Some row →
  getToken tok (updateTokenIndex tok i d) =
    Some {| current_index := i; random_ids := random_ids row;
            random_index := random_index row;
            tok_created_at := tok_created_at row |}.
Proof.
  unfold getToken, updateTokenIndex. cbn. rewrite lookup_alter_eq.
  by intros ->.
Qed.

(** [k] sequential deliveries from cursor [c]: the ordinals
    [c mod n], [(c+1) mod n], ... in turn. *)
Lemma deliveries_next k w row :
  getToken tok (db w) = Some row →
  0 ≤ current_index row →
  getPictureCount (db w) ≠ 0 →
  (deliveries k req w).1 =
    (λ j : nat,
       answer req tok
         (getPictureByIndex
            ((current_index row + Z.of_nat j) mod getPictureCount (db w))
            (db w))) <$> seq 0 k.
Proof.
  revert w row. induction k as [|k IH]; intros w row Hrow Hc Hn; [done|].
  assert (0 < getPictureCount (db w)) as Hpos by by apply getPictureCount_pos.
  cbn [deliveries]. rewrite !state_bind_run. cbn [mret state_ret fst snd].
  rewrite (photo_next_step w row) by done. cbn [fst snd].
  set (n := getPictureCount (db w)) in *. set (c := current_index row) in *.
  set (w1 := with_db (updateTokenIndex tok ((c mod n + 1) mod n)) w).
  assert (Hrow1 := getToken_updateTokenIndex (db w) row
                     ((c mod n + 1) mod n) Hrow).
  assert (Hpics : pictures (db w1) = pictures (db w)) by done.
  rewrite (IH w1 _ Hrow1); cbn [current_index].
  - rewrite (getPictureCount_ext _ _ Hpics). fold n.
    change (seq 0 (S k)) with (0%nat :: seq 1 k).
    rewrite <- fmap_S_seq, fmap_cons, <- list_fmap_compose.
    f_equal; [by rewrite Z.add_0_r|].
    apply list_fmap_ext. intros _ j _. cbn.
    rewrite (getPictureByIndex_ext _ _ _ Hpics). do 2 f_equal.
    rewrite Zplus_mod_idemp_l, <- Z.add_assoc, Zplus_mod_idemp_l.
    f_equal. lia.
  - pose proof (Z.mod_pos_bound (c mod n + 1) n). lia.
  - by rewrite (getPictureCount_ext _ _ Hpics).
Qed.
End sequential.

(** ** Randomized mode *)

Section randomized.
Context `{RandomSource}.
Variables (req : Request) (tok : jsstring).
Hypothesis Hquery : query_token req = Some tok.
Hypothesis Hpresent : tok ≠ [].
Hypothesis Hmode : mode_of req = str "random".
Implicit Types (w : World) (row : TokenCols) (ids : list Z).

Lemma photo_random_step w :
  is_Some (getToken tok (db w)) →
  getPictureCount (db w) ≠ 0 →
  photo req w = (answer req tok (photo_random tok w).1, (photo_random tok w).2).
Proof.
  intros [row Hrow] Hn. rewrite (photo_run req tok row) by done.
  by rewrite bool_decide_eq_true_2 by done.
Qed.

Lemma getTokenRandomState_update (d : Db) ids idx :
  is_Some (getToken tok d) →
  getTokenRandomState tok (updateTokenRandomState tok ids idx d) =
    Some (Some ids, idx).
Proof.
  unfold getToken, getTokenRandomState, updateTokenRandomState. cbn.
  rewrite lookup_alter_eq. by intros [row ->].
Qed.

Lemma getToken_updateTokenRandomState (d : Db) ids idx :
  is_Some (getToken tok d) →
  is_Some (getToken tok (updateTokenRandomState tok ids idx d)).
Proof.
  unfold getToken, updateTokenRandomState. cbn.
  rewrite lookup_alter_eq. by intros [row ->].
Qed.

Lemma array_get_nat ids (idx : nat) :
  array_get ids (Z.of_nat idx) = ids !! idx.
Proof.
  unfold array_get. rewrite bool_decide_eq_true_2 by lia.
  by rewrite Nat2Z.id.
Qed.

(** With a cursor that is not negative and a state that is not exhausted,
    [ids[idx]] is an element of the array. *)
Lemma array_get_in_range ids idx :
  0 ≤ idx → exhausted (Some ids) idx = false → is_Some (array_get ids idx).
Proof.
  intros Hidx Hex. unfold array_get. rewrite bool_decide_eq_true_2 by done.
  apply lookup_lt_is_Some. destruct ids as [|i ids]; [done|].
  cbn in Hex. apply bool_decide_eq_false in Hex. cbn [length]. lia.
Qed.

Lemma exhausted_in_range ids (idx : nat) :
  (idx < length ids)%nat → exhausted (Some ids) (Z.of_nat idx) = false.
Proof.
  destruct ids as [|i ids]; cbn [length]; [lia|]. intros Hlt.
  cbn. apply bool_decide_eq_false. lia.
Qed.

(** From position [idx] of a permutation to its end: the deliveries
    answer with the entries [ids[idx]], [ids[idx+1]], ... in turn. *)
Lemma serve_cursor_cycle m w ids (idx : nat) :
  is_Some (getToken tok (db w)) →
  getPictureCount (db w) ≠ 0 →
  (idx + S m = length ids)%nat →
  answer req tok (serve_cursor tok ids (Z.of_nat idx) w).1
    :: (deliveries m req (serve_cursor tok ids (Z.of_nat idx) w).2).1
  = (λ i, answer req tok (getPictureById i (db w))) <$> drop idx ids.
Proof.
  revert w idx. induction m as [|m IH]; intros w idx Hrow Hn Hlen.
  - rewrite serve_cursor_run. cbn [fst snd deliveries mret state_ret].
    rewrite array_get_nat.
    destruct (lookup_lt_is_Some_2 ids idx) as [i Hi]; [lia|].
    rewrite (drop_S _ _ _ Hi), drop_ge by lia. by rewrite Hi.
  - rewrite serve_cursor_run. cbn [fst snd].
    rewrite bool_decide_eq_false_2 by lia.
    set (w' := with_db (updateTokenRandomState tok ids (Z.of_nat idx + 1)) w).
    assert (Hpics : pictures (db w') = pictures (db w)) by done.
    assert (Hrow' : is_Some (getToken tok (db w')))
      by by apply getToken_updateTokenRandomState.
    assert (Hn' : getPictureCount (db w') ≠ 0)
      by by rewrite (getPictureCount_ext _ _ Hpics).
    rewrite array_get_nat.
    destruct (lookup_lt_is_Some_2 ids idx) as [i Hi]; [lia|].
    rewrite (drop_S _ _ _ Hi), Hi, fmap_cons. f_equal.
    cbn [deliveries]. rewrite !state_bind_run. cbn [mret state_ret fst snd].
    rewrite photo_random_step by done. cbn [fst snd].
    assert (Hstate : getTokenRandomState tok (db w')
                     = Some (Some ids, Z.of_nat (S idx))).
    { unfold w'. cbn [db with_db].
      rewrite getTokenRandomState_update by done. do 2 f_equal. lia. }
    rewrite photo_random_run. cbn zeta. rewrite Hstate.
    cbn [mbind option_bind fst snd from_option default Datatypes.id].
    rewrite exhausted_in_range by lia.
    rewrite (IH w' (S idx)) by (done || lia).
    apply list_fmap_ext. intros _ j _.
    by rewrite (getPictureById_ext _ _ _ Hpics).
Qed.
End randomized.

(** ** Sequential mode: the cursor and the cycle *)

Lemma fmap_lookup_seq {A} (l : list A) :
  (λ j : nat, l !! j) <$> seq 0 (length l) = Some <$> l.
Proof.
  induction l as [|x l IH]; [done|].
  cbn [length]. change (seq 0 (S (length l))) with (0%nat :: seq 1 (length l)).
  rewrite <- fmap_S_seq, !fmap_cons, <- list_fmap_compose. by rewrite <- IH.
Qed.

(** C1 (as the code has it).  A sequential delivery against a collection of
    [n > 0] pictures with stored cursor [c >= 0] serves the picture at
    ordinal [c mod n] and persists [((c mod n) + 1) mod n]: the cursor is
    reduced modulo [n] again when it is written.  So in the scenario with
    picture A (id 1) and token T, the first delivery serves A and stores
    cursor 0; once picture B (id 2) is added, the next delivery serves A
    again and stores 1, and the one after it serves B and stores 0. *)
Theorem sequential_delivery_stores_reduced_cursor `{RandomSource} :
  (∀ (req : Request) (tok : jsstring) (row : TokenCols) (w : World),
     query_token req = Some tok → tok ≠ [] →
     mode_of req ≠ str "random" →
     getToken tok (db w) = Some row →
     0 ≤ current_index row →
     getPictureCount (db w) ≠ 0 →
     let n := getPictureCount (db w) in
     let c := current_index row in
     ∃ pic,
       getPictureByIndex (c mod n) (db w) = Some pic ∧
       (photo req w).1 = photo_json (base_url req) tok pic ∧
       stored_cursor tok (photo req w).2 = Some ((c mod n + 1) mod n)) ∧
  (let r1 := photo next_request (start gallery_A) in
   ∃ dbB,
     addPicture 0 (str "b.jpg") None None (db r1.2) = Some (2, dbB) ∧
     let r2 := photo next_request (start dbB) in
     let r3 := photo next_request r2.2 in
     (served_id r1.1, stored_cursor token_T r1.2) = (Some 1, Some 0) ∧
     (served_id r2.1, stored_cursor token_T r2.2) = (Some 1, Some 1) ∧
     (served_id r3.1, stored_cursor token_T r3.2) = (Some 2, Some 0)).
Proof.
  split.
  - intros req tok row w Hq Hne Hmode Hrow Hc Hn n c.
    assert (0 < n) by by apply getPictureCount_pos.
    destruct (getPictureByIndex_in_range (db w) (c mod n)) as [pic Hpic].
    { apply Z.mod_pos_bound. lia. }
    exists pic. split; [done|].
    rewrite (photo_next_step req tok Hq Hne Hmode w row) by done.
    cbn [fst snd]. fold n c.
    rewrite Hpic. split; [done|].
    unfold stored_cursor. cbn [db with_db].
    by rewrite (getToken_updateTokenIndex tok _ row).
  - eexists. split; [by vm_compute|]. by vm_compute.
Qed.

Lemma sequential_delivery_stores_reduced_cursor_witness :
  let n := getPictureCount gallery_three in
  let c := current_index fresh_token in
  ∃ pic,
    getPictureByIndex (c mod n) gallery_three = Some pic ∧
    (photo (H:=quarters_source) next_request (start gallery_three)).1 =
      photo_json (base_url next_request) token_T pic ∧
    stored_cursor token_T
      (photo (H:=quarters_source) next_request (start gallery_three)).2 =
      Some ((c mod n + 1) mod n).
Proof.
  apply (proj1 (sequential_delivery_stores_reduced_cursor (H:=quarters_source))
           next_request token_T fresh_token (start gallery_three)).
  - reflexivity.
  - discriminate.
  - vm_compute. discriminate.
  - vm_compute. reflexivity.
  - vm_compute. discriminate.
  - vm_compute. discriminate.
Defined.

(** C1 as stated fails on the scenario of the specification: after the
    first delivery the stored cursor is 0, not 1, and once picture B
    (id 2) is added the next delivery serves A (id 1) again, not B. *)
Lemma sequential_scenario_counterexample :
  let w1 := (photo (H:=quarters_source) next_request (start gallery_A)).2 in
  served_id (photo (H:=quarters_source) next_request (start gallery_A)).1
    = Some 1 ∧
  stored_cursor token_T w1 ≠ Some 1 ∧
  ∃ dbB, addPicture 0 (str "b.jpg") None None (db w1) = Some (2, dbB) ∧
         served_id (photo (H:=quarters_source) next_request (start dbB)).1
           ≠ Some 2.
Proof.
  split; [by vm_compute|]. split; [by vm_compute|].
  eexists. split; [by vm_compute|]. by vm_compute.
Qed.

(** C2.  With the collection untouched, [n] sequential deliveries from
    cursor 0 answer with the pictures in ascending id order, each once, and
    the delivery after them answers with the first picture again. *)
Theorem sequential_cycle_in_id_order `{RandomSource}
    (req : Request) (tok : jsstring) (row : TokenCols) (w : World) :
  query_token req = Some tok → tok ≠ [] →
  mode_of req ≠ str "random" →
  getToken tok (db w) = Some row →
  current_index row = 0 →
  getPictureCount (db w) ≠ 0 →
  let pics := pictures_by_id (db w) in
  (deliveries (S (length pics)) req w).1 =
    photo_json (base_url req) tok <$> (pics ++ take 1 pics) ∧
  Z.of_nat (length pics) = getPictureCount (db w) ∧
  (∀ k : nat, getPictureByIndex (Z.of_nat k) (db w) = pics !! k) ∧
  StronglySorted Z.lt (id <$> pics).
Proof.
  intros Hq Hne Hmode Hrow Hc Hn pics.
  assert (Hlen : Z.of_nat (length pics) = getPictureCount (db w))
    by by rewrite getPictureCount_length.
  split; [|split; [done|split]].
  - rewrite (deliveries_next req tok) with (row := row) by (done || lia).
    rewrite Hc, <- Hlen. clear Hrow Hc.
    rewrite seq_S, !fmap_app. f_equal.
    + trans (answer req tok <$> (Some <$> pics)).
      * rewrite <- fmap_lookup_seq, <- list_fmap_compose. apply list_fmap_ext.
        intros i j [-> Hj]%lookup_seq. cbn. unfold getPictureByIndex.
        rewrite Z.mod_small by lia.
        by replace (Z.to_nat (0 + Z.of_nat i)) with i by lia.
      * by rewrite <- list_fmap_compose.
    + cbn. rewrite Z_mod_same_full. unfold getPictureByIndex. cbn.
      fold pics. destruct pics as [|p pics']; [cbn in Hlen; lia|done].
  - intros k. unfold getPictureByIndex. by rewrite Nat2Z.id.
  - apply getAllPictureIds_ascending.
Qed.

Lemma sequential_cycle_in_id_order_witness :
  let pics := pictures_by_id gallery_three in
  (deliveries (H:=quarters_source) (S (length pics)) next_request
     (start gallery_three)).1 =
    photo_json (base_url next_request) token_T <$> (pics ++ take 1 pics) ∧
  Z.of_nat (length pics) = getPictureCount gallery_three ∧
  (∀ k : nat, getPictureByIndex (Z.of_nat k) gallery_three = pics !! k) ∧
  StronglySorted Z.lt (id <$> pics).
Proof.
  apply (sequential_cycle_in_id_order (H:=quarters_source)
           next_request token_T fresh_token (start gallery_three)).
  - reflexivity.
  - discriminate.
  - vm_compute. discriminate.
  - vm_compute. reflexivity.
  - reflexivity.
  - vm_compute. discriminate.
Defined.

(** ** Randomized mode: cycles and stale entries *)

Section randomized_cached.
Context `{RandomSource}.
Implicit Types (req : Request) (tok : jsstring) (w : World)
  (row : TokenCols) (ids : list Z) (d : Db).

Lemma regenerate_run w :
  regenerate w =
    (((shuffle (getAllPictureIds (db w)) w).1, 0),
     (shuffle (getAllPictureIds (db w)) w).2).
Proof.
  unfold regenerate. rewrite !state_bind_run. cbn [gets fst snd].
  reflexivity.
Qed.

Lemma regenerate_length w :
  Z.of_nat (length (regenerate w).1.1) = getPictureCount (db w).
Proof.
  destruct (regenerate_spec w) as (-> & _ & _).
  apply length_getAllPictureIds.
Qed.

Lemma answers_of_existing req tok d ids :
  Forall (λ i, is_Some (pictures d !! i)) ids →
  (λ i, answer req tok (getPictureById i d)) <$> ids =
    photo_json (base_url req) tok <$> omap (λ i, getPictureById i d) ids.
Proof.
  induction 1 as [|i ids [c Hc] _ IH]; [done|].
  cbn. unfold getPictureById at 1 3. rewrite Hc. cbn. by rewrite <- IH.
Qed.

Lemma omap_getPictureById_by_id d :
  omap (λ i, getPictureById i d) (getAllPictureIds d) = pictures_by_id d.
Proof.
  unfold getAllPictureIds.
  assert (∀ l : list Picture,
            Forall (λ p, getPictureById (id p) d = Some p) l →
            omap (λ i, getPictureById i d) (id <$> l) = l) as Hgen.
  { induction 1 as [|p l Hp _ IH]; [done|]. cbn. by rewrite Hp, IH. }
  apply Hgen, Forall_forall. intros p. apply getPictureById_by_id.
Qed.

Lemma array_get_not_exhausted ids idx i :
  array_get ids idx = Some i →
  0 ≤ idx ∧ exhausted (Some ids) idx = false.
Proof.
  unfold array_get. case_bool_decide; [|done].
  intros Hi%lookup_lt_Some. split; [done|].
  destruct ids as [|j ids]; cbn [length] in *; [lia|].
  cbn. apply bool_decide_eq_false. lia.
Qed.

(** A delivery from a cached cursor that points inside the permutation. *)
Lemma photo_random_cached req tok row ids i w :
  query_token req = Some tok → tok ≠ [] →
  mode_of req = str "random" →
  getPictureCount (db w) ≠ 0 →
  getToken tok (db w) = Some row →
  random_ids row = Some ids →
  array_get ids (random_index row) = Some i →
  photo req w =
    (answer req tok (getPictureById i (db w)),
     if bool_decide (Z.of_nat (length ids) ≤ random_index row + 1)
     then with_db (updateTokenRandomState tok
                     (shuffle (getAllPictureIds (db w)) w).1 0)
                  (shuffle (getAllPictureIds (db w)) w).2
     else with_db (updateTokenRandomState tok ids (random_index row + 1)) w).
Proof.
  intros Hq Hne Hmode Hn Hrow Hids Hi.
  destruct (array_get_not_exhausted _ _ _ Hi) as [Hidx Hex].
  rewrite (photo_random_step req tok) by eauto.
  rewrite photo_random_run. cbn zeta.
  unfold getTokenRandomState. unfold getToken in Hrow. rewrite Hrow.
  cbn [fmap option_fmap option_map mbind option_bind fst snd from_option
       default Datatypes.id].
  rewrite Hids, Hex. rewrite serve_cursor_run.
  cbn [fst snd default from_option Datatypes.id].
  rewrite Hi. cbn [mbind option_bind]. by rewrite regenerate_run.
Qed.
End randomized_cached.

(** C3.  From a state that regenerates the permutation, as many randomized
    deliveries as the collection has pictures, with the collection
    untouched, answer with every picture exactly once, in the order of a
    permutation of the collection. *)
Theorem randomized_cycle_visits_each_once `{RandomSource}
    (req : Request) (tok : jsstring) (row : TokenCols) (w : World) :
  query_token req = Some tok → tok ≠ [] →
  mode_of req = str "random" →
  getToken tok (db w) = Some row →
  exhausted (random_ids row) (random_index row) = true →
  getPictureCount (db w) ≠ 0 →
  ∃ pics,
    (deliveries (length (pictures_by_id (db w))) req w).1 =
      photo_json (base_url req) tok <$> pics ∧
    pics ≡ₚ pictures_by_id (db w) ∧
    id <$> pics ≡ₚ getAllPictureIds (db w) ∧
    NoDup (id <$> pics).
Proof.
  intros Hq Hne Hmode Hrow Hex Hn.
  set (p := (regenerate w).1.1). set (w1 := (regenerate w).2).
  destruct (regenerate_spec w) as (Hperm & Hzero & Hdb). fold p w1 in Hperm, Hdb.
  exists (omap (λ i, getPictureById i (db w)) p).
  assert (Hpics : omap (λ i, getPictureById i (db w)) p ≡ₚ pictures_by_id (db w)).
  { rewrite Hperm. by rewrite omap_getPictureById_by_id. }
  split; [|split; [done|split]].
  - assert (Hlen : length (pictures_by_id (db w)) = length p).
    { rewrite Hperm. unfold getAllPictureIds. by rewrite length_fmap. }
    rewrite getPictureCount_length in Hn.
    destruct (length (pictures_by_id (db w))) as [|m] eqn:Hm; [lia|].
    cbn [deliveries]. rewrite !state_bind_run. cbn [mret state_ret fst snd].
    rewrite (photo_random_step req tok) by
      (eauto || (rewrite getPictureCount_length; lia)).
    cbn [fst snd]. rewrite photo_random_run. cbn zeta.
    unfold getTokenRandomState. unfold getToken in Hrow. rewrite Hrow.
    cbn [fmap option_fmap option_map mbind option_bind fst snd from_option].
    rewrite Hex, Hzero. fold p w1.
    rewrite (serve_cursor_cycle req tok Hq Hne Hmode m w1 p 0).
    + rewrite drop_0, Hdb. apply answers_of_existing.
      apply Forall_forall. intros i Hi. rewrite Hperm in Hi.
      by apply elem_of_getAllPictureIds.
    + rewrite Hdb. unfold getToken. eauto.
    + rewrite Hdb, getPictureCount_length. lia.
    + cbn. lia.
  - by rewrite Hpics.
  - rewrite Hpics. apply getAllPictureIds_NoDup.
Qed.

Lemma gallery_stale_reached :
  (deletePicture 5
     (db (photo (H:=quarters_source) random_request (start gallery_three)).2)).2
  = gallery_stale.
Proof. by vm_compute. Qed.

Lemma randomized_cycle_visits_each_once_witness :
  ∃ pics,
    (deliveries (H:=quarters_source) (length (pictures_by_id gallery_three))
       random_request (start gallery_three)).1 =
      photo_json (base_url random_request) token_T <$> pics ∧
    pics ≡ₚ pictures_by_id gallery_three ∧
    id <$> pics ≡ₚ getAllPictureIds gallery_three ∧
    NoDup (id <$> pics).
Proof.
  apply (randomized_cycle_visits_each_once (H:=quarters_source)
           random_request token_T fresh_token (start gallery_three)).
  - reflexivity.
  - discriminate.
  - reflexivity.
  - vm_compute. reflexivity.
  - reflexivity.
  - vm_compute. discriminate.
Defined.

(** Two cycles in a row need not come in the same order: with the source
    [quarters], the first cycle over pictures 1, 2, 5 is 2, 5, 1 and the
    second is 1, 5, 2. *)
Lemma randomized_cycles_differ :
  served_id <$> (deliveries (H:=quarters_source) 6 random_request
                   (start gallery_three)).1
  = Some <$> [2; 5; 1; 1; 5; 2].
Proof. by vm_compute. Qed.

(** C4 (as the code has it).  In a gallery that still holds a picture, a
    randomized delivery whose cached entry at the cursor is the id of a
    picture that is gone answers NotFound: no picture is served in its
    place. *)
Theorem stale_random_entry_not_found `{RandomSource}
    (req : Request) (tok : jsstring) (row : TokenCols) (ids : list Z)
    (i : Z) (w : World) :
  query_token req = Some tok → tok ≠ [] →
  mode_of req = str "random" →
  getPictureCount (db w) ≠ 0 →
  getToken tok (db w) = Some row →
  random_ids row = Some ids →
  array_get ids (random_index row) = Some i →
  getPictureById i (db w) = None →
  (photo req w).1 = NotFound ∧ served_id (photo req w).1 = None.
Proof.
  intros Hq Hne Hmode Hn Hrow Hids Hi Hgone.
  rewrite (photo_random_cached req tok row ids i) by done.
  cbn [fst]. by rewrite Hgone.
Qed.

Lemma stale_random_entry_not_found_witness :
  (photo (H:=quarters_source) random_request (start gallery_stale)).1
    = NotFound ∧
  served_id (photo (H:=quarters_source) random_request (start gallery_stale)).1
    = None.
Proof.
  apply (stale_random_entry_not_found (H:=quarters_source) random_request
           token_T
           {| current_index := 0; random_ids := Some [2; 5; 1];
              random_index := 1; tok_created_at := 0 |}
           [2; 5; 1] 5 (start gallery_stale)).
  - reflexivity.
  - discriminate.
  - reflexivity.
  - vm_compute. discriminate.
  - vm_compute. reflexivity.
  - reflexivity.
  - reflexivity.
  - vm_compute. reflexivity.
Defined.

(** C4 as stated fails when the deleted picture was the last one: the
    delivery answers "No pictures in gallery" before the cached entry is
    looked at. *)
Lemma stale_entry_in_emptied_gallery_counterexample :
  let w1 := (photo (H:=quarters_source) random_request (start gallery_A)).2 in
  let d2 := (deletePicture 1 (db w1)).2 in
  getTokenRandomState token_T d2 = Some (Some [1], 0) ∧
  getPictureById 1 d2 = None ∧
  (photo (H:=quarters_source) random_request (start d2)).1 = EmptyCollection ∧
  (photo (H:=quarters_source) random_request (start d2)).1 ≠ NotFound.
Proof. by vm_compute. Qed.

(** C9.  When the id at the cursor resolves to no picture and the delivery
    answers NotFound, the token's randomized state has been written all the
    same: the advanced cursor, or a fresh permutation with cursor 0 when the
    advanced cursor reaches the end, by the same statements as on
    success.  The stored state is not what it was before the request. *)
Theorem not_found_still_advances_random_state `{RandomSource}
    (req : Request) (tok : jsstring) (row : TokenCols) (ids : list Z)
    (i : Z) (w : World) :
  query_token req = Some tok → tok ≠ [] →
  mode_of req = str "random" →
  getToken tok (db w) = Some row →
  random_ids row = Some ids →
  array_get ids (random_index row) = Some i →
  getPictureById i (db w) = None →
  (photo req w).1 = NotFound →
  getTokenRandomState tok (db (photo req w).2) =
    Some (if bool_decide (Z.of_nat (length ids) ≤ random_index row + 1)
          then (Some (shuffle (getAllPictureIds (db w)) w).1, 0)
          else (Some ids, random_index row + 1)) ∧
  getTokenRandomState tok (db (photo req w).2) ≠
    getTokenRandomState tok (db w).
Proof.
  intros Hq Hne Hmode Hrow Hids Hi Hgone Hresp.
  assert (Hn : getPictureCount (db w) ≠ 0).
  { intros Hn. revert Hresp. unfold photo. rewrite Hq.
    destruct tok as [|c t]; [done|].
    rewrite state_bind_run. cbn [gets fst snd].
    by rewrite bool_decide_eq_true_2 by done. }
  rewrite (photo_random_cached req tok row ids i) by done. cbn [snd].
  assert (Hstate : getTokenRandomState tok (db w)
                   = Some (Some ids, random_index row)).
  { unfold getTokenRandomState. unfold getToken in Hrow.
    by rewrite Hrow, <- Hids. }
  rewrite Hstate. case_bool_decide as Hend; cbn [db with_db].
  - rewrite getTokenRandomState_update
      by (rewrite shuffle_db; unfold getToken; eauto).
    split; [done|]. intros [= Heq _].
    pose proof (shuffle_Permutation (getAllPictureIds (db w)) w) as Hperm.
    rewrite Heq in Hperm.
    assert (i ∈ ids) as Hin.
    { unfold array_get in Hi. case_bool_decide; [|done].
      by eapply list_elem_of_lookup_2. }
    rewrite Hperm in Hin. apply elem_of_getAllPictureIds in Hin as [c Hc].
    unfold getPictureById in Hgone. by rewrite Hc in Hgone.
  - rewrite getTokenRandomState_update by (unfold getToken; eauto).
    split; [done|]. intros [= Heq]. lia.
Qed.

Lemma not_found_still_advances_random_state_witness :
  getTokenRandomState token_T
    (db (photo (H:=quarters_source) random_request (start gallery_stale)).2)
  = Some (if bool_decide (Z.of_nat (length [2; 5; 1]) ≤ 1 + 1)
          then (Some (shuffle (H:=quarters_source)
                        (getAllPictureIds gallery_stale)
                        (start gallery_stale)).1, 0)
          else (Some [2; 5; 1], 1 + 1)) ∧
  getTokenRandomState token_T
    (db (photo (H:=quarters_source) random_request (start gallery_stale)).2)
  ≠ getTokenRandomState token_T gallery_stale.
Proof.
  apply (not_found_still_advances_random_state (H:=quarters_source)
           random_request token_T
           {| current_index := 0; random_ids := Some [2; 5; 1];
              random_index := 1; tok_created_at := 0 |}
           [2; 5; 1] 5 (start gallery_stale)).
  - reflexivity.
  - discriminate.
  - reflexivity.
  - vm_compute. reflexivity.
  - reflexivity.
  - reflexivity.
  - vm_compute. reflexivity.
  - vm_compute. reflexivity.
Defined.

(** ** What a delivery persists *)

Section persisted.
Context `{RandomSource}.
Implicit Types (req : Request) (tok : jsstring) (w : World)
  (row : TokenCols) (ids : list Z).

Lemma serve_cursor_persists tok ids idx w :
  is_Some (getToken tok (db w)) →
  getPictureCount (db w) ≠ 0 →
  0 ≤ idx →
  ∃ ids' idx',
    getTokenRandomState tok (db (serve_cursor tok ids idx w).2)
      = Some (Some ids', idx') ∧
    0 ≤ idx' < Z.of_nat (length ids') ∧
    (Z.of_nat (length ids) ≤ idx + 1 →
     idx' = 0 ∧ ids' ≡ₚ getAllPictureIds (db w)).
Proof.
  intros Hrow Hn Hidx. rewrite serve_cursor_run. cbn [snd].
  destruct (regenerate_spec w) as (Hperm & Hzero & Hdb).
  case_bool_decide as Hend; cbn [db with_db].
  - exists (regenerate w).1.1, (regenerate w).1.2.
    rewrite getTokenRandomState_update by by rewrite Hdb.
    split; [done|]. rewrite Hzero, regenerate_length.
    apply getPictureCount_pos in Hn. split; [lia|done].
  - exists ids, (idx + 1).
    rewrite getTokenRandomState_update by done.
    split; [done|]. split; [lia|done].
Qed.

Lemma getTokenRandomState_Some tok (d : Db) ids idx :
  getTokenRandomState tok d = Some (Some ids, idx) →
  ∃ row, getToken tok d = Some row ∧ random_ids row = Some ids ∧
         random_index row = idx.
Proof.
  unfold getTokenRandomState, getToken.
  destruct (tokens d !! tok) as [row|]; [|done].
  intros [= ? ?]. eauto.
Qed.
End persisted.

(** ** The cursors stay non-negative *)

Section cursors.
Context `{RandomSource}.
Implicit Types (req : Request) (tok : jsstring) (w : World) (d : Db).

Lemma empty_db_cursors_nonneg : cursors_nonneg empty_db.
Proof. intros t row. unfold getToken. cbn. by rewrite lookup_empty. Qed.

Lemma createToken_cursors_nonneg tok now d d' :
  createToken tok now d = Some (tok, d') →
  cursors_nonneg d → cursors_nonneg d'.
Proof.
  unfold createToken. destruct (tokens d !! tok) eqn:Hfree; [done|].
  intros [= <-] Hd t row. unfold getToken. cbn. rewrite lookup_insert.
  case_decide; [|apply Hd]. by intros [= <-].
Qed.

Lemma updateTokenIndex_cursors_nonneg tok i d :
  cursors_nonneg d → 0 ≤ i → cursors_nonneg (updateTokenIndex tok i d).
Proof.
  intros Hd Hi t row. unfold getToken, updateTokenIndex. cbn.
  rewrite lookup_alter. case_decide as Ht; [subst t|apply Hd].
  destruct (tokens d !! tok) as [r|] eqn:Hr; [|done].
  intros [= <-]. cbn. split; [done|]. by apply (Hd tok r).
Qed.

Lemma updateTokenRandomState_cursors_nonneg tok ids i d :
  cursors_nonneg d → 0 ≤ i →
  cursors_nonneg (updateTokenRandomState tok ids i d).
Proof.
  intros Hd Hi t row. unfold getToken, updateTokenRandomState. cbn.
  rewrite lookup_alter. case_decide as Ht; [subst t|apply Hd].
  destruct (tokens d !! tok) as [r|] eqn:Hr; [|done].
  intros [= <-]. cbn. split; [|done]. by apply (Hd tok r).
Qed.

Lemma serve_cursor_cursors_nonneg tok ids idx w :
  cursors_nonneg (db w) → 0 ≤ idx →
  cursors_nonneg (db (serve_cursor tok ids idx w).2).
Proof.
  intros Hd Hidx. rewrite serve_cursor_run. cbn [snd].
  destruct (regenerate_spec w) as (_ & Hzero & Hdb).
  case_bool_decide; cbn [db with_db].
  - rewrite Hzero, Hdb. by apply updateTokenRandomState_cursors_nonneg.
  - apply updateTokenRandomState_cursors_nonneg; [done | lia].
Qed.

(** Every delivery, whatever it answers, keeps the cursors of all tokens
    non-negative. *)
Lemma photo_cursors_nonneg req w :
  cursors_nonneg (db w) → cursors_nonneg (db (photo req w).2).
Proof.
  intros Hd. unfold photo. destruct (query_token req) as [[|c t]|]; try done.
  rewrite state_bind_run. cbn [gets fst snd]. case_bool_decide as Hn; [done|].
  rewrite state_bind_run. cbn [gets fst snd].
  destruct (getToken (c :: t) (db w)) as [row|] eqn:Hrow; [|done].
  rewrite state_bind_run.
  assert (cursors_nonneg
            (db ((if bool_decide (mode_of req = str "random")
                  then photo_random (c :: t)
                  else photo_next (c :: t) row (getPictureCount (db w))) w).2))
    as Hbranch.
  { destruct (Hd _ _ Hrow) as [Hc Hr]. case_bool_decide.
    - rewrite photo_random_run. cbn zeta.
      unfold getTokenRandomState. unfold getToken in Hrow. rewrite Hrow.
      cbn [fmap option_fmap option_map mbind option_bind fst snd from_option].
      destruct (regenerate_spec w) as (_ & Hzero & Hdb).
      destruct (exhausted _ _).
      + apply serve_cursor_cursors_nonneg; [by rewrite Hdb | lia].
      + by apply serve_cursor_cursors_nonneg.
    - rewrite photo_next_run. cbn [snd db with_db].
      apply updateTokenIndex_cursors_nonneg; [done|].
      apply Z.rem_nonneg; [done|].
      pose proof (Z.rem_nonneg (current_index row) _ Hn Hc). lia. }
  by destruct ((if bool_decide (mode_of req = str "random")
                then photo_random (c :: t)
                else photo_next (c :: t) row (getPictureCount (db w))) w)
    as [[pic|] w'].
Qed.
End cursors.

(** C10.  After a delivery against [n > 0] pictures (from cursors that are
    not negative, as every cursor the handler writes is), the stored state
    is in range.  Sequential: the cursor is in [0, n).  Randomized: the
    stored permutation is not empty and the cursor is inside it, and when
    the advanced cursor reached the end of the permutation in use, what is
    stored is a fresh permutation of the live ids with cursor 0. *)
Theorem delivery_persists_state_in_range `{RandomSource}
    (req : Request) (tok : jsstring) (row : TokenCols) (w : World) :
  query_token req = Some tok → tok ≠ [] →
  getToken tok (db w) = Some row →
  0 ≤ current_index row →
  0 ≤ random_index row →
  getPictureCount (db w) ≠ 0 →
  ∃ row',
    getToken tok (db (photo req w).2) = Some row' ∧
    if bool_decide (mode_of req = str "random") then
      ∃ ids',
        random_ids row' = Some ids' ∧ ids' ≠ [] ∧
        0 ≤ random_index row' < Z.of_nat (length ids') ∧
        exhausted (random_ids row') (random_index row') = false ∧
        (Z.of_nat (length (cursor_in_use tok w).1)
           ≤ (cursor_in_use tok w).2 + 1 →
         random_index row' = 0 ∧ ids' ≡ₚ getAllPictureIds (db w))
    else 0 ≤ current_index row' < getPictureCount (db w).
Proof.
  intros Hq Hne Hrow Hc Hr Hn.
  assert (Hpos := getPictureCount_pos _ Hn).
  case_bool_decide as Hmode.
  - rewrite (photo_random_step req tok) by eauto. cbn [snd].
    rewrite photo_random_run. unfold cursor_in_use. cbn zeta.
    assert (Hstate : getTokenRandomState tok (db w)
                     = Some (random_ids row, random_index row)).
    { unfold getTokenRandomState. unfold getToken in Hrow. by rewrite Hrow. }
    rewrite Hstate. cbn [mbind option_bind fst snd from_option].
    destruct (regenerate_spec w) as (Hperm & Hzero & Hdb).
    assert (∀ ids idx w0,
              db w0 = db w → 0 ≤ idx →
              ∃ row',
                getToken tok (db (serve_cursor tok ids idx w0).2) = Some row' ∧
                ∃ ids',
                  random_ids row' = Some ids' ∧ ids' ≠ [] ∧
                  0 ≤ random_index row' < Z.of_nat (length ids') ∧
                  exhausted (random_ids row') (random_index row') = false ∧
                  (Z.of_nat (length ids) ≤ idx + 1 →
                   random_index row' = 0 ∧ ids' ≡ₚ getAllPictureIds (db w)))
      as Hserve.
    { intros ids idx w0 Hw0 Hidx.
      destruct (serve_cursor_persists tok ids idx w0)
        as (ids' & idx' & Hst & Hrange & Hfresh);
        [rewrite Hw0; eauto | by rewrite Hw0 | done |].
      apply getTokenRandomState_Some in Hst as (row' & Hrow' & Hids' & <-).
      rewrite Hw0 in Hfresh.
      exists row'. split; [done|]. exists ids'. rewrite Hids'.
      split; [done|]. split; [intros ->; cbn in Hrange; lia|].
      split; [done|]. split; [|done].
      destruct ids' as [|j ids'']; [cbn in Hrange; lia|].
      cbn. apply bool_decide_eq_false. cbn in Hrange. lia. }
    destruct (exhausted (random_ids row) (random_index row)) eqn:Hex.
    + apply Hserve; [done | lia].
    + destruct (random_ids row) as [ids|] eqn:Hids; [|done].
      cbn [default from_option Datatypes.id]. by apply Hserve.
  - rewrite (photo_next_step req tok Hq Hne Hmode w row) by done.
    cbn [snd db with_db].
    eexists. split; [by apply getToken_updateTokenIndex|].
    cbn [current_index]. apply Z.mod_pos_bound. lia.
Qed.

Lemma delivery_persists_state_in_range_witness :
  ∃ row',
    getToken token_T
      (db (photo (H:=quarters_source) random_request (start gallery_three)).2)
      = Some row' ∧
    if bool_decide (mode_of random_request = str "random") then
      ∃ ids',
        random_ids row' = Some ids' ∧ ids' ≠ [] ∧
        0 ≤ random_index row' < Z.of_nat (length ids') ∧
        exhausted (random_ids row') (random_index row') = false ∧
        (Z.of_nat (length (cursor_in_use (H:=quarters_source) token_T
                             (start gallery_three)).1)
           ≤ (cursor_in_use (H:=quarters_source) token_T
                (start gallery_three)).2 + 1 →
         random_index row' = 0 ∧ ids' ≡ₚ getAllPictureIds gallery_three)
    else 0 ≤ current_index row' < getPictureCount gallery_three.
Proof.
  apply (delivery_persists_state_in_range (H:=quarters_source)
           random_request token_T fresh_token (start gallery_three)).
  - reflexivity.
  - discriminate.
  - vm_compute. reflexivity.
  - reflexivity.
  - reflexivity.
  - vm_compute. discriminate.
Defined.

(** ** Refusals *)

(** C5 (as the code has it).  In a gallery that holds at least one picture,
    a delivery with a token the registry does not know is answered
    Forbidden in either mode, and the store is left as it was; a token that
    was deleted is answered exactly as one that never existed. *)
Theorem unknown_token_forbidden `{RandomSource}
    (req : Request) (tok : jsstring) (w : World) :
  query_token req = Some tok → tok ≠ [] →
  getPictureCount (db w) ≠ 0 →
  (getToken tok (db w) = None → photo req w = (Forbidden, w)) ∧
  photo req (with_db (λ d, (deleteToken tok d).2) w)
    = (Forbidden, with_db (λ d, (deleteToken tok d).2) w).
Proof.
  intros Hq Hne Hn.
  assert (∀ w0, getPictureCount (db w0) ≠ 0 → getToken tok (db w0) = None →
                photo req w0 = (Forbidden, w0)) as Hgen.
  { intros w0 Hn0 Hnone. unfold photo. rewrite Hq.
    destruct tok as [|c t]; [done|].
    rewrite state_bind_run. cbn [gets fst snd].
    rewrite bool_decide_eq_false_2 by done.
    rewrite state_bind_run. cbn [gets fst snd]. by rewrite Hnone. }
  split; [by apply Hgen|]. apply Hgen; [done|].
  unfold getToken. cbn. apply lookup_delete_eq.
Qed.

Lemma unknown_token_forbidden_witness :
  photo (H:=quarters_source)
    {| query_token := Some (str "0000"); query_mode := None; base_url := [] |}
    (start gallery_three)
  = (Forbidden, start gallery_three) ∧
  photo (H:=quarters_source) random_request
    (with_db (λ d, (deleteToken token_T d).2) (start gallery_three))
  = (Forbidden, with_db (λ d, (deleteToken token_T d).2) (start gallery_three)).
Proof.
  split.
  - refine (proj1 (unknown_token_forbidden (H:=quarters_source)
                     {| query_token := Some (str "0000"); query_mode := None;
                        base_url := [] |} (str "0000") (start gallery_three)
                     _ _ _) _).
    + reflexivity.
    + discriminate.
    + vm_compute. discriminate.
    + vm_compute. reflexivity.
  - refine (proj2 (unknown_token_forbidden (H:=quarters_source) random_request
                     token_T (start gallery_three) _ _ _)).
    + reflexivity.
    + discriminate.
    + vm_compute. discriminate.
Defined.

(** C5 as stated fails on a gallery without pictures: the unknown token is
    answered "No pictures in gallery", not Forbidden. *)
Lemma unknown_token_empty_gallery_counterexample :
  getToken token_T empty_db = None ∧
  (photo (H:=quarters_source) next_request (start empty_db)).1
    = EmptyCollection ∧
  (photo (H:=quarters_source) next_request (start empty_db)).1 ≠ Forbidden ∧
  (photo (H:=quarters_source) random_request (start empty_db)).1 ≠ Forbidden.
Proof. by vm_compute. Qed.

(** C6.  Against a gallery without pictures every delivery, in either mode
    and whatever the token, is answered EmptyCollection and changes
    nothing; that answer is not the NotFound answer (both carry status 404
    and differ in the error they name). *)
Theorem empty_gallery_empty_collection `{RandomSource}
    (req : Request) (tok : jsstring) (w : World) :
  query_token req = Some tok → tok ≠ [] →
  getPictureCount (db w) = 0 →
  photo req w = (EmptyCollection, w) ∧ EmptyCollection ≠ NotFound.
Proof.
  intros Hq Hne Hn. split; [|by vm_compute].
  unfold photo. rewrite Hq. destruct tok as [|c t]; [done|].
  rewrite state_bind_run. cbn [gets fst snd].
  by rewrite bool_decide_eq_true_2 by done.
Qed.

Lemma empty_gallery_empty_collection_witness :
  photo (H:=quarters_source) random_request (start empty_db)
    = (EmptyCollection, start empty_db) ∧
  EmptyCollection ≠ NotFound.
Proof.
  apply (empty_gallery_empty_collection (H:=quarters_source)
           random_request token_T (start empty_db)).
  - reflexivity.
  - discriminate.
  - reflexivity.
Defined.

(** ** Tags of a picture *)

Section tags.
Context `{StringHost}.
Implicit Types (d : Db) (name : JsValue) (names : list JsValue)
  (n : jsstring) (i t : Z).

Lemma getOrCreateTagId_run name d :
  getOrCreateTagId name d =
    let n := normalizeTag name in
    if bool_decide (n = []) then (None, d)
    else match tags d !! n with
         | Some i => (Some i, d)
         | None =>
             (Some (tags_seq d + 1),
              with_tags (<[n := tags_seq d + 1]> (tags d))
                        (tags_seq d + 1) d)
         end.
Proof.
  unfold getOrCreateTagId. cbn zeta. case_bool_decide; [done|].
  rewrite state_bind_run. cbn [gets fst snd].
  destruct (tags d !! normalizeTag name) as [i|] eqn:Hi; [done|].
  rewrite state_bind_run. cbn [modify fst snd]. unfold gets.
  cbn [with_tags tags]. by rewrite lookup_insert_eq.
Qed.

Lemma getOrCreateTagId_spec name d :
  tags_wf d →
  let r := getOrCreateTagId name d in
  tags_wf r.2 ∧ tags d ⊆ tags r.2 ∧
  pictures r.2 = pictures d ∧ picture_tags r.2 = picture_tags d ∧
  tokens r.2 = tokens d ∧
  r.1 = tag_id_of r.2 name ∧
  (normalizeTag name ≠ [] → is_Some (tags r.2 !! normalizeTag name)).
Proof.
  intros Hwf. pose proof Hwf as (Hinj & Hauto & Hseq).
  cbn zeta. rewrite getOrCreateTagId_run.
  cbn zeta. unfold tag_id_of. case_bool_decide as Hn.
  { done. }
  destruct (tags d !! normalizeTag name) as [i|] eqn:Hi.
  { cbn. rewrite Hi. eauto 10. }
  cbn [fst snd with_tags tags tags_seq pictures picture_tags tokens].
  rewrite lookup_insert_eq.
  assert (Hnew : ∀ n i, <[normalizeTag name := tags_seq d + 1]> (tags d) !! n
                        = Some i →
                        n = normalizeTag name ∧ i = tags_seq d + 1 ∨
                        tags d !! n = Some i ∧ i ≤ tags_seq d).
  { intros n i. rewrite lookup_insert. case_decide as Hd.
    - intros [= <-]. left. by subst.
    - intros Hi'. right. split; [done|]. apply Hauto in Hi'. lia. }
  split; [|split; [by apply insert_subseteq | eauto 10]].
  unfold tags_wf. cbn [with_tags tags tags_seq].
  split; [|split; [|lia]].
  - intros n1 n2 j [[-> ->]|[H1 Hle1]]%Hnew [[-> Hj]|[H2 Hle2]]%Hnew;
      try done; try lia. by eapply Hinj.
  - intros n j [[-> ->]|[H1 Hle1]]%Hnew; [lia|]. apply Hauto in H1. lia.
Qed.
End tags.

Section setPictureTags.
Context `{StringHost}.
Implicit Types (d : Db) (name : JsValue) (names : list JsValue)
  (n : jsstring) (i t pid : Z) (l : list Z).

Lemma tag_id_of_weaken d d' name i :
  tags d ⊆ tags d' → tag_id_of d name = Some i → tag_id_of d' name = Some i.
Proof.
  unfold tag_id_of. intros Hsub. case_bool_decide; [done|].
  intros Hi. by eapply lookup_weaken.
Qed.

Lemma mapM_getOrCreateTagId_spec names d :
  tags_wf d →
  let r := mapM getOrCreateTagId names d in
  tags_wf r.2 ∧ tags d ⊆ tags r.2 ∧
  pictures r.2 = pictures d ∧ picture_tags r.2 = picture_tags d ∧
  tokens r.2 = tokens d ∧
  r.1 = tag_id_of r.2 <$> names ∧
  Forall (λ name, normalizeTag name ≠ [] →
                  is_Some (tags r.2 !! normalizeTag name)) names.
Proof.
  revert d. induction names as [|name names IH]; intros d Hwf; cbn zeta.
  { cbn. eauto 10. }
  cbn [mapM]. rewrite !state_bind_run. cbn [mret state_ret fst snd].
  destruct (getOrCreateTagId_spec name d Hwf)
    as (Hwf1 & Hsub1 & Hp1 & Hpt1 & Htok1 & Hid1 & Hsome1).
  set (r1 := getOrCreateTagId name d) in *.
  destruct (IH r1.2 Hwf1) as (Hwf2 & Hsub2 & Hp2 & Hpt2 & Htok2 & Hid2 & Hsome2).
  set (r2 := mapM getOrCreateTagId names r1.2) in *.
  split; [done|]. split; [by etrans|].
  split; [congruence|]. split; [congruence|]. split; [congruence|].
  split.
  - rewrite fmap_cons, <- Hid2. f_equal. rewrite Hid1.
    unfold tag_id_of. case_bool_decide as Hn; [done|].
    destruct (Hsome1 Hn) as [i Hi]. rewrite Hi. symmetry.
    by eapply lookup_weaken.
  - constructor; [|done]. intros Hn. destruct (Hsome1 Hn) as [i Hi].
    exists i. by eapply lookup_weaken.
Qed.

Lemma filter_Boolean_tag_ids d names :
  tags_wf d →
  filter_Boolean (tag_id_of d <$> names) = omap (tag_id_of d) names.
Proof.
  intros (_ & Hauto & _). unfold filter_Boolean.
  induction names as [|name names IH]; [done|].
  rewrite fmap_cons. cbn [omap list_omap]. fold (omap (tag_id_of d) names).
  rewrite <- IH. destruct (tag_id_of d name) as [i|] eqn:Hi; [|done].
  rewrite bool_decide_eq_false_2; [done|].
  unfold tag_id_of in Hi. case_bool_decide; [done|].
  apply Hauto in Hi. lia.
Qed.

End setPictureTags.

Section insertions.
Implicit Types (d : Db) (i t pid : Z) (l : list Z).

Lemma set_values_spec seen l :
  NoDup (set_values seen l) ∧
  ∀ x, x ∈ set_values seen l ↔ x ∈ l ∧ x ∉ seen.
Proof.
  revert seen. induction l as [|y l IH]; intros seen; cbn [set_values].
  { split; [constructor|]. set_solver. }
  case_bool_decide as Hy.
  - destruct (IH seen) as [Hnd Hel]. split; [done|].
    intros x. rewrite Hel. set_solver.
  - destruct (IH (y :: seen)) as [Hnd Hel]. split.
    + constructor; [|done]. rewrite Hel. set_solver.
    + intros x. rewrite elem_of_cons, Hel.
      destruct (decide (x = y)) as [->|]; set_solver.
Qed.

(** The INSERT statements of [setPictureTags] raise no constraint error:
    each pair is new, and its picture and tag exist. *)
Lemma insert_picture_tags_run pid l d :
  NoDup l →
  is_Some (pictures d !! pid) →
  (∀ t, t ∈ l →
        ((pid, t) ∉ picture_tags d) ∧ (∃ n, tags d !! n = Some t)) →
  foldl (λ acc t, acc ≫= insert_picture_tag pid t) (Some d) l =
    Some (with_picture_tags
            (list_to_set ((λ t, (pid, t)) <$> l) ∪ picture_tags d) d).
Proof.
  revert d. induction l as [|t l IH]; intros d Hnd Hpic Hl.
  { cbn. f_equal. destruct d. cbn. f_equal. by rewrite (left_id_L ∅ (∪)). }
  apply NoDup_cons in Hnd as [Ht Hnd].
  cbn [foldl mbind option_bind]. unfold insert_picture_tag at 2.
  destruct (Hl t) as [Hnew [n Hn]]; [set_solver|].
  rewrite bool_decide_eq_false_2 by done.
  rewrite bool_decide_eq_false_2 by (by destruct Hpic as [? ->]).
  rewrite bool_decide_eq_true_2 by (by exists n, t).
  rewrite IH; [|done|done|].
  - f_equal. unfold with_picture_tags. cbn. f_equal. set_solver.
  - intros t' Ht'. cbn [picture_tags with_picture_tags tags].
    destruct (Hl t') as [Hnew' Hex']; [set_solver|].
    split; [|done]. set_solver.
Qed.
End insertions.

Section setPictureTags_result.
Context `{StringHost}.
Implicit Types (d : Db) (name : JsValue) (names : list JsValue)
  (n : jsstring) (i t pid : Z).

Lemma elem_of_tag_set names n :
  n ∈ tag_set names ↔
  n ≠ [] ∧ ∃ name, name ∈ names ∧ n = normalizeTag name.
Proof.
  unfold tag_set.
  rewrite elem_of_remove_dups, list_elem_of_filter, list_elem_of_fmap.
  naive_solver.
Qed.

Lemma elem_of_tag_ids d names i :
  tags_wf d →
  Forall (λ name, normalizeTag name ≠ [] →
                  is_Some (tags d !! normalizeTag name)) names →
  i ∈ set_values [] (omap (tag_id_of d) names) ↔
  ∃ n, n ∈ tag_set names ∧ tags d !! n = Some i.
Proof.
  intros Hwf Hall. destruct (set_values_spec [] (omap (tag_id_of d) names))
    as [_ ->].
  rewrite list_elem_of_omap. split.
  - intros [(name & Hname & Hi) _]. unfold tag_id_of in Hi.
    case_bool_decide as Hn; [done|]. exists (normalizeTag name).
    split; [|done]. apply elem_of_tag_set. eauto.
  - intros (n & (Hn & name & Hname & ->)%elem_of_tag_set & Hi).
    split; [|apply not_elem_of_nil]. exists name. split; [done|].
    unfold tag_id_of. by rewrite bool_decide_eq_false_2.
Qed.

(** What [setPictureTags] leaves for a picture that exists. *)
Lemma setPictureTags_run pid names d :
  tags_wf d →
  is_Some (pictures d !! pid) →
  ∃ d2 tagIds,
    setPictureTags pid names d =
      Some (true,
            with_picture_tags
              (list_to_set ((λ t, (pid, t)) <$> tagIds)
               ∪ filter (λ pt, pt.1 ≠ pid) (picture_tags d)) d2) ∧
    tags_wf d2 ∧ pictures d2 = pictures d ∧ NoDup tagIds ∧
    (∀ i, i ∈ tagIds ↔ ∃ n, n ∈ tag_set names ∧ tags d2 !! n = Some i) ∧
    (∀ n, n ∈ tag_set names → is_Some (tags d2 !! n)).
Proof.
  intros Hwf [c Hc]. unfold setPictureTags, getPictureById. rewrite Hc.
  cbn [fmap option_fmap option_map].
  set (d1 := with_picture_tags
               (filter (λ pt, pt.1 ≠ pid) (picture_tags d)) d).
  assert (Hwf1 : tags_wf d1) by done.
  destruct (mapM_getOrCreateTagId_spec names d1 Hwf1)
    as (Hwf2 & Hsub & Hp2 & Hpt2 & _ & Hids & Hall).
  destruct (mapM getOrCreateTagId names d1) as [ids d2]. cbn [fst snd] in *.
  rewrite Hids, (filter_Boolean_tag_ids d2 names Hwf2).
  set (tagIds := set_values [] (omap (tag_id_of d2) names)).
  destruct (set_values_spec [] (omap (tag_id_of d2) names)) as [Hnd _].
  assert (Hel := λ i, elem_of_tag_ids d2 names i Hwf2 Hall).
  fold tagIds in Hnd, Hel.
  exists d2, tagIds. rewrite insert_picture_tags_run.
  - cbn [mbind option_bind]. rewrite Hpt2.
    split; [done|]. split; [done|]. split; [done|]. split; [done|].
    split; [done|].
    intros n (Hn & name & Hname & ->)%elem_of_tag_set.
    rewrite Forall_forall in Hall. by apply Hall.
  - done.
  - rewrite Hp2. cbn. eauto.
  - intros t (n & _ & Hn)%Hel. split; [|eauto].
    rewrite Hpt2. cbn. rewrite elem_of_filter. cbn. tauto.
Qed.

Lemma setPictureTags_names pid d2 (tagIds : list Z) (rest : gset (Z * Z))
    names :
  tags_wf d2 → NoDup tagIds →
  (∀ i, i ∈ tagIds ↔ ∃ n, n ∈ tag_set names ∧ tags d2 !! n = Some i) →
  (∀ n, n ∈ tag_set names → is_Some (tags d2 !! n)) →
  (∀ t, (pid, t) ∉ rest) →
  let d3 := with_picture_tags
              (list_to_set ((λ t, (pid, t)) <$> tagIds) ∪ rest) d2 in
  getPictureTags pid d3 ≡ₚ tag_set names ∧
  size (associations pid d3) = length (tag_set names).
Proof.
  intros (Hinj & Hauto & _) Hnd Hel Hsome Hrest d3.
  assert (Hpt : ∀ t, (pid, t) ∈ picture_tags d3 ↔ t ∈ tagIds).
  { intros t. cbn. rewrite elem_of_union, elem_of_list_to_set.
    rewrite list_elem_of_fmap. split.
    - intros [(t' & [= ->] & Ht')|Hr]; [done|]. by apply Hrest in Hr.
    - intros Ht. left. eauto. }
  split.
  - unfold getPictureTags. rewrite merge_sort_Permutation.
    apply NoDup_Permutation.
    + eapply sublist_NoDup; [apply (NoDup_fst_map_to_list (tags d3))|].
      apply fmap_sublist, sublist_filter.
    + apply NoDup_remove_dups.
    + intros n. rewrite list_elem_of_fmap. split.
      * intros ([n' i] & -> & [Hin Hn]%list_elem_of_filter).
        cbn in Hin. apply elem_of_map_to_list in Hn. cbn in Hn.
        apply Hpt, Hel in Hin as (n2 & Hn2 & Hi).
        cbn. by rewrite (Hinj n' n2 i).
      * intros Hn. destruct (Hsome n Hn) as [i Hi].
        exists (n, i). split; [done|]. apply list_elem_of_filter.
        split; [|by apply elem_of_map_to_list].
        cbn. apply Hpt, Hel. eauto.
  - assert (associations pid d3
            = list_to_set ((λ t, (pid, t)) <$> tagIds)) as ->.
    { apply set_eq. intros [p t]. unfold associations.
      rewrite elem_of_filter, elem_of_list_to_set, list_elem_of_fmap. cbn.
      split.
      - intros [-> Hin]. apply Hpt in Hin. eauto.
      - intros (t' & [= -> ->] & Ht'). split; [done|].
        by apply (Hpt t'). }
    rewrite size_list_to_set, length_fmap.
    + rewrite <- (length_fmap (λ n, default 0 (tags d2 !! n))
                    (tag_set names)).
      apply Permutation_length, NoDup_Permutation; [done| |].
      * apply NoDup_fmap_2_strong; [|apply NoDup_remove_dups].
        intros n1 n2 [i1 Hi1]%Hsome [i2 Hi2]%Hsome.
        rewrite Hi1, Hi2. cbn. intros ->. by eapply Hinj.
      * intros i. rewrite Hel, list_elem_of_fmap. split.
        -- intros (n & Hn & Hi). exists n. by rewrite Hi.
        -- intros (n & -> & Hn). exists n. split; [done|].
           by destruct (Hsome n Hn) as [i ->].
    + apply NoDup_fmap_2; [|done]. by intros ?? [= ->].
Qed.
End setPictureTags_result.

Lemma normalizeTag_ascii `{StringHost} (s : jsstring) :
  Forall (λ c, (c < 128)%N) s →
  normalizeTag (JsString s) = normalizeTag (H:=ascii_host) (JsString s).
Proof. intros Hs. cbn. by rewrite toLowerCase_ascii. Qed.

Lemma tag_set_paris `{HS : StringHost} :
  tag_set [JsString (str "Paris"); JsString (str "paris");
           JsString (str "  PARIS ")] = [str "paris"].
Proof.
  unfold tag_set. rewrite !fmap_cons, fmap_nil.
  rewrite !(normalizeTag_ascii (H:=HS)); [by vm_compute| | |];
    apply Forall_forall; intros c Hc; vm_compute in Hc;
    repeat (apply elem_of_cons in Hc as [->|Hc]; [done|]);
    by apply elem_of_nil in Hc.
Qed.

Lemma tags_wf_empty (d : Db) : tags d = ∅ → 0 ≤ tags_seq d → tags_wf d.
Proof.
  intros Hd Hseq. unfold tags_wf. rewrite Hd.
  split; [|split; [|done]].
  - intros n1 n2 i Hn. by rewrite lookup_empty in Hn.
  - intros n i Hn. by rewrite lookup_empty in Hn.
Qed.

(** C8.  For a picture that exists, [setPictureTags] succeeds and leaves
    the picture with exactly the normalised names of the list, the empty
    ones dropped and each one once, one association per name; the
    associations of the other pictures and the pictures themselves are as
    before.  For a picture that does not exist it returns [false] and
    changes nothing.  The names Paris, paris and "  PARIS " leave the one
    association paris. *)
Theorem setPictureTags_replaces_tag_set `{StringHost}
    (d : Db) (pictureId : Z) (tagNames : list JsValue) :
  tags_wf d →
  (is_Some (getPictureById pictureId d) →
   ∃ d',
     setPictureTags pictureId tagNames d = Some (true, d') ∧
     getPictureTags pictureId d' ≡ₚ tag_set tagNames ∧
     size (associations pictureId d') = length (tag_set tagNames) ∧
     (∀ p, p ≠ pictureId → associations p d' = associations p d) ∧
     pictures d' = pictures d ∧ tags_wf d' ∧
     (tagNames = [JsString (str "Paris"); JsString (str "paris");
                  JsString (str "  PARIS ")] →
      getPictureTags pictureId d' = [str "paris"] ∧
      size (associations pictureId d') = 1%nat)) ∧
  (getPictureById pictureId d = None →
   setPictureTags pictureId tagNames d = Some (false, d)).
Proof.
  intros Hwf. split.
  - intros Hpic.
    assert (is_Some (pictures d !! pictureId)) as Hrow.
    { unfold getPictureById in Hpic. by apply fmap_is_Some in Hpic. }
    destruct (setPictureTags_run pictureId tagNames d Hwf Hrow)
      as (d2 & tagIds & Hrun & Hwf2 & Hp2 & Hnd & Hel & Hsome).
    eexists. split; [exact Hrun|].
    destruct (setPictureTags_names pictureId d2 tagIds
                (filter (λ pt, pt.1 ≠ pictureId) (picture_tags d)) tagNames)
      as [Hnames Hsize]; try done.
    { intros t. rewrite elem_of_filter. cbn. tauto. }
    split; [done|]. split; [done|]. split; [|split; [done|split; [done|]]].
    + intros p Hp. apply set_eq. intros [p' t]. unfold associations.
      rewrite !elem_of_filter. cbn.
      rewrite elem_of_union, elem_of_list_to_set, list_elem_of_fmap,
        elem_of_filter. cbn.
      split.
      * intros [-> [(t' & [= -> ->] & _)|[_ Hin]]]; done.
      * intros [-> Hin]. split; [done|]. right. done.
    + intros ->. rewrite tag_set_paris in Hnames, Hsize.
      split; [|done]. by apply Permutation_singleton_r.
  - intros Hnone. unfold setPictureTags. by rewrite Hnone.
Qed.

Lemma setPictureTags_replaces_tag_set_witness :
  let names := [JsString (str "Paris"); JsString (str "paris");
                JsString (str "  PARIS ")] in
  (∃ d',
     setPictureTags (H:=ascii_host) 1 names gallery_A = Some (true, d') ∧
     getPictureTags 1 d' ≡ₚ tag_set (H:=ascii_host) names ∧
     size (associations 1 d') = length (tag_set (H:=ascii_host) names) ∧
     (∀ p, p ≠ 1 → associations p d' = associations p gallery_A) ∧
     pictures d' = pictures gallery_A ∧ tags_wf d' ∧
     (names = [JsString (str "Paris"); JsString (str "paris");
               JsString (str "  PARIS ")] →
      getPictureTags 1 d' = [str "paris"] ∧
      size (associations 1 d') = 1%nat)) ∧
  setPictureTags (H:=ascii_host) 7 names gallery_A = Some (false, gallery_A).
Proof.
  split.
  - refine (proj1 (setPictureTags_replaces_tag_set (H:=ascii_host)
                     gallery_A 1 _ _) _).
    + apply tags_wf_empty; [reflexivity | vm_compute; discriminate].
    + eexists. vm_compute. reflexivity.
  - refine (proj2 (setPictureTags_replaces_tag_set (H:=ascii_host)
                     gallery_A 7 _ _) _).
    + apply tags_wf_empty; [reflexivity | vm_compute; discriminate].
    + vm_compute. reflexivity.
Defined.

(** The same call, evaluated: one tag row, one association. *)
Lemma setPictureTags_paris_run :
  ∃ d', setPictureTags (H:=ascii_host) 1
          [JsString (str "Paris"); JsString (str "paris");
           JsString (str "  PARIS "); JsNull; JsString (str "!!")] gallery_A
        = Some (true, d') ∧
        tags d' = {[ str "paris" := 1 ]} ∧
        picture_tags d' = {[ (1, 1) ]} ∧
        getPictureTags 1 d' = [str "paris"].
Proof. eexists. split; [by vm_compute|]. by vm_compute. Qed.

(** C7.  [normalizeTag] is idempotent on every input; what is not a string,
    and the empty string, give the empty slug; it computes what the
    pipeline of the specification computes (lower-case, whitespace runs to
    one hyphen, strip what is outside [a-z0-9-], collapse hyphen runs, trim
    the hyphens at both ends); and "  Paris, 2024!! " gives paris-2024. *)
Theorem normalizeTag_idempotent_pipeline `{StringHost} :
  (∀ x, normalizeTag (JsString (normalizeTag x)) = normalizeTag x) ∧
  (∀ x, (∀ s, x ≠ JsString s) → normalizeTag x = []) ∧
  normalizeTag (JsString []) = [] ∧
  (∀ x, normalizeTag x = normalize_spec x) ∧
  normalizeTag (JsString (str "  Paris, 2024!! ")) = str "paris-2024".
Proof.
  split; [apply normalizeTag_idempotent|].
  split; [|split; [apply normalizeTag_empty|]].
  - intros [] Hx; try done. by destruct (Hx s).
  - split; [apply normalizeTag_refines_spec | apply normalizeTag_paris].
Qed.

Lemma normalizeTag_idempotent_pipeline_witness :
  (∀ x, normalizeTag (H:=ascii_host)
          (JsString (normalizeTag (H:=ascii_host) x))
        = normalizeTag (H:=ascii_host) x) ∧
  (∀ x, (∀ s, x ≠ JsString s) → normalizeTag (H:=ascii_host) x = []) ∧
  normalizeTag (H:=ascii_host) (JsString []) = [] ∧
  (∀ x, normalizeTag (H:=ascii_host) x = normalize_spec (H:=ascii_host) x) ∧
  normalizeTag (H:=ascii_host) (JsString (str "  Paris, 2024!! "))
    = str "paris-2024".
Proof. apply (normalizeTag_idempotent_pipeline (H:=ascii_host)). Defined.

(** * The rest of the store *)

(** ** Pictures in id order under insertion and deletion *)

Section id_order.
Implicit Types (d : Db) (p : Picture) (l : list Picture) (i : Z).

#[local] Instance id_le_total' : Total id_le.
Proof. intros p q. unfold id_le. lia. Qed.

#[local] Instance id_le_trans' : Transitive id_le.
Proof. intros p q r. unfold id_le. lia. Qed.

Lemma pictures_by_id_sorted d : StronglySorted id_le (pictures_by_id d).
Proof. apply (StronglySorted_merge_sort id_le). Qed.

(** A list in id order that holds the rows of the table is the answer of
    [ORDER BY id]. *)
Lemma pictures_by_id_unique d l :
  StronglySorted id_le l →
  l ≡ₚ (λ kv, {| id := kv.1; cols := kv.2 |}) <$> map_to_list (pictures d) →
  pictures_by_id d = l.
Proof.
  intros Hl Hperm. apply (StronglySorted_unique_strong id_le).
  - intros p q Hp Hq Hpq Hqp. unfold id_le in *.
    apply elem_of_pictures_by_id in Hp.
    rewrite Hperm, <- pictures_by_id_perm in Hq.
    apply elem_of_pictures_by_id in Hq.
    destruct p as [ip cp], q as [iq cq]. cbn in *.
    assert (ip = iq) as -> by lia. congruence.
  - apply pictures_by_id_sorted.
  - done.
  - by rewrite pictures_by_id_perm.
Qed.

Lemma filter_Forall_id {A} (P : A → Prop) `{∀ x, Decision (P x)} (l : list A) :
  Forall P l → filter P l = l.
Proof.
  induction 1 as [|x l Hx _ IH]; [done|].
  by rewrite filter_cons_True, IH.
Qed.

Lemma StronglySorted_sublist {A} (R : relation A) (k l : list A) :
  k `sublist_of` l → StronglySorted R l → StronglySorted R k.
Proof.
  induction 1 as [|x k l Hkl IH|x k l Hkl IH]; intros Hl; [done|..].
  - apply StronglySorted_inv in Hl as [Hl Hx].
    constructor; [auto|]. rewrite Forall_forall in Hx |- *.
    intros y Hy. apply Hx. by eapply elem_of_sublist.
  - apply StronglySorted_inv in Hl as [Hl _]. auto.
Qed.

Lemma StronglySorted_filter {A} (R : relation A) (P : A → Prop)
    `{∀ x, Decision (P x)} (l : list A) :
  StronglySorted R l → StronglySorted R (filter P l).
Proof. apply StronglySorted_sublist, sublist_filter. Qed.
End id_order.

Section picture_table.
Implicit Types (d : Db) (p : Picture) (i : Z).

Lemma pictures_wf_fresh d : pictures_wf d → pictures d !! (pictures_seq d + 1) = None.
Proof.
  intros [_ Hwf]. destruct (pictures d !! _) eqn:E; [|done].
  apply (map_Forall_lookup_1 _ _ _ _ Hwf) in E. lia.
Qed.

Lemma addPicture_Some now file day place d i d' :
  addPicture now file day place d = Some (i, d') →
  i = pictures_seq d + 1 ∧
  pictures d' =
    <[i := {| filename := file; pic_created_at := now; description := None;
              date := or_null day; location := or_null place |}]> (pictures d) ∧
  pictures_seq d' = i ∧ tags d' = tags d ∧ tags_seq d' = tags_seq d ∧
  picture_tags d' = picture_tags d ∧ tokens d' = tokens d.
Proof.
  unfold addPicture. case_bool_decide; [done|].
  intros [= <- <-]. done.
Qed.

Lemma addPicture_pictures_wf now file day place d i d' :
  pictures_wf d → addPicture now file day place d = Some (i, d') →
  pictures_wf d'.
Proof.
  intros Hwf Hadd. pose proof (pictures_wf_fresh _ Hwf) as Hfresh.
  destruct Hwf as [H0 Hwf].
  apply addPicture_Some in Hadd as (-> & Hp & Hs & _).
  split; [lia|]. rewrite Hp, Hs.
  apply map_Forall_insert; [done|]. split; [lia|].
  eapply map_Forall_impl; [done|]. cbn. intros. lia.
Qed.

Lemma addPicture_pictures_by_id now file day place d i d' :
  pictures_wf d →
  addPicture now file day place d = Some (i, d') →
  pictures_by_id d' =
    pictures_by_id d ++
      [{| id := i;
          cols := {| filename := file; pic_created_at := now;
                     description := None; date := or_null day;
                     location := or_null place |} |}].
Proof.
  intros Hwf Hadd. pose proof (pictures_wf_fresh _ Hwf) as Hfresh.
  apply addPicture_Some in Hadd as (-> & Hp & _).
  apply pictures_by_id_unique.
  - apply StronglySorted_app_2.
    + intros p q Hp' ->%list_elem_of_singleton. unfold id_le. cbn.
      apply elem_of_pictures_by_id in Hp'. destruct Hwf as [_ Hwf].
      apply (map_Forall_lookup_1 _ _ _ _ Hwf) in Hp'. cbn in Hp'. lia.
    + apply pictures_by_id_sorted.
    + repeat constructor.
  - rewrite Hp, map_to_list_insert by done. rewrite fmap_cons.
    rewrite <- pictures_by_id_perm. cbn.
    by rewrite <- Permutation_cons_append.
Qed.

(** X1. A picture added with [addPicture] gets an id that no picture of the
    gallery has, and it is placed after all of them in id order: the
    sequential ordinals of the pictures that were there do not move, the
    new picture has the last ordinal, and the count grows by one. *)
Theorem addPicture_appends_in_id_order now file day place d i d' :
  pictures_wf d →
  addPicture now file day place d = Some (i, d') →
  ∃ pic,
    id pic = i ∧ filename (cols pic) = file ∧
    (i ∉ getAllPictureIds d) ∧
    pictures_by_id d' = pictures_by_id d ++ [pic] ∧
    getPictureCount d' = getPictureCount d + 1 ∧
    (∀ k p, getPictureByIndex k d = Some p → getPictureByIndex k d' = Some p) ∧
    getPictureByIndex (getPictureCount d) d' = Some pic ∧
    pictures_wf d'.
Proof.
  intros Hwf Hadd.
  pose proof (addPicture_pictures_wf _ _ _ _ _ _ _ Hwf Hadd) as Hwf'.
  pose proof (pictures_wf_fresh _ Hwf) as Hfresh.
  pose proof (addPicture_pictures_by_id _ _ _ _ _ _ _ Hwf Hadd) as Hlist.
  apply addPicture_Some in Hadd as (-> & Hp & _).
  eexists. split_and!; [| | |exact Hlist|..]; try done.
  - rewrite elem_of_getAllPictureIds, Hfresh. by intros [? ?].
  - rewrite !getPictureCount_length, Hlist, length_app. cbn. lia.
  - intros k p Hk. unfold getPictureByIndex in *. rewrite Hlist.
    by apply lookup_app_l_Some.
  - unfold getPictureByIndex. rewrite Hlist, getPictureCount_length, Nat2Z.id.
    by rewrite list_lookup_middle.
Qed.

Lemma addPicture_appends_in_id_order_witness :
  ∃ pic,
    id pic = 6 ∧ filename (cols pic) = str "x.jpg" ∧
    (6 ∉ getAllPictureIds gallery_three) ∧
    pictures_by_id gallery_four = pictures_by_id gallery_three ++ [pic] ∧
    getPictureCount gallery_four = getPictureCount gallery_three + 1 ∧
    (∀ k p, getPictureByIndex k gallery_three = Some p →
            getPictureByIndex k gallery_four = Some p) ∧
    getPictureByIndex (getPictureCount gallery_three) gallery_four = Some pic ∧
    pictures_wf gallery_four.
Proof.
  apply (addPicture_appends_in_id_order 7 (str "x.jpg") None None
           gallery_three 6 gallery_four).
  - unfold pictures_wf. apply (bool_decide_unpack _). vm_compute. exact I.
  - vm_compute. reflexivity.
Defined.

(** X2. [deletePicture] on an id that is not in the gallery returns false
    and changes nothing.  On a picture of the gallery it returns the row,
    removes that picture and its tag associations and nothing else: the
    other pictures keep their relative order, their associations and the
    tag and token tables are as before, so a cached permutation that holds
    the id still holds it. *)
Theorem deletePicture_removes_only_that_picture d i :
  (getPictureById i d = None → deletePicture i d = (None, d)) ∧
  (∀ pic, getPictureById i d = Some pic →
     let d' := (deletePicture i d).2 in
     (deletePicture i d).1 = Some pic ∧
     getPictureById i d' = None ∧
     pictures_by_id d' = filter (λ p, id p ≠ i) (pictures_by_id d) ∧
     getPictureCount d' = getPictureCount d - 1 ∧
     associations i d' = ∅ ∧
     (∀ j, j ≠ i → getPictureById j d' = getPictureById j d ∧
                   associations j d' = associations j d) ∧
     tags d' = tags d ∧ tokens d' = tokens d ∧
     pictures_seq d' = pictures_seq d).
Proof.
  unfold deletePicture. split; [by intros ->|].
  intros pic Hpic. rewrite Hpic. cbn.
  unfold getPictureById in Hpic. destruct (pictures d !! i) as [c|] eqn:Hc;
    [|done].
  split_and!; try done.
  - unfold getPictureById. cbn. by rewrite lookup_delete_eq.
  - apply pictures_by_id_unique.
    + apply StronglySorted_filter, pictures_by_id_sorted.
    + cbn. rewrite pictures_by_id_perm, <- (map_to_list_delete _ _ _ Hc).
      rewrite fmap_cons, filter_cons_False by (cbn; tauto).
      rewrite filter_Forall_id; [done|].
      apply Forall_forall. intros p [[j c'] [-> Hj]]%list_elem_of_fmap.
      apply elem_of_map_to_list in Hj. cbn.
      intros ->. by rewrite lookup_delete_eq in Hj.
  - unfold getPictureCount. cbn. rewrite map_size_delete_Some by eauto.
    assert (size (pictures d) ≠ 0%nat); [|lia].
    intros Hz%map_size_empty_inv. by rewrite Hz in Hc.
  - unfold associations. cbn. set_solver.
  - intros j Hj. unfold getPictureById, associations. cbn.
    rewrite lookup_delete_ne by done. split; [done|]. set_solver.
Qed.
End picture_table.

Lemma deletePicture_removes_only_that_picture_witness :
  let d' := (deletePicture 2 gallery_three).2 in
  (deletePicture 2 gallery_three).1
    = Some {| id := 2; cols := picture_row (str "b.jpg") |} ∧
  getPictureById 2 d' = None ∧
  pictures_by_id d' = filter (λ p, id p ≠ 2) (pictures_by_id gallery_three) ∧
  getPictureCount d' = getPictureCount gallery_three - 1 ∧
  associations 2 d' = ∅ ∧
  (∀ j, j ≠ 2 → getPictureById j d' = getPictureById j gallery_three ∧
                associations j d' = associations j gallery_three) ∧
  tags d' = tags gallery_three ∧ tokens d' = tokens gallery_three ∧
  pictures_seq d' = pictures_seq gallery_three.
Proof.
  apply (proj2 (deletePicture_removes_only_that_picture gallery_three 2)).
  vm_compute. reflexivity.
Defined.

(** ** Listing, counting and paging *)

Section listing.
Implicit Types (d : Db) (p : Picture) (tag : option jsstring).

Lemma elem_of_getPictureTags i d n :
  n ∈ getPictureTags i d ↔
  ∃ t, tags d !! n = Some t ∧ (i, t) ∈ picture_tags d.
Proof.
  unfold getPictureTags. rewrite merge_sort_Permutation, list_elem_of_fmap.
  split.
  - intros [[n' t] [-> [Hin Hl%elem_of_map_to_list]%list_elem_of_filter]].
    eauto.
  - intros (t & Ht & Hin). exists (n, t). split; [done|].
    apply list_elem_of_filter. split; [done|]. by apply elem_of_map_to_list.
Qed.

Lemma tagged_spec n d p :
  tagged n d p = true ↔ n ∈ getPictureTags (id p) d.
Proof.
  rewrite elem_of_getPictureTags. unfold tagged.
  destruct (tags d !! n) as [t|]; [|naive_solver].
  rewrite bool_decide_eq_true. naive_solver.
Qed.

Lemma select_pictures_sublist tag d :
  select_pictures tag d `sublist_of` pictures_by_id d.
Proof.
  unfold select_pictures. destruct tag as [[|c t]|]; try done.
  apply sublist_filter.
Qed.

Lemma elem_of_select_pictures tag d p :
  p ∈ select_pictures tag d ↔
  p ∈ pictures_by_id d ∧
  ∀ c t, tag = Some (c :: t) → (c :: t) ∈ getPictureTags (id p) d.
Proof.
  unfold select_pictures. destruct tag as [[|c t]|]; [naive_solver| |naive_solver].
  rewrite list_elem_of_filter, tagged_spec. naive_solver.
Qed.

Lemma limit_offset_sublist {A} limit offset (l : list A) :
  limit_offset limit offset l `sublist_of` l.
Proof.
  unfold limit_offset. case_bool_decide.
  - apply sublist_drop.
  - etrans; [apply sublist_take|apply sublist_drop].
Qed.

Lemma listPictures_sublist tag limit offset d :
  (listPictures tag limit offset d).*1 `sublist_of` pictures_by_id d.
Proof.
  unfold listPictures. rewrite <- list_fmap_compose.
  erewrite (list_fmap_ext _ Datatypes.id) by done. rewrite list_fmap_id.
  etrans; [|apply select_pictures_sublist].
  destruct limit; [apply limit_offset_sublist|done].
Qed.

(** X3. [listPictures] without a limit returns the pictures of the gallery,
    or with a non-empty tag filter exactly those that carry the tag, each
    with its own tag list; with or without a limit the rows come in
    strictly ascending id order, so no picture is listed twice. *)
Theorem listPictures_selects_by_tag tag d :
  (∀ p ts, (p, ts) ∈ listPictures tag None 0 d ↔
     getPictureById (id p) d = Some p ∧ ts = getPictureTags (id p) d ∧
     ∀ c t, tag = Some (c :: t) → (c :: t) ∈ ts) ∧
  (∀ limit offset,
     StronglySorted Z.lt (id <$> (listPictures tag limit offset d).*1)).
Proof.
  split.
  - intros p ts. unfold listPictures. rewrite list_elem_of_fmap. split.
    + intros (q & [= -> ->] & [Hq Htag]%elem_of_select_pictures).
      split_and!; [by apply getPictureById_by_id|done|done].
    + intros (Hp & -> & Htag). exists p. split; [done|].
      apply elem_of_select_pictures. split; [|done].
      apply elem_of_pictures_by_id. unfold getPictureById in Hp.
      destruct (pictures d !! id p) eqn:E; [|done].
      cbn in Hp. by destruct p; simplify_eq/=.
  - intros limit offset.
    eapply StronglySorted_sublist; [|apply getAllPictureIds_ascending].
    apply fmap_sublist, listPictures_sublist.
Qed.






End listing.

(** ** Updates of a picture's row *)

Section updates.
Implicit Types (d : Db) (i : Z) (f : PictureCols → PictureCols).

Lemma getPictureById_alter f i j d :
  getPictureById j (with_pictures (alter f i (pictures d)) d) =
    if decide (i = j)
    then (λ p, {| id := id p; cols := f (cols p) |}) <$> getPictureById i d
    else getPictureById j d.
Proof.
  unfold getPictureById. cbn. rewrite lookup_alter.
  case_decide; [subst j|done]. by destruct (pictures d !! i).
Qed.

Lemma getAllPictureIds_alter f i d :
  getAllPictureIds (with_pictures (alter f i (pictures d)) d) =
    getAllPictureIds d.
Proof.
  apply (StronglySorted_unique_strong Z.lt).
  - intros. lia.
  - apply getAllPictureIds_ascending.
  - apply getAllPictureIds_ascending.
  - apply NoDup_Permutation; [apply getAllPictureIds_NoDup..|].
    intros j. rewrite !elem_of_getAllPictureIds. cbn. rewrite lookup_alter.
    case_decide; [subst j|done]. by rewrite fmap_is_Some.
Qed.

Lemma pictures_by_id_alter_other f i d :
  pictures d !! i = None →
  with_pictures (alter f i (pictures d)) d = d.
Proof.
  intros Hi. destruct d as [p ? ? ? ? ?]. unfold with_pictures. cbn in *.
  f_equal. apply map_eq. intros j. rewrite lookup_alter.
  case_decide; [subst j|done]. by rewrite Hi.
Qed.

(** X6. [updatePictureDescription] and [updatePictureDateLocation] return
    false and change nothing when the picture does not exist.  Otherwise
    they return true and overwrite their own columns of that one row, an
    empty string being stored as NULL; the file name, the other columns,
    the other pictures, the id order (so every sequential ordinal), the
    tags and the tokens are unchanged. *)
Theorem updatePicture_overwrites_own_columns d i text day place :
  (getPictureById i d = None →
     updatePictureDescription i text d = (false, d) ∧
     updatePictureDateLocation i day place d = (false, d)) ∧
  (∀ pic, getPictureById i d = Some pic →
     let r1 := updatePictureDescription i text d in
     let r2 := updatePictureDateLocation i day place d in
     r1.1 = true ∧ r2.1 = true ∧
     getPictureById i r1.2 =
       Some {| id := i; cols := set_description (or_null text) (cols pic) |} ∧
     getPictureById i r2.2 =
       Some {| id := i;
               cols := set_date_location (or_null day) (or_null place)
                         (cols pic) |} ∧
     ∀ d', d' = r1.2 ∨ d' = r2.2 →
       getAllPictureIds d' = getAllPictureIds d ∧
       (∀ j, j ≠ i → getPictureById j d' = getPictureById j d) ∧
       pictures_seq d' = pictures_seq d ∧
       tags d' = tags d ∧ tags_seq d' = tags_seq d ∧
       picture_tags d' = picture_tags d ∧ tokens d' = tokens d).
Proof.
  unfold updatePictureDescription, updatePictureDateLocation.
  split; [by intros ->|]. intros pic Hpic. rewrite Hpic. cbn [fst snd].
  assert (id pic = i) as Hid.
  { unfold getPictureById in Hpic. destruct (pictures d !! i); [|done].
    by injection Hpic as <-. }
  split_and!; try done.
  - rewrite getPictureById_alter, decide_True, Hpic by done. cbn.
    by rewrite Hid.
  - rewrite getPictureById_alter, decide_True, Hpic by done. cbn.
    by rewrite Hid.
  - intros d' [-> | ->].
    + split_and!; try done; [apply getAllPictureIds_alter|].
      intros j Hj. by rewrite getPictureById_alter, decide_False.
    + split_and!; try done; [apply getAllPictureIds_alter|].
      intros j Hj. by rewrite getPictureById_alter, decide_False.
Qed.
End updates.

Lemma updatePicture_overwrites_own_columns_witness :
  let r1 := updatePictureDescription 2 (Some (str "Harbour")) gallery_three in
  let r2 := updatePictureDateLocation 2 (Some (str "2024-05-01")) (Some [])
              gallery_three in
  r1.1 = true ∧ r2.1 = true ∧
  getPictureById 2 r1.2 =
    Some {| id := 2;
            cols := set_description (or_null (Some (str "Harbour")))
                      (picture_row (str "b.jpg")) |} ∧
  getPictureById 2 r2.2 =
    Some {| id := 2;
            cols := set_date_location (or_null (Some (str "2024-05-01")))
                      (or_null (Some [])) (picture_row (str "b.jpg")) |} ∧
  ∀ d', d' = r1.2 ∨ d' = r2.2 →
    getAllPictureIds d' = getAllPictureIds gallery_three ∧
    (∀ j, j ≠ 2 → getPictureById j d' = getPictureById j gallery_three) ∧
    pictures_seq d' = pictures_seq gallery_three ∧
    tags d' = tags gallery_three ∧ tags_seq d' = tags_seq gallery_three ∧
    picture_tags d' = picture_tags gallery_three ∧
    tokens d' = tokens gallery_three.
Proof.
  apply (proj2 (updatePicture_overwrites_own_columns gallery_three 2
                  (Some (str "Harbour")) (Some (str "2024-05-01")) (Some []))
               {| id := 2; cols := picture_row (str "b.jpg") |}).
  vm_compute. reflexivity.
Defined.

(** ** The PATCH route *)

Section patch.
Context `{HS : StringHost}.
Implicit Types (d : Db) (i : Z) (names : list JsValue).

Lemma getOrCreateTagId_frame name d :
  pictures_seq (getOrCreateTagId name d).2 = pictures_seq d.
Proof.
  rewrite getOrCreateTagId_run. cbn. case_bool_decide; [done|].
  by destruct (tags d !! normalizeTag name).
Qed.

Lemma mapM_getOrCreateTagId_frame names d :
  pictures_seq (mapM getOrCreateTagId names d).2 = pictures_seq d.
Proof.
  revert d. induction names as [|name names IH]; intros d; [done|].
  cbn [mapM]. rewrite !state_bind_run. cbn [mret state_ret fst snd].
  by rewrite IH, getOrCreateTagId_frame.
Qed.

(** [setPictureTags] on a picture that exists, with the store it leaves
    written out. *)
Lemma setPictureTags_eq i names d :
  tags_wf d →
  is_Some (pictures d !! i) →
  let d1 := with_picture_tags
              (filter (λ pt, pt.1 ≠ i) (picture_tags d)) d in
  let d2 := (mapM getOrCreateTagId names d1).2 in
  let tagIds := set_values [] (omap (tag_id_of d2) names) in
  setPictureTags i names d =
    Some (true,
          with_picture_tags
            (list_to_set ((λ t, (i, t)) <$> tagIds)
             ∪ filter (λ pt, pt.1 ≠ i) (picture_tags d)) d2) ∧
  tags_wf d2 ∧ tags d ⊆ tags d2 ∧ pictures d2 = pictures d ∧
  pictures_seq d2 = pictures_seq d ∧ tokens d2 = tokens d ∧
  NoDup tagIds ∧
  (∀ t, t ∈ tagIds ↔ ∃ n, n ∈ tag_set names ∧ tags d2 !! n = Some t) ∧
  (∀ n, n ∈ tag_set names → is_Some (tags d2 !! n)).
Proof.
  intros Hwf [c Hc] d1 d2 tagIds.
  assert (Hwf1 : tags_wf d1) by done.
  destruct (mapM_getOrCreateTagId_spec names d1 Hwf1)
    as (Hwf2 & Hsub & Hp2 & Hpt2 & Htok & Hids & Hall).
  pose proof (mapM_getOrCreateTagId_frame names d1) as Hseq.
  fold d2 in Hwf2, Hsub, Hp2, Hpt2, Htok, Hids, Hall, Hseq.
  destruct (set_values_spec [] (omap (tag_id_of d2) names)) as [Hnd _].
  assert (Hel := λ t, elem_of_tag_ids d2 names t Hwf2 Hall).
  fold tagIds in Hnd, Hel.
  split_and!; try done.
  2:{ intros n (Hn & name & Hname & ->)%elem_of_tag_set.
      rewrite Forall_forall in Hall. by apply Hall. }
  unfold setPictureTags, getPictureById. rewrite Hc.
  cbn [fmap option_fmap option_map]. fold d1.
  destruct (mapM getOrCreateTagId names d1) as [ids d2'] eqn:E.
  cbn [fst snd] in *. subst d2.
  rewrite Hids, (filter_Boolean_tag_ids d2' names Hwf2). fold tagIds.
  rewrite insert_picture_tags_run.
  - cbn [mbind option_bind]. by rewrite Hpt2.
  - done.
  - rewrite Hp2. cbn. eauto.
  - intros t (n & _ & Hn)%Hel. split; [|eauto].
    rewrite Hpt2. cbn. rewrite elem_of_filter. cbn. tauto.
Qed.

Lemma with_pictures_alter_id i d :
  with_pictures (alter Datatypes.id i (pictures d)) d = d.
Proof.
  destruct d. unfold with_pictures. cbn. f_equal. by apply alter_id.
Qed.

(** X7. [PATCH /api/admin/pictures/:id] on a picture that exists raises no
    error and answers with the picture as it is afterwards.  A field that
    the body leaves out keeps its value; a description that is given is
    stored ([null] and the empty string as NULL); when the body has a tag
    array, the picture's tags become the set the array denotes; when one of
    [date] and [location] is given both columns are written, so giving only
    one of them clears the other.  The file name, the id order, the other
    pictures with their tag associations, and the tokens are unchanged. *)
Theorem patch_picture_applies_given_fields d i pic body :
  tags_wf d →
  getPictureById i d = Some pic →
  ∃ pic' d',
    patch_picture true (Some i) body d =
      Some (Sent (Some pic', getPictureTags i d'), d') ∧
    getPictureById i d' = Some pic' ∧
    filename (cols pic') = filename (cols pic) ∧
    pic_created_at (cols pic') = pic_created_at (cols pic) ∧
    description (cols pic') =
      match patch_description body with
      | Absent => description (cols pic)
      | f => or_null (field_value f)
      end ∧
    (date (cols pic'), location (cols pic')) =
      match patch_date body, patch_location body with
      | Absent, Absent => (date (cols pic), location (cols pic))
      | day, place => (or_null (field_value day), or_null (field_value place))
      end ∧
    match patch_tags body with
    | Some names => getPictureTags i d' ≡ₚ tag_set names
    | None => getPictureTags i d' = getPictureTags i d
    end ∧
    getAllPictureIds d' = getAllPictureIds d ∧
    (∀ j, j ≠ i → getPictureById j d' = getPictureById j d ∧
                  associations j d' = associations j d) ∧
    tokens d' = tokens d.
Proof.
  intros Hwf Hpic. unfold patch_picture.
  cbn [mbind option_bind]. rewrite Hpic. cbn [fmap option_fmap option_map].
  set (f1 := match patch_description body with
             | Absent => Datatypes.id
             | f => set_description (or_null (field_value f))
             end).
  set (f3 := match patch_date body, patch_location body with
             | Absent, Absent => Datatypes.id
             | day, place =>
                 set_date_location (or_null (field_value day))
                   (or_null (field_value place))
             end).
  set (db1 := match patch_description body with
              | Absent => d
              | f => (updatePictureDescription i (field_value f) d).2
              end).
  assert (db1 = with_pictures (alter f1 i (pictures d)) d) as Hdb1.
  { unfold db1, f1, updatePictureDescription. rewrite Hpic.
    destruct (patch_description body); [|done..].
    by rewrite with_pictures_alter_id. }
  clearbody db1. subst db1.
  set (db1 := with_pictures (alter f1 i (pictures d)) d).
  assert (getPictureById i db1 = Some {| id := i; cols := f1 (cols pic) |})
    as Hpic1.
  { unfold db1. rewrite getPictureById_alter, decide_True, Hpic by done.
    cbn. unfold getPictureById in Hpic. destruct (pictures d !! i); [|done].
    by injection Hpic as <-. }
  assert (is_Some (pictures db1 !! i)) as Hsome1.
  { unfold getPictureById in Hpic1. destruct (pictures db1 !! i); [eauto|done]. }
  assert (∃ db2,
    match patch_tags body with
    | Some names => snd <$> setPictureTags i names db1
    | None => Some db1
    end = Some db2 ∧
    pictures db2 = pictures db1 ∧ tokens db2 = tokens d ∧
    match patch_tags body with
    | Some names => getPictureTags i db2 ≡ₚ tag_set names
    | None => getPictureTags i db2 = getPictureTags i d
    end ∧
    (∀ j, j ≠ i → associations j db2 = associations j d))
    as (db2 & -> & Hp2 & Htok2 & Htags2 & Hassoc2).
  { destruct (patch_tags body) as [names|]; [|by exists db1].
    destruct (setPictureTags_eq i names db1 Hwf Hsome1)
      as (-> & Hwf2 & _ & Hp2 & _ & Htok2 & Hnd & Hel & Hsome).
    eexists. split; [reflexivity|]. split_and!; try done.
    - apply setPictureTags_names; try done.
      intros t. rewrite elem_of_filter. cbn. tauto.
    - intros j Hj. unfold associations. cbn. apply set_eq. intros [p t].
      rewrite !elem_of_filter, elem_of_union, elem_of_filter,
        elem_of_list_to_set, list_elem_of_fmap. cbn. naive_solver. }
  cbn [mbind option_bind].
  set (db3 := match patch_date body, patch_location body with
              | Absent, Absent => db2
              | day, place =>
                  (updatePictureDateLocation i (field_value day)
                     (field_value place) db2).2
              end).
  assert (getPictureById i db2 = Some {| id := i; cols := f1 (cols pic) |})
    as Hpic2.
  { rewrite <- Hpic1. unfold getPictureById. by rewrite Hp2. }
  assert (db3 = with_pictures (alter f3 i (pictures db2)) db2) as Hdb3.
  { unfold db3, f3, updatePictureDateLocation. rewrite Hpic2.
    destruct (patch_date body), (patch_location body); try done.
    by rewrite with_pictures_alter_id. }
  clearbody db3. subst db3.
  set (db3 := with_pictures (alter f3 i (pictures db2)) db2).
  assert (getPictureById i db3 =
          Some {| id := i; cols := f3 (f1 (cols pic)) |}) as Hpic3.
  { unfold db3. by rewrite getPictureById_alter, decide_True, Hpic2. }
  exists {| id := i; cols := f3 (f1 (cols pic)) |}, db3.
  rewrite Hpic3. split_and!; try done.
  - cbn. unfold f3, f1.
    by destruct (patch_date body), (patch_location body),
      (patch_description body).
  - cbn. unfold f3, f1.
    by destruct (patch_date body), (patch_location body),
      (patch_description body).
  - cbn. unfold f3, f1.
    by destruct (patch_date body), (patch_location body),
      (patch_description body).
  - cbn. unfold f3, f1.
    by destruct (patch_date body), (patch_location body),
      (patch_description body).
  - unfold db3. rewrite getAllPictureIds_alter.
    transitivity (getAllPictureIds db1).
    + unfold getAllPictureIds. f_equal. by apply pictures_by_id_ext.
    + apply getAllPictureIds_alter.
  - intros j Hj. split; [|by apply Hassoc2].
    unfold db3. rewrite getPictureById_alter, decide_False by done.
    transitivity (getPictureById j db1).
    + unfold getPictureById. by rewrite Hp2.
    + unfold db1. by rewrite getPictureById_alter, decide_False.
Qed.

End patch.

Lemma patch_picture_applies_given_fields_witness :
  ∃ pic' d',
    patch_picture (H:=ascii_host) true (Some 2)
        {| patch_description := Text (str "Harbour"); patch_tags := None;
           patch_date := Text (str "2024-05-01"); patch_location := Absent |}
        gallery_three =
      Some (Sent (Some pic', getPictureTags 2 d'), d') ∧
    getPictureById 2 d' = Some pic' ∧
    filename (cols pic') = str "b.jpg" ∧
    pic_created_at (cols pic') = 0 ∧
    description (cols pic') = Some (str "Harbour") ∧
    (date (cols pic'), location (cols pic')) = (Some (str "2024-05-01"), None) ∧
    getPictureTags 2 d' = getPictureTags 2 gallery_three ∧
    getAllPictureIds d' = getAllPictureIds gallery_three ∧
    (∀ j, j ≠ 2 → getPictureById j d' = getPictureById j gallery_three ∧
                  associations j d' = associations j gallery_three) ∧
    tokens d' = tokens gallery_three.
Proof.
  apply (patch_picture_applies_given_fields (HS:=ascii_host) gallery_three 2
           {| id := 2; cols := picture_row (str "b.jpg") |}
           {| patch_description := Text (str "Harbour"); patch_tags := None;
              patch_date := Text (str "2024-05-01");
              patch_location := Absent |}).
  - apply tags_wf_empty; [reflexivity|cbn; lia].
  - vm_compute. reflexivity.
Defined.


(** ** The token table *)

Section token_table.
Implicit Types (d : Db) (tok t : jsstring).

Lemma with_tokens_same d : with_tokens (tokens d) d = d.
Proof. by destruct d. Qed.

Lemma deleteToken_absent tok d :
  getToken tok d = None → deleteToken tok d = (0, d).
Proof.
  unfold deleteToken, getToken. intros Hd.
  rewrite bool_decide_eq_false_2 by (rewrite Hd; by intros [? ?]).
  by rewrite delete_id, with_tokens_same.
Qed.

(** X8. A token that is not in the table can be created; it starts with
    both cursors at zero and no cached permutation, and no other token is
    touched.  Revoking it with [deleteToken] restores the store exactly as
    it was before the creation, and reports one deleted row; the route
    [DELETE /api/admin/tokens/:token] then answers ok for it and 404
    'Token not found', changing nothing, for a token that is not there. *)
Theorem createToken_deleteToken_round_trip tok now d :
  getToken tok d = None →
  ∃ d',
    createToken tok now d = Some (tok, d') ∧
    getToken tok d' = Some (new_token_row now) ∧
    (∀ t, t ≠ tok → getToken t d' = getToken t d) ∧
    pictures d' = pictures d ∧ tags d' = tags d ∧
    picture_tags d' = picture_tags d ∧
    deleteToken tok d' = (1, d) ∧
    delete_token true tok d' = (Sent tt, d) ∧
    delete_token true tok d = (Refused 404 (str "Token not found"), d).
Proof.
  intros Hd. unfold createToken. unfold getToken in Hd. rewrite Hd.
  eexists. split; [reflexivity|].
  assert (deleteToken tok
            (with_tokens (<[tok := new_token_row now]> (tokens d)) d)
          = (1, d)) as Hdel.
  { unfold deleteToken. cbn [tokens with_tokens].
    rewrite lookup_insert_eq, bool_decide_eq_true_2 by eauto.
    f_equal. unfold with_tokens. cbn.
    rewrite delete_insert_id by done. by destruct d. }
  split_and!; try done.
  - unfold getToken. cbn. by rewrite lookup_insert_eq.
  - intros t Ht. unfold getToken. cbn. by rewrite lookup_insert_ne.
  - unfold delete_token. fold (new_token_row now). by rewrite Hdel.
  - unfold delete_token. by rewrite deleteToken_absent.
Qed.

Lemma createToken_deleteToken_round_trip_witness :
  ∃ d',
    createToken token_T 7 gallery_two = Some (token_T, d') ∧
    getToken token_T d' = Some (new_token_row 7) ∧
    (∀ t, t ≠ token_T → getToken t d' = getToken t gallery_two) ∧
    pictures d' = pictures gallery_two ∧
    tags d' = tags gallery_two ∧
    picture_tags d' = picture_tags gallery_two ∧
    deleteToken token_T d' = (1, gallery_two) ∧
    delete_token true token_T d' = (Sent tt, gallery_two) ∧
    delete_token true token_T gallery_two =
      (Refused 404 (str "Token not found"), gallery_two).
Proof.
  apply (createToken_deleteToken_round_trip token_T 7 gallery_two).
  reflexivity.
Defined.
End token_table.

(** ** What a delivery leaves alone *)

Section delivery_frame.
Context `{HR : RandomSource}.
Implicit Types (req : Request) (tok t : jsstring) (w : World)
  (row : TokenCols).

(** The four ways through the handler. *)
Lemma photo_cases req w :
  ((query_token req = None ∨ query_token req = Some []) ∧
   photo req w = (TokenRequired, w)) ∨
  ∃ tok, query_token req = Some tok ∧ tok ≠ [] ∧
    ((getPictureCount (db w) = 0 ∧ photo req w = (EmptyCollection, w)) ∨
     (getPictureCount (db w) ≠ 0 ∧ getToken tok (db w) = None ∧
      photo req w = (Forbidden, w)) ∨
     (∃ row, getPictureCount (db w) ≠ 0 ∧ getToken tok (db w) = Some row ∧
        photo req w =
          let r := (if bool_decide (mode_of req = str "random")
                    then photo_random tok
                    else photo_next tok row (getPictureCount (db w))) w in
          (answer req tok r.1, r.2))).
Proof.
  destruct (query_token req) as [[|c t]|] eqn:Hq.
  - left. unfold photo. rewrite Hq. eauto.
  - right. exists (c :: t). split; [done|]. split; [done|].
    destruct (decide (getPictureCount (db w) = 0)) as [Hn|Hn].
    { left. split; [done|]. unfold photo. rewrite Hq, state_bind_run.
      cbn [gets fst snd]. by rewrite bool_decide_eq_true_2. }
    right. destruct (getToken (c :: t) (db w)) as [row|] eqn:Hrow.
    + right. exists row. split; [done|]. split; [done|].
      by apply photo_run.
    + left. split; [done|]. split; [done|].
      unfold photo. rewrite Hq, state_bind_run. cbn [gets fst snd].
      rewrite bool_decide_eq_false_2 by done.
      rewrite state_bind_run. cbn [gets fst snd]. by rewrite Hrow.
  - left. unfold photo. rewrite Hq. eauto.
Qed.

(** The random branch writes one random state of the token on the store it
    found, and serves a picture of that store. *)
Lemma photo_random_db tok w :
  (∃ ids idx,
     db (photo_random tok w).2 = updateTokenRandomState tok ids idx (db w)) ∧
  (∀ pic, (photo_random tok w).1 = Some pic →
          getPictureById (id pic) (db w) = Some pic).
Proof.
  assert (∀ ids idx w',
    db w' = db w →
    (∃ ids' idx',
       db (serve_cursor tok ids idx w').2 =
         updateTokenRandomState tok ids' idx' (db w)) ∧
    (∀ pic, (serve_cursor tok ids idx w').1 = Some pic →
            getPictureById (id pic) (db w) = Some pic)) as Hserve.
  { intros ids idx w' Hw'. rewrite serve_cursor_run. cbn [fst snd]. split.
    - case_bool_decide.
      + destruct (regenerate_spec w') as (_ & _ & Hdb). cbn. rewrite Hdb, Hw'.
        eauto.
      + cbn. rewrite Hw'. eauto.
    - intros pic. rewrite Hw'. destruct (array_get ids idx) as [i|]; [|done].
      cbn. unfold getPictureById.
      destruct (pictures (db w) !! i) as [c|] eqn:Hc; [|done].
      cbn. intros [= <-]. cbn. by rewrite Hc. }
  rewrite photo_random_run. cbn zeta. destruct (exhausted _ _).
  - apply Hserve. by destruct (regenerate_spec w) as (_ & _ & ->).
  - by apply Hserve.
Qed.

Lemma photo_next_served tok row n w pic :
  (photo_next tok row n w).1 = Some pic →
  getPictureById (id pic) (db w) = Some pic.
Proof.
  rewrite photo_next_run. cbn [fst]. unfold getPictureByIndex.
  intros Hpic. apply getPictureById_by_id.
  by eapply list_elem_of_lookup_2.
Qed.

Lemma getToken_alter_token f tok t d :
  getToken t (with_tokens (alter f tok (tokens d)) d) =
    if decide (tok = t) then f <$> getToken tok d else getToken t d.
Proof. unfold getToken. cbn. apply lookup_alter. Qed.

(** What a delivery writes: nothing, or one cursor of the presented
    token. *)
Lemma photo_db_cases req w :
  db (photo req w).2 = db w ∨
  ∃ tok, query_token req = Some tok ∧
    if bool_decide (mode_of req = str "random")
    then ∃ ids idx,
           db (photo req w).2 = updateTokenRandomState tok ids idx (db w)
    else ∃ k, db (photo req w).2 = updateTokenIndex tok k (db w).
Proof.
  destruct (photo_cases req w)
    as [[Hq ->]|(tok & Hq & Hne & [[_ ->]|[(_ & _ & ->)|
         (row & Hn & Hrow & ->)]])]; cbn zeta; cbn [fst snd]; try by left.
  right. exists tok. split; [done|]. case_bool_decide.
  - by destruct (photo_random_db tok w) as [? _].
  - rewrite photo_next_run. cbn. eauto.
Qed.

Lemma photo_keeps_tokens req w t row :
  getToken t (db w) = Some row →
  ∃ row', getToken t (db (photo req w).2) = Some row' ∧
    tok_created_at row' = tok_created_at row ∧
    if bool_decide (mode_of req = str "random")
    then current_index row' = current_index row
    else random_ids row' = random_ids row ∧
         random_index row' = random_index row.
Proof.
  intros Ht. destruct (photo_db_cases req w) as [->|(tok & Hq & Hdb)].
  { exists row. split; [done|]. split; [done|]. by case_bool_decide. }
  case_bool_decide.
  - destruct Hdb as (ids & idx & ->). unfold updateTokenRandomState.
    rewrite getToken_alter_token. case_decide.
    + subst t. rewrite Ht. cbn. eauto.
    + rewrite Ht. eauto.
  - destruct Hdb as (k & ->). unfold updateTokenIndex.
    rewrite getToken_alter_token. case_decide.
    + subst t. rewrite Ht. cbn. eauto.
    + rewrite Ht. eauto.
Qed.

(** X9. A request to [GET /api/photo] never changes a picture, a tag or a
    tag association, never creates or removes a token, and never changes
    the row of a token other than the one it presents.  Of the presented
    token it keeps the creation time; a sequential delivery leaves the
    cached permutation and its cursor as they are, and a randomized
    delivery leaves the sequential cursor as it is, so the two traversals
    of one token do not disturb each other.  A request that is refused
    (any error other than 404 'Not found') changes nothing at all. *)
Theorem photo_touches_only_presented_token req w :
  let w' := (photo req w).2 in
  (pictures (db w') = pictures (db w) ∧
   pictures_seq (db w') = pictures_seq (db w) ∧
   tags (db w') = tags (db w) ∧ tags_seq (db w') = tags_seq (db w) ∧
   picture_tags (db w') = picture_tags (db w)) ∧
  (∀ t, query_token req ≠ Some t →
        getToken t (db w') = getToken t (db w)) ∧
  (∀ t, getToken t (db w) = None → getToken t (db w') = None) ∧
  (∀ t row, getToken t (db w) = Some row →
     ∃ row', getToken t (db w') = Some row' ∧
       tok_created_at row' = tok_created_at row ∧
       if bool_decide (mode_of req = str "random")
       then current_index row' = current_index row
       else random_ids row' = random_ids row ∧
            random_index row' = random_index row) ∧
  (∀ status msg, (photo req w).1 = Error status msg →
                 Error status msg ≠ NotFound → w' = w).
Proof.
  cbn zeta. split.
  { destruct (photo_db_cases req w) as [->|(tok & _ & Hdb)]; [done|].
    case_bool_decide; [destruct Hdb as (? & ? & ->)|destruct Hdb as (? & ->)];
      done. }
  split_and!.
  - intros t Ht.
    destruct (photo_db_cases req w) as [->|(tok & Hq & Hdb)]; [done|].
    assert (tok ≠ t) by congruence.
    case_bool_decide; [destruct Hdb as (? & ? & ->)|destruct Hdb as (? & ->)].
    + unfold updateTokenRandomState.
      by rewrite getToken_alter_token, decide_False.
    + unfold updateTokenIndex. by rewrite getToken_alter_token, decide_False.
  - intros t Ht.
    destruct (photo_db_cases req w) as [->|(tok & Hq & Hdb)]; [done|].
    case_bool_decide; [destruct Hdb as (? & ? & ->)|destruct Hdb as (? & ->)].
    + unfold updateTokenRandomState. rewrite getToken_alter_token.
      case_decide; [subst t|done]. by rewrite Ht.
    + unfold updateTokenIndex. rewrite getToken_alter_token.
      case_decide; [subst t|done]. by rewrite Ht.
  - intros t row. apply photo_keeps_tokens.
  - intros status msg.
    destruct (photo_cases req w)
      as [[Hq ->]|(tok & Hq & Hne & [[_ ->]|[(_ & _ & ->)|
           (row & Hn & Hrow & ->)]])]; cbn zeta; cbn [fst snd]; try done.
    unfold answer. case_bool_decide.
    + destruct (photo_random tok w).1; cbn; [done|congruence].
    + destruct (photo_next tok row (getPictureCount (db w)) w).1; cbn;
        [done|congruence].
Qed.

(** X10. The address a delivery hands out works: when [GET /api/photo]
    answers with a picture, [GET /api/photo/file/:id] with the id and the
    token of the returned address, on the store the delivery left, sends
    the file of that picture; the id is the one of the response and the
    token is the one the request presented. *)
Theorem delivered_address_is_served req w pid url de da lo :
  (photo req w).1 = Photo pid url de da lo →
  ∃ pic,
    getPictureById pid (db (photo req w).2) = Some pic ∧
    photo_file (Some (url_token url)) (Some (url_id url))
               (db (photo req w).2) = Sent (filename (cols pic)) ∧
    url_id url = pid ∧ query_token req = Some (url_token url) ∧
    url_base url = base_url req ∧
    de = or_null (description (cols pic)) ∧
    da = or_null (date (cols pic)) ∧ lo = or_null (location (cols pic)).
Proof.
  intros Hphoto.
  pose proof (photo_pictures req w) as Hp.
  destruct (photo_cases req w)
    as [[Hq Heq]|(tok & Hq & Hne & [[_ Heq]|[(_ & _ & Heq)|
         (row & Hn & Hrow & Heq)]])];
    rewrite Heq in Hphoto; try done.
  cbn zeta in Hphoto. cbn [fst] in Hphoto.
  assert (∃ pic, getPictureById (id pic) (db w) = Some pic ∧
                 Photo pid url de da lo = photo_json (base_url req) tok pic)
    as (pic & Hpic & Hjson).
  { unfold answer in Hphoto. case_bool_decide.
    - destruct (photo_random_db tok w) as [_ Hserved].
      destruct (photo_random tok w).1 as [pic|]; [|done].
      exists pic. split; [by apply Hserved|done].
    - destruct (photo_next tok row (getPictureCount (db w)) w).1 as [pic|] eqn:E;
        [|done].
      exists pic. split; [by eapply photo_next_served|done]. }
  injection Hjson as -> -> -> -> ->. exists pic.
  destruct (photo_keeps_tokens req w tok row Hrow) as (row' & Hrow' & _).
  cbn [url_id url_token url_base].
  assert (getPictureById (id pic) (db (photo req w).2) = Some pic) as Hpic'.
  { by rewrite (getPictureById_ext _ _ _ Hp). }
  split_and!; try done.
  unfold photo_file. destruct tok as [|c t]; [done|].
  rewrite Hrow'. cbn [mbind option_bind]. by rewrite Hpic'.
Qed.

End delivery_frame.

Lemma delivered_address_is_served_witness :
  ∃ pic,
    getPictureById 1 (db (photo (H:=quarters_source) next_request
                            (start gallery_three)).2) = Some pic ∧
    photo_file (Some token_T) (Some 1)
               (db (photo (H:=quarters_source) next_request
                      (start gallery_three)).2) = Sent (filename (cols pic)) ∧
    1 = 1 ∧ query_token next_request = Some token_T ∧
    str "http://localhost:3456" = base_url next_request ∧
    None = or_null (description (cols pic)) ∧
    None = or_null (date (cols pic)) ∧ None = or_null (location (cols pic)).
Proof.
  apply (delivered_address_is_served (HR:=quarters_source) next_request
           (start gallery_three) 1
           {| url_base := str "http://localhost:3456"; url_id := 1;
              url_token := token_T |} None None None).
  vm_compute. reflexivity.
Defined.

(** ** The shuffle: its cost and its last element *)

Section shuffle_cost.
Context `{HR : RandomSource}.
Implicit Types (a arr : list Z) (w : World).



End shuffle_cost.

(** ** The shape of a normalised tag *)

Section slug.
Context `{HS : StringHost}.

Lemma drop_while_head_false p s : head_matches p (drop_while p s) = false.
Proof.
  induction s as [|c s IH]; [done|]. cbn. by destruct (p c) eqn:Hc; cbn.
Qed.

Lemma head_matches_head p s c :
  head s = Some c → head_matches p s = p c.
Proof. by destruct s; intros [= ->]. Qed.

(** X12. Whatever value it is given, [normalizeTag] returns a slug: only
    the code units of [a-z], [0-9] and the hyphen, no hyphen at the start
    or at the end, and no two hyphens in a row; a value that is not a
    string gives the empty string. *)
Theorem normalizeTag_returns_slug x :
  Forall (λ c, (97 ≤ c ≤ 122 ∨ 48 ≤ c ≤ 57 ∨ c = 45)%N) (normalizeTag x) ∧
  head (normalizeTag x) ≠ Some hyphen ∧
  last (normalizeTag x) ≠ Some hyphen ∧
  single_hyphens (normalizeTag x) = true ∧
  match x with JsString _ => True | _ => normalizeTag x = [] end.
Proof.
  split_and!.
  - eapply Forall_impl; [apply normalizeTag_slug_units|].
    apply is_slug_unit_cases.
  - destruct x as [| | | |s0|]; try done. cbn [normalizeTag].
    set (s := replace_runs is_hyphen hyphen _).
    assert (single_hyphens s = true) as Hs
      by apply single_hyphens_replace_runs.
    pose proof (strip_last_hyphen_head _ (strip_first_hyphen_head s Hs)) as Hh.
    fold (strip_edge_hyphens s) in Hh. intros Hhead.
    by rewrite (head_matches_head _ _ _ Hhead) in Hh.
  - destruct x as [| | | |s0|]; try done. cbn [normalizeTag].
    set (s := replace_runs is_hyphen hyphen _).
    assert (single_hyphens s = true) as Hs
      by apply single_hyphens_replace_runs.
    unfold strip_edge_hyphens.
    rewrite <- strip_last_hyphen_drop_while
      by by apply strip_first_hyphen_single.
    rewrite last_reverse. intros Hhead.
    pose proof (drop_while_head_false is_hyphen
                  (reverse (strip_first_hyphen s))) as Hh.
    by rewrite (head_matches_head _ _ _ Hhead) in Hh.
  - apply normalizeTag_single_hyphens.
  - by destruct x.
Qed.
End slug.

(** ** Checking the conditions on a given store *)

Lemma tags_wf_intro (d : Db) :
  NoDup (map_to_list (tags d)).*2 →
  map_Forall (λ _ i, 0 < i ≤ tags_seq d) (tags d) →
  0 ≤ tags_seq d →
  tags_wf d.
Proof.
  intros Hnd Hall Hseq. split_and!; [|by apply map_Forall_lookup|done].
  intros n1 n2 i H1%elem_of_map_to_list H2%elem_of_map_to_list.
  apply list_elem_of_lookup in H1 as [k1 H1], H2 as [k2 H2].
  assert (k1 = k2) as ->.
  { apply (NoDup_lookup _ k1 k2 i Hnd); rewrite list_lookup_fmap.
    - by rewrite H1.
    - by rewrite H2. }
  congruence.
Qed.

(** ** Tag lists applied twice, and tag rows that stay *)

Section tags_again.
Context `{HS : StringHost}.
Implicit Types (d : Db) (i : Z) (names : list JsValue) (n : jsstring).

Lemma mapM_getOrCreateTagId_present names d :
  Forall (λ name, normalizeTag name ≠ [] →
                  is_Some (tags d !! normalizeTag name)) names →
  mapM getOrCreateTagId names d = (tag_id_of d <$> names, d).
Proof.
  induction 1 as [|name names Hname _ IH]; [done|].
  cbn [mapM]. rewrite !state_bind_run. cbn [mret state_ret fst snd].
  assert (getOrCreateTagId name d = (tag_id_of d name, d)) as ->.
  { rewrite getOrCreateTagId_run. cbn zeta. unfold tag_id_of.
    case_bool_decide as Hn; [done|].
    by destruct (Hname Hn) as [t ->]. }
  cbn [fst snd]. by rewrite IH.
Qed.

Lemma mapM_getOrCreateTagId_new names d n :
  is_Some (tags (mapM getOrCreateTagId names d).2 !! n) →
  is_Some (tags d !! n) ∨ n ∈ tag_set names.
Proof.
  revert d. induction names as [|name names IH]; intros d; [by left|].
  cbn [mapM]. rewrite !state_bind_run. cbn [mret state_ret fst snd].
  intros [Hn|Hn]%IH.
  - rewrite getOrCreateTagId_run in Hn. cbn zeta in Hn.
    case_bool_decide as Hname; [by left|].
    destruct (tags d !! normalizeTag name) eqn:E; [by left|].
    cbn in Hn. rewrite lookup_insert in Hn. case_decide; [|by left].
    right. apply elem_of_tag_set. subst n. split; [done|].
    exists name. split; [left|done].
  - right. apply elem_of_tag_set in Hn as (Hne & name' & Hin & ->).
    apply elem_of_tag_set. split; [done|]. exists name'.
    split; [by right|done].
Qed.

(** X13. [setPictureTags] is idempotent: applied a second time with the
    same list, it returns true and leaves the store exactly as the first
    application left it.  It never removes or renumbers a row of the tags
    table, so a tag that no picture carries any more stays in it, and the
    rows it adds are those of the names of the list. *)
Theorem setPictureTags_idempotent i names d d' :
  tags_wf d →
  setPictureTags i names d = Some (true, d') →
  setPictureTags i names d' = Some (true, d') ∧
  tags d ⊆ tags d' ∧
  (∀ n, is_Some (tags d' !! n) → is_Some (tags d !! n) ∨ n ∈ tag_set names) ∧
  tags_wf d'.
Proof.
  intros Hwf Hset.
  assert (is_Some (pictures d !! i)) as Hpic.
  { unfold setPictureTags, getPictureById in Hset.
    destruct (pictures d !! i); [eauto|done]. }
  destruct (setPictureTags_eq i names d Hwf Hpic)
    as (Heq & Hwf2 & Hsub & Hp2 & _ & _ & Hnd & Hel & Hsome).
  pose proof (mapM_getOrCreateTagId_new names
                (with_picture_tags
                   (filter (λ pt, pt.1 ≠ i) (picture_tags d)) d)) as Hnew.
  set (d2 := (mapM getOrCreateTagId names _).2) in *.
  set (tagIds := set_values [] (omap (tag_id_of d2) names)) in *.
  rewrite Heq in Hset. injection Hset as <-.
  split_and!; try done.
  set (rest := filter (λ pt, pt.1 ≠ i) (picture_tags d)).
  set (dd := with_picture_tags
               (list_to_set ((λ t, (i, t)) <$> tagIds) ∪ rest) d2).
  assert (is_Some (pictures dd !! i)) as Hpic' by (cbn; by rewrite Hp2).
  assert (tags_wf dd) as Hwf' by exact Hwf2.
  destruct (setPictureTags_eq i names dd Hwf' Hpic') as (-> & _).
  assert (filter (λ pt, pt.1 ≠ i) (picture_tags dd) = rest) as ->.
  { apply set_eq. intros [p t]. unfold dd, rest. cbn.
    rewrite !elem_of_filter, elem_of_union, elem_of_filter,
      elem_of_list_to_set, list_elem_of_fmap. cbn. naive_solver. }
  rewrite mapM_getOrCreateTagId_present.
  - reflexivity.
  - apply Forall_forall. intros name Hname Hne. cbn.
    apply Hsome, elem_of_tag_set. eauto.
Qed.

End tags_again.

Lemma setPictureTags_idempotent_witness :
  let names := [JsString (str "Sea View"); JsString (str "sea-view");
                JsNull] in
  let d' := (default (false, empty_db)
               (setPictureTags (H:=ascii_host) 2 names gallery_tagged)).2 in
  setPictureTags (H:=ascii_host) 2 names d' = Some (true, d') ∧
  tags gallery_tagged ⊆ tags d' ∧
  (∀ n, is_Some (tags d' !! n) →
        is_Some (tags gallery_tagged !! n)
        ∨ n ∈ tag_set (H:=ascii_host) names) ∧
  tags_wf d'.
Proof.
  apply (setPictureTags_idempotent (HS:=ascii_host) 2).
  - apply tags_wf_intro.
    + apply (bool_decide_unpack _). vm_compute. exact I.
    + apply (bool_decide_unpack _). vm_compute. exact I.
    + cbn. lia.
  - vm_compute. reflexivity.
Defined.


(** ** Tag counts *)

Lemma picture_tags_wf_intro (d : Db) :
  set_Forall (λ pt, is_Some (pictures d !! pt.1) ∧
                    map_Exists (λ _ t, t = pt.2) (tags d))
             (picture_tags d) →
  picture_tags_wf d.
Proof.
  intros Hall p t Hpt. destruct (Hall _ Hpt) as [Hp (n & t' & Hn & ->)].
  split; [done|]. by exists n.
Qed.

Section tag_counts.
Implicit Types (d : Db) (n : jsstring) (t : Z).

#[local] Instance name_le_trans :
  Transitive (λ a b : jsstring * Z, a.1 = b.1 ∨ lexico a.1 b.1).
Proof.
  intros a b c [Hab|Hab] [Hbc|Hbc].
  - left. congruence.
  - right. by rewrite Hab.
  - right. by rewrite <- Hbc.
  - right. by etrans.
Qed.

#[local] Instance name_le_total :
  Total (λ a b : jsstring * Z, a.1 = b.1 ∨ lexico a.1 b.1).
Proof.
  intros a b. destruct (trichotomy lexico a.1 b.1) as [?|[?|?]]; eauto.
Qed.

Lemma tag_count_pictures d n t :
  picture_tags_wf d →
  tags d !! n = Some t →
  size (filter (λ pt, pt.2 = t) (picture_tags d)) =
    length (filter (λ p, tagged n d p = true) (pictures_by_id d)).
Proof.
  intros Hfk Hn.
  set (L := filter (λ p, tagged n d p = true) (pictures_by_id d)).
  assert (filter (λ pt, pt.2 = t) (picture_tags d)
          = list_to_set ((λ p, (id p, t)) <$> L)) as ->.
  { apply set_eq. intros [p' t'].
    rewrite elem_of_filter, elem_of_list_to_set, list_elem_of_fmap. cbn.
    unfold L. split.
    - intros [-> Hpt]. destruct (Hfk _ _ Hpt) as [[c Hc] _].
      exists {| id := p'; cols := c |}. split; [done|].
      apply list_elem_of_filter. split.
      + unfold tagged. rewrite Hn. by apply bool_decide_eq_true.
      + by apply elem_of_pictures_by_id.
    - intros (p & [= -> ->] & [Htag _]%list_elem_of_filter).
      unfold tagged in Htag. rewrite Hn in Htag.
      by apply bool_decide_eq_true in Htag. }
  rewrite size_list_to_set, length_fmap; [done|].
  rewrite (list_fmap_compose id (λ i, (i, t))).
  apply NoDup_fmap_2; [by intros ?? [= ->]|].
  eapply sublist_NoDup; [apply getAllPictureIds_NoDup|].
  apply fmap_sublist, sublist_filter.
Qed.

(** X14. [listTagsWithCount] lists every row of the tags table once, in
    ascending name order, also the tags that no picture carries; the count
    it gives for a tag is the number of pictures whose tag list holds the
    name, which is what [countPictures] returns for that name (given the
    FOREIGN KEY guarantee that associations point at existing rows). *)
Theorem listTagsWithCount_counts_pictures d :
  picture_tags_wf d →
  StronglySorted (λ a b, a = b ∨ lexico a b) (listTagsWithCount d).*1 ∧
  NoDup (listTagsWithCount d).*1 ∧
  (∀ n, n ∈ (listTagsWithCount d).*1 ↔ is_Some (tags d !! n)) ∧
  (∀ n k, (n, k) ∈ listTagsWithCount d →
     k = Z.of_nat (length (filter (λ p, n ∈ getPictureTags (id p) d)
                                  (pictures_by_id d))) ∧
     (n ≠ [] → k = countPictures (Some n) d)).
Proof.
  intros Hfk. unfold listTagsWithCount.
  set (R := λ a b : jsstring * Z, a.1 = b.1 ∨ lexico a.1 b.1).
  assert (((λ x : jsstring * Z,
              (x.1, Z.of_nat (size (filter (λ pt, pt.2 = x.2)
                                           (picture_tags d)))))
             <$> merge_sort R (map_to_list (tags d))).*1
          = (merge_sort R (map_to_list (tags d))).*1) as Hnames.
  { rewrite <- list_fmap_compose. by apply list_fmap_ext. }
  rewrite Hnames. split_and!.
  - eapply StronglySorted_fmap; [|apply (StronglySorted_merge_sort R)].
    by intros [??] [??].
  - rewrite merge_sort_Permutation. apply NoDup_fst_map_to_list.
  - intros n. rewrite merge_sort_Permutation, list_elem_of_fmap. split.
    + intros ([n' t] & -> & Hin%elem_of_map_to_list). eauto.
    + intros [t Ht]. exists (n, t). by rewrite elem_of_map_to_list.
  - intros n k ([n' t] & [= -> ->] & Hin)%list_elem_of_fmap.
    rewrite merge_sort_Permutation in Hin.
    apply elem_of_map_to_list in Hin. cbn [fst snd].
    rewrite (tag_count_pictures d n' t Hfk Hin).
    split.
    + do 2 f_equal. apply list_filter_iff. intros p. apply tagged_spec.
    + intros Hne. unfold countPictures, select_pictures.
      by destruct n'.
Qed.

Lemma listTagsWithCount_counts_pictures_witness :
  StronglySorted (λ a b, a = b ∨ lexico a b)
    (listTagsWithCount gallery_tagged).*1 ∧
  NoDup (listTagsWithCount gallery_tagged).*1 ∧
  (∀ n, n ∈ (listTagsWithCount gallery_tagged).*1
        ↔ is_Some (tags gallery_tagged !! n)) ∧
  (∀ n k, (n, k) ∈ listTagsWithCount gallery_tagged →
     k = Z.of_nat (length (filter (λ p, n ∈ getPictureTags (id p) gallery_tagged)
                                  (pictures_by_id gallery_tagged))) ∧
     (n ≠ [] → k = countPictures (Some n) gallery_tagged)).
Proof.
  apply (listTagsWithCount_counts_pictures gallery_tagged).
  apply picture_tags_wf_intro, (bool_decide_unpack _).
  vm_compute. exact I.
Defined.
End tag_counts.

(** ** The conditions on the store are invariants *)

Section invariants.
Context `{HS : StringHost} `{HR : RandomSource}.
Implicit Types (d : Db) (w : World) (op : Op) (i : Z) (tok : jsstring).

Lemma db_wf_empty : db_wf empty_db.
Proof.
  split_and!.
  - split; [done|]. apply map_Forall_empty.
  - intros i j ci cj Hi. cbn in Hi. by rewrite lookup_empty in Hi.
  - by apply tags_wf_empty.
  - intros n t Hn. cbn in Hn. by rewrite lookup_empty in Hn.
  - intros p t Hpt. cbn in Hpt. by apply elem_of_empty in Hpt.
  - apply empty_db_cursors_nonneg.
  - intros t row Ht. unfold getToken in Ht. cbn in Ht.
    by rewrite lookup_empty in Ht.
Qed.

Lemma random_states_wf_ext d d' :
  tokens d' = tokens d → pictures_seq d ≤ pictures_seq d' →
  random_states_wf d → random_states_wf d'.
Proof.
  intros Htok Hseq Hr t row Hrow. unfold getToken in Hrow.
  rewrite Htok in Hrow. specialize (Hr t row Hrow).
  destruct (random_ids row); [|done]. destruct Hr as (? & ? & Hall).
  split; [done|]. split; [done|]. eapply Forall_impl; [done|]. cbn. lia.
Qed.

Lemma cursors_nonneg_ext d d' :
  tokens d' = tokens d → cursors_nonneg d → cursors_nonneg d'.
Proof.
  intros Htok Hc t row Hrow. unfold getToken in Hrow. rewrite Htok in Hrow.
  by apply (Hc t row).
Qed.

Lemma addPicture_db_wf now file day place d i d' :
  db_wf d → addPicture now file day place d = Some (i, d') → db_wf d'.
Proof.
  intros (Hp & Hf & Ht & Hn & Hpt & Hc & Hr) Hadd.
  pose proof (addPicture_pictures_wf _ _ _ _ _ _ _ Hp Hadd) as Hp'.
  pose proof (pictures_wf_fresh _ Hp) as Hfresh.
  unfold addPicture in Hadd. case_bool_decide as Hex; [done|].
  injection Hadd as <- <-. split_and!; try done.
  - intros a b ca cb. cbn. rewrite !lookup_insert.
    repeat case_decide; intros; simplify_eq/=; try done.
    + exfalso. apply Hex. by exists b, cb.
    + exfalso. apply Hex. by exists a, ca.
    + by eapply Hf.
  - intros p t Hin. destruct (Hpt p t Hin) as [[c Hc'] Hn']. split; [|done].
    cbn. rewrite lookup_insert. case_decide; eauto.
  - eapply random_states_wf_ext; [| |done]; [done|cbn; lia].
Qed.

Lemma deletePicture_db_wf i d : db_wf d → db_wf (deletePicture i d).2.
Proof.
  intros (Hp & Hf & Ht & Hn & Hpt & Hc & Hr). unfold deletePicture.
  destruct (getPictureById i d) as [pic|]; [|done]. cbn [snd].
  split_and!; try done.
  - split; [apply Hp|]. apply map_Forall_delete, Hp.
  - intros a b ca cb. cbn.
    intros [_ Ha]%lookup_delete_Some [_ Hb]%lookup_delete_Some.
    by eapply Hf.
  - intros p t [Hne Hin]%elem_of_filter. cbn in Hne.
    destruct (Hpt p t Hin) as [Hpic Hn']. split; [|done].
    cbn. by rewrite lookup_delete_ne.
Qed.

Lemma alter_row_db_wf (f : PictureCols → PictureCols) i d :
  (∀ c, filename (f c) = filename c) →
  db_wf d → db_wf (with_pictures (alter f i (pictures d)) d).
Proof.
  intros Hfile (Hp & Hf & Ht & Hn & Hpt & Hc & Hr).
  assert (∀ k c', alter f i (pictures d) !! k = Some c' →
                  ∃ c, pictures d !! k = Some c ∧ filename c' = filename c)
    as Hrow.
  { intros k c' [[-> (c & Hk & ->)]|[_ Hk]]%lookup_alter_Some; eauto. }
  split_and!; try done.
  - split; [apply Hp|]. apply map_Forall_lookup. intros k c' Hk. cbn in Hk.
    apply Hrow in Hk as (c & Hk & _). destruct Hp as [_ Hp].
    apply (map_Forall_lookup_1 _ _ _ _ Hp Hk).
  - intros a b ca cb. cbn.
    intros (ca' & Ha & Hfa)%Hrow (cb' & Hb & Hfb)%Hrow Heq.
    eapply Hf; [done..|]. congruence.
  - intros p t Hin. destruct (Hpt p t Hin) as [Hpic Hn']. split; [|done].
    cbn. rewrite lookup_alter. case_decide; [subst p|done].
    by apply fmap_is_Some.
Qed.

Lemma updatePictureDescription_db_wf i text d :
  db_wf d → db_wf (updatePictureDescription i text d).2.
Proof.
  intros Hd. unfold updatePictureDescription.
  destruct (getPictureById i d); [|done]. by apply alter_row_db_wf.
Qed.

Lemma updatePictureDateLocation_db_wf i day place d :
  db_wf d → db_wf (updatePictureDateLocation i day place d).2.
Proof.
  intros Hd. unfold updatePictureDateLocation.
  destruct (getPictureById i d); [|done]. by apply alter_row_db_wf.
Qed.

(** What [setPictureTags] does to the pictures table: nothing. *)
Lemma setPictureTags_pictures i names d r :
  tags_wf d → setPictureTags i names d = Some r →
  pictures r.2 = pictures d ∧ pictures_seq r.2 = pictures_seq d ∧
  tokens r.2 = tokens d.
Proof.
  intros Hwf Hset. destruct (pictures d !! i) as [c|] eqn:Hc.
  - destruct (setPictureTags_eq i names d Hwf (mk_is_Some _ _ Hc))
      as (Heq & _ & _ & Hp2 & Hseq2 & Htok2 & _).
    rewrite Heq in Hset. by injection Hset as <-.
  - unfold setPictureTags, getPictureById in Hset. rewrite Hc in Hset.
    by injection Hset as <-.
Qed.

Lemma setPictureTags_db_wf i names d r :
  db_wf d → setPictureTags i names d = Some r → db_wf r.2.
Proof.
  intros (Hp & Hf & Ht & Hn & Hpt & Hc & Hr) Hset.
  destruct (pictures d !! i) as [c|] eqn:Hpic.
  2:{ unfold setPictureTags, getPictureById in Hset. rewrite Hpic in Hset.
      injection Hset as <-. by split_and!. }
  destruct (setPictureTags_eq i names d Ht (mk_is_Some _ _ Hpic))
    as (Heq & Hwf2 & Hsub & Hp2 & Hseq2 & Htok2 & Hnd & Hel & Hsome).
  pose proof (mapM_getOrCreateTagId_new names
                (with_picture_tags
                   (filter (λ pt, pt.1 ≠ i) (picture_tags d)) d)) as Hnew.
  set (d2 := (mapM getOrCreateTagId names _).2) in *.
  rewrite Heq in Hset. injection Hset as <-. cbn [snd].
  split_and!.
  - unfold pictures_wf. cbn. by rewrite Hp2, Hseq2.
  - unfold filenames_unique. cbn. by rewrite Hp2.
  - done.
  - intros n t Hnt. destruct (Hnew n (mk_is_Some _ _ Hnt)) as [[t0 Hold]|Hin].
    + by apply (Hn n t0).
    + apply elem_of_tag_set in Hin as (Hne & name & _ & ->).
      split; [done|]. apply normalizeTag_idempotent.
  - intros p t. cbn.
    rewrite elem_of_union, elem_of_list_to_set, list_elem_of_fmap,
      elem_of_filter.
    intros [(t' & [= -> ->] & Hin)|[Hne Hin]].
    + split; [rewrite Hp2; eauto|].
      apply Hel in Hin as (n & _ & Hn'). eauto.
    + destruct (Hpt _ _ Hin) as [Hpic' [n Hn']].
      split; [by rewrite Hp2|]. exists n. by eapply lookup_weaken.
  - by eapply cursors_nonneg_ext.
  - eapply random_states_wf_ext; [| |done]; [done|cbn; lia].
Qed.

Lemma createToken_db_wf tok now d r :
  db_wf d → createToken tok now d = Some r → db_wf r.2.
Proof.
  intros (Hp & Hf & Ht & Hn & Hpt & Hc & Hr). unfold createToken.
  destruct (tokens d !! tok) eqn:Hfree; [done|]. intros [= <-]. cbn [snd].
  split_and!; try done.
  - intros t row. unfold getToken. cbn. rewrite lookup_insert.
    case_decide; [|apply Hc]. by intros [= <-].
  - intros t row. unfold getToken. cbn. rewrite lookup_insert.
    case_decide; [|apply Hr]. by intros [= <-].
Qed.

Lemma deleteToken_db_wf tok d : db_wf d → db_wf (deleteToken tok d).2.
Proof.
  intros (Hp & Hf & Ht & Hn & Hpt & Hc & Hr). unfold deleteToken. cbn [snd].
  split_and!; try done.
  - intros t row. unfold getToken. cbn.
    intros [_ Hrow]%lookup_delete_Some. by apply (Hc t row).
  - intros t row. unfold getToken. cbn.
    intros [_ Hrow]%lookup_delete_Some. by apply (Hr t row).
Qed.

Lemma updateTokenRandomState_states_wf tok ids idx d :
  random_states_wf d → NoDup ids →
  0 ≤ idx < Z.of_nat (length ids) →
  Forall (λ i, 0 < i ≤ pictures_seq d) ids →
  random_states_wf (updateTokenRandomState tok ids idx d).
Proof.
  intros Hr Hnd Hidx Hall t row. unfold updateTokenRandomState.
  rewrite getToken_alter_token. case_decide; [subst t|apply Hr].
  destruct (getToken tok d); [|done]. by intros [= <-].
Qed.

Lemma updateTokenIndex_states_wf tok k d :
  random_states_wf d → random_states_wf (updateTokenIndex tok k d).
Proof.
  intros Hr t row. unfold updateTokenIndex.
  rewrite getToken_alter_token. case_decide; [subst t|apply Hr].
  destruct (getToken tok d) as [r|] eqn:Hrow; [|done].
  intros [= <-]. cbn. apply (Hr tok r Hrow).
Qed.

Lemma regenerate_states_wf w :
  pictures_wf (db w) →
  NoDup (regenerate w).1.1 ∧
  Forall (λ i, 0 < i ≤ pictures_seq (db w)) (regenerate w).1.1.
Proof.
  intros [_ Hp]. destruct (regenerate_spec w) as (Hperm & _ & _). split.
  - rewrite Hperm. apply getAllPictureIds_NoDup.
  - rewrite Hperm. apply Forall_forall.
    intros i [c Hi]%elem_of_getAllPictureIds.
    apply (map_Forall_lookup_1 _ _ _ _ Hp Hi).
Qed.

Lemma serve_cursor_states_wf tok ids idx w :
  pictures_wf (db w) → random_states_wf (db w) →
  getPictureCount (db w) ≠ 0 →
  NoDup ids → Forall (λ i, 0 < i ≤ pictures_seq (db w)) ids → 0 ≤ idx →
  random_states_wf (db (serve_cursor tok ids idx w).2).
Proof.
  intros Hp Hr Hn Hnd Hall Hidx. rewrite serve_cursor_run. cbn [snd].
  case_bool_decide; cbn [db with_db].
  - destruct (regenerate_spec w) as (_ & Hzero & Hdb).
    destruct (regenerate_states_wf w Hp). rewrite Hdb.
    apply updateTokenRandomState_states_wf; try done.
    rewrite Hzero, regenerate_length.
    apply getPictureCount_pos in Hn. lia.
  - apply updateTokenRandomState_states_wf; try done. lia.
Qed.

Lemma photo_states_wf req w :
  pictures_wf (db w) → random_states_wf (db w) →
  random_states_wf (db (photo req w).2).
Proof.
  intros Hp Hr.
  destruct (photo_cases req w)
    as [[Hq ->]|(tok & Hq & Hne & [[_ ->]|[(_ & _ & ->)|
         (row & Hn & Hrow & ->)]])]; cbn zeta; cbn [fst snd]; try done.
  case_bool_decide.
  - rewrite photo_random_run. cbn zeta.
    assert (getTokenRandomState tok (db w)
            = Some (random_ids row, random_index row)) as ->.
    { unfold getTokenRandomState. unfold getToken in Hrow. by rewrite Hrow. }
    cbn [mbind option_bind fst snd from_option].
    destruct (exhausted (random_ids row) (random_index row)) eqn:Hex.
    + destruct (regenerate_spec w) as (_ & Hzero & Hdb).
      destruct (regenerate_states_wf w Hp).
      apply serve_cursor_states_wf; rewrite ?Hdb; try done. lia.
    + pose proof (Hr tok row Hrow) as Hwf.
      destruct (random_ids row) as [ids|]; [|done].
      destruct Hwf as (Hnd & Hidx & Hall).
      cbn [default from_option Datatypes.id].
      apply serve_cursor_states_wf; try done. lia.
  - rewrite photo_next_run. cbn [snd db with_db].
    by apply updateTokenIndex_states_wf.
Qed.

Lemma photo_db_wf req w : db_wf (db w) → db_wf (db (photo req w).2).
Proof.
  intros (Hp & Hf & Ht & Hn & Hpt & Hc & Hr).
  pose proof (photo_cursors_nonneg req w Hc) as Hc'.
  pose proof (photo_states_wf req w Hp Hr) as Hr'.
  destruct (photo_db_cases req w) as [Hdb|(tok & _ & Hdb)].
  { rewrite Hdb in *. by split_and!. }
  case_bool_decide;
    [destruct Hdb as (ids & idx & Hdb)|destruct Hdb as (k & Hdb)];
    rewrite Hdb in *; by split_and!.
Qed.

Lemma apply_op_db_wf op w w' :
  db_wf (db w) → apply_op op w = Some w' → db_wf (db w').
Proof.
  intros Hd. destruct op; cbn [apply_op].
  - destruct (addPicture now file day place (db w)) as [[i d']|] eqn:E; [|done].
    intros [= <-]. by eapply addPicture_db_wf.
  - intros [= <-]. by apply deletePicture_db_wf.
  - intros [= <-]. by apply updatePictureDescription_db_wf.
  - intros [= <-]. by apply updatePictureDateLocation_db_wf.
  - destruct (setPictureTags i names (db w)) as [r|] eqn:E; [|done].
    intros [= <-]. by eapply setPictureTags_db_wf.
  - destruct (createToken token now (db w)) as [r|] eqn:E; [|done].
    intros [= <-]. by eapply createToken_db_wf.
  - intros [= <-]. by apply deleteToken_db_wf.
  - intros [= <-]. by apply photo_db_wf.
Qed.

Lemma apply_ops_db_wf ops w w' :
  db_wf (db w) → apply_ops ops w = Some w' → db_wf (db w').
Proof.
  revert w. induction ops as [|op ops IH]; intros w Hd; cbn [apply_ops].
  - by intros [= <-].
  - destruct (apply_op op w) as [w1|] eqn:E; [|done]. cbn.
    apply IH. by eapply apply_op_db_wf.
Qed.

(** What one call does to the ids that have been given out. *)
Lemma apply_op_keeps_ids op w w' :
  db_wf (db w) → apply_op op w = Some w' →
  pictures_seq (db w) ≤ pictures_seq (db w') ∧
  ∀ i c', i ≤ pictures_seq (db w) → pictures (db w') !! i = Some c' →
    ∃ c, pictures (db w) !! i = Some c ∧ filename c' = filename c ∧
         pic_created_at c' = pic_created_at c.
Proof.
  intros (Hp & _ & Ht & _) Hop.
  assert (∀ d', pictures d' = pictures (db w) →
                pictures_seq d' = pictures_seq (db w) →
                pictures_seq (db w) ≤ pictures_seq d' ∧
                ∀ i c', i ≤ pictures_seq (db w) → pictures d' !! i = Some c' →
                  ∃ c, pictures (db w) !! i = Some c ∧
                       filename c' = filename c ∧
                       pic_created_at c' = pic_created_at c) as Hsame.
  { intros d' -> ->. split; [lia|]. eauto. }
  assert (∀ (f : PictureCols → PictureCols) j,
            (∀ c, filename (f c) = filename c ∧
                  pic_created_at (f c) = pic_created_at c) →
            pictures_seq (db w) ≤ pictures_seq (db w) ∧
            ∀ i c', i ≤ pictures_seq (db w) →
              alter f j (pictures (db w)) !! i = Some c' →
              ∃ c, pictures (db w) !! i = Some c ∧
                   filename c' = filename c ∧
                   pic_created_at c' = pic_created_at c) as Halter.
  { intros f j Hf. split; [lia|].
    intros i c' _ [[-> (c & Hk & ->)]|[_ Hk]]%lookup_alter_Some; [|eauto].
    exists c. split; [done|]. apply Hf. }
  destruct op; cbn [apply_op] in Hop.
  - destruct (addPicture now file day place (db w)) as [[i d']|] eqn:E; [|done].
    injection Hop as <-. cbn [db set_db with_db].
    apply addPicture_Some in E as (-> & -> & -> & _).
    split; [lia|]. intros i c' Hi. rewrite lookup_insert_ne by lia. eauto.
  - injection Hop as <-. cbn [db set_db with_db]. unfold deletePicture.
    destruct (getPictureById i (db w)); [|by apply Hsame]. cbn.
    split; [lia|]. intros j c' _ [_ Hj]%lookup_delete_Some. eauto.
  - injection Hop as <-. cbn [db set_db with_db].
    unfold updatePictureDescription.
    destruct (getPictureById i (db w)); [|by apply Hsame]. by apply Halter.
  - injection Hop as <-. cbn [db set_db with_db].
    unfold updatePictureDateLocation.
    destruct (getPictureById i (db w)); [|by apply Hsame]. by apply Halter.
  - destruct (setPictureTags i names (db w)) as [r|] eqn:E; [|done].
    injection Hop as <-. cbn [db set_db with_db].
    destruct (setPictureTags_pictures _ _ _ _ Ht E) as (? & ? & _).
    by apply Hsame.
  - destruct (createToken token now (db w)) as [r|] eqn:E; [|done].
    injection Hop as <-. cbn [db set_db with_db]. unfold createToken in E.
    destruct (tokens (db w) !! token); [done|]. injection E as <-.
    by apply Hsame.
  - injection Hop as <-. by apply Hsame.
  - injection Hop as <-.
    apply Hsame; [apply photo_pictures|].
    destruct (photo_db_cases req w) as [->|(tok & _ & Hdb)]; [done|].
    case_bool_decide;
      [destruct Hdb as (? & ? & ->)|destruct Hdb as (? & ->)]; done.
Qed.

(** X15. The conditions the other theorems assume of a store are
    invariants of the module: starting from a store that satisfies them
    (the empty one does), every sequence of uploads, deletions, updates,
    tag assignments, token creations and revocations and deliveries in
    either mode that raises no error leaves a store where picture ids are
    positive and bounded by the sequence counter, file names are unique,
    tag ids are unique and tag names are non-empty normalised names, every
    association points at an existing picture and tag, no cursor is
    negative, and every cached permutation is duplicate-free with its
    cursor inside it. *)
Theorem store_conditions_are_invariant ops w w' :
  db_wf (db w) → apply_ops ops w = Some w' →
  db_wf (db w') ∧
  ∀ tok row ids,
    getToken tok (db w') = Some row → random_ids row = Some ids →
    is_Some (array_get ids (random_index row)) ∧
    exhausted (random_ids row) (random_index row) = false.
Proof.
  intros Hd Hops. pose proof (apply_ops_db_wf ops w w' Hd Hops) as Hd'.
  split; [done|]. intros tok row ids Hrow Hids.
  destruct Hd' as (_ & _ & _ & _ & _ & _ & Hr).
  specialize (Hr tok row Hrow). rewrite Hids in Hr |- *.
  destruct Hr as (_ & Hidx & _). split.
  - unfold array_get. rewrite bool_decide_eq_true_2 by lia.
    apply lookup_lt_is_Some_2. lia.
  - destruct ids as [|j ids]; [cbn in Hidx; lia|].
    cbn -[length]. apply bool_decide_eq_false. lia.
Qed.

(** X16. Picture ids are never reused: over any sequence of calls, the
    sequence counter never falls, and an id that had been given out
    denotes afterwards the same file as before (same file name and upload
    time) or nothing; so an id that was deleted, or that a cached
    permutation still holds, never comes to denote another picture. *)
Theorem picture_ids_are_never_reused ops w w' :
  db_wf (db w) → apply_ops ops w = Some w' →
  pictures_seq (db w) ≤ pictures_seq (db w') ∧
  ∀ i c', i ≤ pictures_seq (db w) → pictures (db w') !! i = Some c' →
    ∃ c, pictures (db w) !! i = Some c ∧ filename c' = filename c ∧
         pic_created_at c' = pic_created_at c.
Proof.
  revert w. induction ops as [|op ops IH]; intros w Hd; cbn [apply_ops].
  - intros [= <-]. split; [lia|]. eauto.
  - destruct (apply_op op w) as [w1|] eqn:E; [|done]. cbn. intros Hops.
    destruct (apply_op_keeps_ids op w w1 Hd E) as [Hseq1 Hids1].
    destruct (IH w1 (apply_op_db_wf op w w1 Hd E) Hops) as [Hseq2 Hids2].
    split; [lia|]. intros i c' Hi Hc'.
    destruct (Hids2 i c' ltac:(lia) Hc') as (c1 & Hc1 & Hf1 & Ht1).
    destruct (Hids1 i c1 Hi Hc1) as (c & Hc & Hf & Ht0).
    exists c. split; [done|]. split; congruence.
Qed.
End invariants.

Lemma store_conditions_are_invariant_witness :
  let w' := default (start empty_db)
              (apply_ops (H:=ascii_host) (H0:=quarters_source) history
                         (start empty_db)) in
  db_wf (H:=ascii_host) (db w') ∧
  ∀ tok row ids,
    getToken tok (db w') = Some row → random_ids row = Some ids →
    is_Some (array_get ids (random_index row)) ∧
    exhausted (random_ids row) (random_index row) = false.
Proof.
  apply (store_conditions_are_invariant (HS:=ascii_host) (HR:=quarters_source)
           history (start empty_db)).
  - apply db_wf_empty.
  - vm_compute. reflexivity.
Defined.

Lemma picture_ids_are_never_reused_witness :
  let w := default (start empty_db)
             (apply_ops (H:=ascii_host) (H0:=quarters_source)
                        (take 9 history) (start empty_db)) in
  let w' := default (start empty_db)
              (apply_ops (H:=ascii_host) (H0:=quarters_source)
                         (drop 9 history) w) in
  pictures_seq (db w) ≤ pictures_seq (db w') ∧
  ∀ i c', i ≤ pictures_seq (db w) → pictures (db w') !! i = Some c' →
    ∃ c, pictures (db w) !! i = Some c ∧ filename c' = filename c ∧
         pic_created_at c' = pic_created_at c.
Proof.
  apply (picture_ids_are_never_reused (HS:=ascii_host) (HR:=quarters_source)
           (drop 9 history)).
  - apply (apply_ops_db_wf (HS:=ascii_host) (HR:=quarters_source)
             (take 9 history) (start empty_db)).
    + apply db_wf_empty.
    + vm_compute. reflexivity.
  - vm_compute. reflexivity.
Defined.

(** ** A cycle in progress *)

Section cached_cycle.
Context `{HR : RandomSource}.
Implicit Types (req : Request) (tok : jsstring) (w : World) (ids : list Z).

(** X17. A randomized cycle that is in progress is completed as it was
    cached: from a token whose cursor is inside its cached permutation, the
    deliveries up to the end of the permutation answer, in order, for the
    ids from the cursor on, each with the picture of that id as the store
    has it now, or 404 'Not found' when that picture is gone.  So a picture
    that is not in the rest of the cached permutation, such as one uploaded
    after the permutation was made, is not served before the next
    permutation is drawn. *)
Theorem cached_cycle_is_completed req tok row ids w :
  query_token req = Some tok → tok ≠ [] →
  mode_of req = str "random" →
  getPictureCount (db w) ≠ 0 →
  getToken tok (db w) = Some row →
  random_ids row = Some ids →
  0 ≤ random_index row < Z.of_nat (length ids) →
  let rest := drop (Z.to_nat (random_index row)) ids in
  (deliveries (length rest) req w).1 =
    (λ i, answer req tok (getPictureById i (db w))) <$> rest ∧
  ∀ r pid, r ∈ (deliveries (length rest) req w).1 →
           served_id r = Some pid →
           pid ∈ rest ∧ is_Some (pictures (db w) !! pid).
Proof.
  intros Hq Hne Hmode Hn Hrow Hids Hidx rest.
  assert ((deliveries (length rest) req w).1 =
          (λ i, answer req tok (getPictureById i (db w))) <$> rest) as Hrun.
  { unfold rest. set (idx := Z.to_nat (random_index row)).
    rewrite length_drop.
    destruct (length ids - idx)%nat as [|m] eqn:Hm; [lia|].
    cbn [deliveries]. rewrite !state_bind_run. cbn [mret state_ret fst snd].
    rewrite (photo_random_step req tok) by eauto. cbn [fst snd].
    rewrite photo_random_run. cbn zeta.
    assert (getTokenRandomState tok (db w)
            = Some (Some ids, Z.of_nat idx)) as ->.
    { unfold getTokenRandomState. unfold getToken in Hrow.
      rewrite Hrow. cbn. rewrite Hids. do 2 f_equal. lia. }
    cbn [mbind option_bind fst snd from_option default Datatypes.id].
    rewrite exhausted_in_range by lia.
    apply (serve_cursor_cycle req tok); eauto. lia. }
  split; [done|]. intros r pid Hr Hpid. rewrite Hrun in Hr.
  apply list_elem_of_fmap in Hr as (i & -> & Hi).
  unfold answer, getPictureById in Hpid.
  destruct (pictures (db w) !! i) as [c|] eqn:Hc; [|done].
  cbn in Hpid. injection Hpid as <-. eauto.
Qed.
End cached_cycle.

Lemma cached_cycle_is_completed_witness :
  let rest := drop (Z.to_nat 1) [2; 5; 1] in
  (deliveries (H:=quarters_source) (length rest) random_request
     (start gallery_stale)).1 =
    (λ i, answer random_request token_T
            (getPictureById i (db (start gallery_stale)))) <$> rest ∧
  ∀ r pid,
    r ∈ (deliveries (H:=quarters_source) (length rest) random_request
           (start gallery_stale)).1 →
    served_id r = Some pid →
    pid ∈ rest ∧ is_Some (pictures (db (start gallery_stale)) !! pid).
Proof.
  apply (cached_cycle_is_completed (HR:=quarters_source) random_request
           token_T
           {| current_index := 0; random_ids := Some [2; 5; 1];
              random_index := 1; tok_created_at := 0 |}
           [2; 5; 1] (start gallery_stale)).
  - reflexivity.
  - discriminate.
  - reflexivity.
  - vm_compute. discriminate.
  - vm_compute. reflexivity.
  - reflexivity.
  - cbn. lia.
Defined.

(** ** Numbers written and read back *)

Section numbers.
Implicit Types (n : N) (z : Z) (ds s acc : jsstring).

Lemma digits_value_snoc ds (d : N) :
  digits_value (ds ++ [d]) = 10 * digits_value ds + (Z.of_N d - 48).
Proof. unfold digits_value. by rewrite foldl_app. Qed.

Lemma pos_lt_size (p : positive) :
  (N.pos p < 2 ^ N.of_nat (Pos.size_nat p))%N.
Proof.
  induction p as [p IH|p IH|]; cbn [Pos.size_nat].
  - rewrite Nat2N.inj_succ, N.pow_succ_r'. lia.
  - rewrite Nat2N.inj_succ, N.pow_succ_r'. lia.
  - cbn. lia.
Qed.

Lemma decimal_spec fuel n acc :
  (0 < n < 2 ^ N.of_nat fuel)%N →
  ∃ ds, decimal fuel n acc = ds ++ acc ∧ ds ≠ [] ∧
        Forall (λ c, is_digit c = true) ds ∧
        digits_value ds = Z.of_N n.
Proof.
  revert n acc. induction fuel as [|fuel IH]; intros n acc [Hpos Hlt].
  { cbn in Hlt. lia. }
  cbn [decimal]. pose proof (N.mod_upper_bound n 10 ltac:(lia)) as Hmod.
  assert (is_digit (48 + n mod 10) = true) as Hd.
  { unfold is_digit. apply bool_decide_eq_true.
    revert Hmod. generalize (n mod 10)%N. intros m Hm. lia. }
  pose proof (N.div_mod n 10 ltac:(lia)) as Hdiv.
  destruct (n / 10 =? 0)%N eqn:E.
  - apply N.eqb_eq in E. exists [(48 + n mod 10)%N].
    split; [done|]. split; [done|]. split.
    + by constructor.
    + unfold digits_value. cbn. lia.
  - apply N.eqb_neq in E.
    destruct (IH (n / 10)%N ((48 + n mod 10)%N :: acc))
      as (ds & Heq & Hne & Hall & Hval).
    { split; [lia|]. apply N.Div0.div_lt_upper_bound.
      rewrite Nat2N.inj_succ, N.pow_succ_r' in Hlt. lia. }
    exists (ds ++ [(48 + n mod 10)%N]). rewrite Heq, <- app_assoc.
    split; [done|]. split; [by destruct ds|]. split.
    + apply Forall_app. split; [done|]. by constructor.
    + rewrite digits_value_snoc, Hval. lia.
Qed.

Lemma take_digits_all ds s :
  Forall (λ c, is_digit c = true) ds →
  head_matches is_digit s = false →
  take_digits (ds ++ s) = ds.
Proof.
  intros Hall Hs. induction Hall as [|c ds Hc _ IH].
  - destruct s as [|c s]; [done|]. cbn in Hs.
    cbn [app take_digits]. by rewrite Hs.
  - cbn [app take_digits]. fold (ds ++ s). by rewrite Hc, IH.
Qed.

Lemma is_digit_not_space c : is_digit c = true → is_space c = false.
Proof.
  unfold is_digit, is_space. intros Hc%bool_decide_eq_true.
  apply orb_false_intro; apply bool_decide_eq_false.
  - rewrite !elem_of_cons, elem_of_nil. lia.
  - lia.
Qed.

(** [parseInt] reads back what [String] writes, also when white space comes
    before it and something that is not a digit comes after it. *)
Lemma parseInt_String_of_number z ws rest :
  Forall (λ c, is_space c = true) ws →
  head_matches is_digit rest = false →
  parseInt (ws ++ String_of_number z ++ rest) = Some z.
Proof.
  intros Hws Hrest.
  assert (∀ s, head_matches is_space s = false →
               drop_while is_space (ws ++ s) = s) as Htrim.
  { intros s Hs. induction Hws as [|c ws Hc _ IH]; cbn.
    - by apply drop_while_head.
    - by rewrite Hc. }
  assert (∀ p, ∃ ds, decimal (Pos.size_nat p) (N.pos p) [] = ds ∧
                     (∃ c ds', ds = c :: ds' ∧ is_digit c = true) ∧
                     Forall (λ c, is_digit c = true) ds ∧
                     digits_value ds = Z.pos p) as Hdec.
  { intros p.
    destruct (decimal_spec (Pos.size_nat p) (N.pos p) [])
      as (ds & Heq & Hne & Hall & Hval).
    { split; [lia|apply pos_lt_size]. }
    rewrite app_nil_r in Heq. exists ds. split; [done|].
    split; [|by split]. destruct Hall as [|c ds' Hc _]; [done|]. eauto. }
  unfold parseInt. destruct z as [|p|p]; cbn [String_of_number].
  - rewrite Htrim by done. cbn [app].
    rewrite !bool_decide_eq_false_2 by done.
    change (48%N :: rest) with ([48%N] ++ rest).
    rewrite take_digits_all; [done|by repeat constructor|done].
  - destruct (Hdec p) as (ds & -> & (c & ds' & -> & Hc) & Hall & Hval).
    rewrite Htrim by (cbn; by apply is_digit_not_space).
    cbn [app]. unfold is_digit in Hc. apply bool_decide_eq_true in Hc.
    rewrite !bool_decide_eq_false_2 by lia.
    change (c :: ds' ++ rest) with ((c :: ds') ++ rest).
    rewrite take_digits_all by done. by rewrite Hval.
  - destruct (Hdec p) as (ds & -> & _ & Hall & Hval).
    rewrite Htrim by done. cbn [app].
    rewrite bool_decide_eq_true_2 by done.
    rewrite take_digits_all by done.
    destruct ds as [|c ds]; [by cbn in Hval|]. rewrite Hval. done.
Qed.
End numbers.

(** ** Settings *)

Section settings.
Implicit Types (cfg : Config) (s : gmap jsstring jsstring) (z : Z).

Lemma String_of_number_nonempty z : String_of_number z ≠ [].
Proof.
  pose proof (parseInt_String_of_number z [] [] ltac:(done) eq_refl) as H.
  intros Heq. cbn in H. rewrite app_nil_r, Heq in H. done.
Qed.

Lemma getMaxResolution_setSetting cfg s z :
  getMaxResolution cfg (setSetting (str "max_resolution") z s) = Some z.
Proof.
  unfold getMaxResolution, getSetting, setSetting. rewrite lookup_insert_eq.
  pose proof (String_of_number_nonempty z) as Hne.
  pose proof (parseInt_String_of_number z [] [] ltac:(done) eq_refl) as Hp.
  cbn in Hp. rewrite app_nil_r in Hp.
  by destruct (String_of_number z).
Qed.

(** X18. The resolution setting round-trips: [PUT /api/admin/settings]
    with a number between [maxResolutionMin] and [maxResolutionMax]
    answers with that number and stores it so that [getMaxResolution], and
    so [GET /api/admin/settings], return it, leaving the other settings
    alone; any other value (not a number, or out of range) is answered 400
    and nothing is stored; without a session both routes answer 401.  On a
    fresh database [getMaxResolution] is the configured default.  (For
    integer values and bounds that JavaScript numbers hold exactly.) *)
Theorem max_resolution_round_trip cfg s z :
  - 2 ^ 53 ≤ maxResolutionMin cfg → maxResolutionMax cfg ≤ 2 ^ 53 →
  - 2 ^ 53 ≤ defaultMaxResolution cfg ≤ 2 ^ 53 →
  (maxResolutionMin cfg ≤ z ≤ maxResolutionMax cfg →
     ∃ s', put_settings cfg true (JsNumber z) s = (Sent z, s') ∧
           getMaxResolution cfg s' = Some z ∧
           get_settings cfg true s' = Sent (Some z) ∧
           ∀ key, key ≠ str "max_resolution" →
                  getSetting key s' = getSetting key s) ∧
  (∀ v, (∀ z', v = JsNumber z' →
               z' < maxResolutionMin cfg ∨ maxResolutionMax cfg < z') →
     ∃ msg, put_settings cfg true v s = (Refused 400 msg, s)) ∧
  (∀ v, put_settings cfg false v s = (Refused 401 (str "Unauthorized"), s)) ∧
  get_settings cfg false s = Refused 401 (str "Unauthorized") ∧
  getMaxResolution cfg (init_settings cfg ∅) = Some (defaultMaxResolution cfg).
Proof.
  intros _ _ _. split_and!.
  - intros Hz. unfold put_settings.
    rewrite !bool_decide_eq_false_2 by lia. cbn [orb].
    eexists. split; [reflexivity|].
    rewrite getMaxResolution_setSetting. split; [done|].
    split; [unfold get_settings; by rewrite getMaxResolution_setSetting|].
    intros key Hkey. unfold getSetting, setSetting.
    by rewrite lookup_insert_ne.
  - intros v Hv. unfold put_settings.
    destruct v as [| | | z'| |]; try by eexists.
    destruct (Hv z' eq_refl).
    + rewrite bool_decide_eq_true_2 by lia. by eexists.
    + rewrite (bool_decide_eq_true_2 (z' > _)) by lia.
      rewrite orb_true_r. by eexists.
  - done.
  - done.
  - unfold init_settings. rewrite lookup_empty.
    apply getMaxResolution_setSetting.
Qed.

Lemma max_resolution_round_trip_witness :
  (maxResolutionMin default_config ≤ 2560 ≤ maxResolutionMax default_config →
     ∃ s', put_settings default_config true (JsNumber 2560) ∅ = (Sent 2560, s') ∧
           getMaxResolution default_config s' = Some 2560 ∧
           get_settings default_config true s' = Sent (Some 2560) ∧
           ∀ key, key ≠ str "max_resolution" →
                  getSetting key s' = getSetting key ∅) ∧
  (∀ v, (∀ z', v = JsNumber z' →
               z' < maxResolutionMin default_config
               ∨ maxResolutionMax default_config < z') →
     ∃ msg, put_settings default_config true v ∅ = (Refused 400 msg, ∅)) ∧
  (∀ v, put_settings default_config false v ∅
        = (Refused 401 (str "Unauthorized"), ∅)) ∧
  get_settings default_config false ∅ = Refused 401 (str "Unauthorized") ∧
  getMaxResolution default_config (init_settings default_config ∅)
    = Some (defaultMaxResolution default_config).
Proof.
  apply (max_resolution_round_trip default_config ∅ 2560); cbn; lia.
Defined.

End settings.


(** ** Uploads *)

Section uploads.
Context `{HS : StringHost}.
Implicit Types (d : Db) (s : jsstring) (i : Z).

Lemma strip_last_hyphen_none s :
  Forall (λ c, is_hyphen c = false) s → strip_last_hyphen s = s.
Proof.
  induction 1 as [|c s Hc Hs IH]; [done|].
  destruct s as [|c' s]; [cbn; by rewrite Hc|].
  change (c :: strip_last_hyphen (c' :: s) = c :: c' :: s). by rewrite IH.
Qed.

Lemma is_digit_slug c : is_digit c = true → is_slug_unit c = true.
Proof.
  unfold is_digit, is_slug_unit. intros ->. by rewrite orb_true_r.
Qed.

Lemma is_digit_not_hyphen c : is_digit c = true → is_hyphen c = false.
Proof.
  unfold is_digit, is_hyphen, hyphen. intros Hc%bool_decide_eq_true.
  apply bool_decide_eq_false. lia.
Qed.

(** A string of digits is its own tag. *)
Lemma normalizeTag_digits s :
  Forall (λ c, is_digit c = true) s → normalizeTag (JsString s) = s.
Proof.
  intros Hs.
  assert (Forall (λ c, is_slug_unit c = true) s) as Hslug.
  { eapply Forall_impl; [exact Hs|]. apply is_digit_slug. }
  assert (Forall (λ c, is_hyphen c = false) s) as Hhyp.
  { eapply Forall_impl; [exact Hs|]. apply is_digit_not_hyphen. }
  assert (Forall (λ c, is_space c = false) s) as Hsp.
  { eapply Forall_impl; [exact Hs|]. apply is_digit_not_space. }
  cbn [normalizeTag]. rewrite toLowerCase_slug by done.
  rewrite (replace_runs_none is_space) by done.
  rewrite strip_non_slug_slug by done.
  rewrite (replace_runs_none is_hyphen) by done.
  unfold strip_edge_hyphens.
  assert (strip_first_hyphen s = s) as ->.
  { destruct Hhyp as [|c s' Hc _]; [done|]. cbn. by rewrite Hc. }
  by apply strip_last_hyphen_none.
Qed.

Lemma is_year_digits s :
  is_year s = true → s ≠ [] ∧ Forall (λ c, is_digit c = true) s.
Proof.
  unfold is_year. intros [Hlen Hall]%andb_true_iff.
  apply bool_decide_eq_true in Hlen. split; [by destruct s|].
  apply Forall_forall. intros c Hc.
  rewrite forallb_forall in Hall. by apply Hall, list_elem_of_In.
Qed.

Lemma getPictureTags_none i d :
  (∀ t, (i, t) ∉ picture_tags d) → getPictureTags i d = [].
Proof.
  intros Hnone. destruct (getPictureTags i d) as [|n l] eqn:E; [done|].
  assert (n ∈ getPictureTags i d) as Hn by (rewrite E; left).
  apply elem_of_getPictureTags in Hn as (t & _ & Ht). by apply Hnone in Ht.
Qed.

(** X20. One uploaded file, from the store's side.  When the image could
    not be written, or a picture of that file name exists, the file is
    rejected and the store is unchanged.  Otherwise the file is added as
    the last picture in id order, with the EXIF date and location as its
    date and location (empty ones as NULL) and no description; when the
    date starts with four digits the picture gets exactly one tag, that
    year, and else no tag; no error is raised and the store conditions
    hold afterwards.  An EXIF date string [YYYY:MM:DD...] is stored as
    [YYYY-MM-DD] and so yields the tag [YYYY]. *)
Theorem upload_file_dates_and_tags image_ok now file day place d :
  db_wf d →
  (image_ok = false ∨ map_Exists (λ _ c, filename c = file) (pictures d) →
   upload_file image_ok now file (day, place) d = Some (Rejected, d)) ∧
  (image_ok = true →
   ¬ map_Exists (λ _ c, filename c = file) (pictures d) →
   ∃ i d',
     let pic := {| id := i;
                   cols := {| filename := file; pic_created_at := now;
                              description := None; date := or_null day;
                              location := or_null place |} |} in
     upload_file image_ok now file (day, place) d = Some (Added i file, d') ∧
     getPictureById i d' = Some pic ∧
     pictures_by_id d' = pictures_by_id d ++ [pic] ∧
     getPictureTags i d' =
       match or_null day with
       | Some date => if is_year (take 4 date) then [take 4 date] else []
       | None => []
       end ∧
     (∀ j, j ≠ i → associations j d' = associations j d) ∧
     db_wf d') ∧
  (∀ e s date,
     (if exif_truthy (DateTimeOriginal e) then DateTimeOriginal e
      else if exif_truthy (CreateDate e) then CreateDate e
      else ModifyDate e) = ExifString s →
     match_exif_date s = Some date →
     extractExif (Some e) = (Some date, gps e) ∧
     is_year (take 4 date) = true ∧ take 4 date = take 4 s).
Proof.
  intros Hd. split_and!.
  - intros [->|Hex]; [done|]. unfold upload_file, addPicture.
    rewrite bool_decide_eq_true_2 by done. by destruct image_ok.
  - intros -> Hfresh. unfold upload_file. cbn [fst snd].
    destruct (addPicture now file day place d) as [[i d1]|] eqn:Hadd.
    2:{ unfold addPicture in Hadd. by rewrite bool_decide_eq_false_2 in Hadd. }
    pose proof (addPicture_db_wf _ _ _ _ _ _ _ Hd Hadd) as Hd1.
    destruct Hd as (Hp & _ & _ & _ & Hfk & _).
    pose proof (addPicture_pictures_by_id _ _ _ _ _ _ _ Hp Hadd) as Hlist.
    pose proof (pictures_wf_fresh _ Hp) as Hnew.
    pose proof Hadd as Hadd'.
    apply addPicture_Some in Hadd' as (Hi & Hp1 & _ & _ & _ & Hpt1 & _).
    set (row := {| filename := file; pic_created_at := now;
                   description := None; date := or_null day;
                   location := or_null place |}) in *.
    assert (getPictureById i d1 = Some {| id := i; cols := row |}) as Hpic1.
    { unfold getPictureById. by rewrite Hp1, lookup_insert_eq. }
    assert (∀ t, (i, t) ∉ picture_tags d1) as Hnone.
    { intros t Ht. rewrite Hpt1 in Ht. destruct (Hfk _ _ Ht) as [[c Hc] _].
      rewrite Hi, Hnew in Hc. done. }
    assert (∃ d',
      match day with
      | Some (c :: dd) =>
          if is_year (take 4 (c :: dd))
          then (λ r, (Added i file, r.2))
                 <$> setPictureTags i [JsString (take 4 (c :: dd))] d1
          else Some (Added i file, d1)
      | _ => Some (Added i file, d1)
      end = Some (Added i file, d') ∧
      pictures d' = pictures d1 ∧
      getPictureTags i d' =
        match or_null day with
        | Some date => if is_year (take 4 date) then [take 4 date] else []
        | None => []
        end ∧
      (∀ j, j ≠ i → associations j d' = associations j d1) ∧
      db_wf d') as (d' & Heq & Hp' & Htags & Hassoc & Hd').
    { assert (∃ d', Some (Added i file, d1) = Some (Added i file, d') ∧
                    pictures d' = pictures d1 ∧ getPictureTags i d' = [] ∧
                    (∀ j, j ≠ i → associations j d' = associations j d1) ∧
                    db_wf d') as Hplain.
      { exists d1. split_and!; try done. by apply getPictureTags_none. }
      destruct day as [[|c dd]|]; [done| |done]. cbn [or_null].
      destruct (is_year (take 4 (c :: dd))) eqn:Hyear; [|done].
      apply is_year_digits in Hyear as [Hne Hdigits].
      set (year := take 4 (c :: dd)) in *.
      pose proof Hd1 as (Hp1' & Hf1 & Ht1 & Hn1 & Hfk1 & Hc1 & Hr1).
      assert (is_Some (pictures d1 !! i)) as Hsome.
      { rewrite Hp1, lookup_insert_eq. eauto. }
      destruct (setPictureTags_eq i [JsString year] d1 Ht1 Hsome)
        as (Hset & Hwf2 & _ & Hp2 & _ & _ & Hnd & Hel & Hsome2).
      eexists. rewrite Hset. split; [reflexivity|]. cbn [snd].
      split_and!.
      - done.
      - apply Permutation_singleton_r.
        etrans; [apply setPictureTags_names; try done|].
        + intros t. rewrite elem_of_filter. cbn. tauto.
        + unfold tag_set. cbn [fmap list_fmap].
          rewrite normalizeTag_digits by done.
          rewrite filter_cons_True by done. done.
      - intros j Hj. unfold associations. cbn. apply set_eq. intros [p t].
        rewrite !elem_of_filter, elem_of_union, elem_of_filter,
          elem_of_list_to_set, list_elem_of_fmap. cbn. naive_solver.
      - exact (setPictureTags_db_wf i [JsString year] d1 _ Hd1 Hset). }
    exists i, d'. cbn zeta. split_and!; try done.
    + unfold getPictureById. rewrite Hp'. exact Hpic1.
    + by rewrite (pictures_by_id_ext _ _ Hp').
    + intros j Hj. rewrite (Hassoc j Hj). unfold associations.
      by rewrite Hpt1.
  - intros e s date0 Hfirst Hmatch. unfold extractExif. cbn zeta.
    rewrite Hfirst, Hmatch. split; [done|].
    unfold match_exif_date in Hmatch.
    destruct s as [|y1 [|y2 [|y3 [|y4 [|c1 [|m1 [|m2 [|c2 [|d1 [|d2 s]]]]]]]]]];
      try done.
    destruct (forallb is_digit _ && _ && _) eqn:Hcond; [|done].
    injection Hmatch as <-. split; [|done].
    apply andb_true_iff in Hcond as [Hcond _].
    apply andb_true_iff in Hcond as [Hcond _].
    cbn in Hcond. unfold is_year. cbn.
    repeat (apply andb_true_iff in Hcond as [? Hcond]).
    by repeat (apply andb_true_iff; split).
Qed.
End uploads.

Lemma upload_file_dates_and_tags_witness :
  let d := db (default (start empty_db)
                 (apply_ops (H:=ascii_host) (H0:=quarters_source) history
                            (start empty_db))) in
  (true = false ∨ map_Exists (λ _ c, filename c = str "f00d.jpg") (pictures d) →
   upload_file (H:=ascii_host) true 9 (str "f00d.jpg")
     (Some (str "2024-05-01"), None) d = Some (Rejected, d)) ∧
  (true = true →
   ¬ map_Exists (λ _ c, filename c = str "f00d.jpg") (pictures d) →
   ∃ i d',
     let pic := {| id := i;
                   cols := {| filename := str "f00d.jpg"; pic_created_at := 9;
                              description := None;
                              date := or_null (Some (str "2024-05-01"));
                              location := or_null None |} |} in
     upload_file (H:=ascii_host) true 9 (str "f00d.jpg")
       (Some (str "2024-05-01"), None) d = Some (Added i (str "f00d.jpg"), d') ∧
     getPictureById i d' = Some pic ∧
     pictures_by_id d' = pictures_by_id d ++ [pic] ∧
     getPictureTags i d' =
       match or_null (Some (str "2024-05-01")) with
       | Some date => if is_year (take 4 date) then [take 4 date] else []
       | None => []
       end ∧
     (∀ j, j ≠ i → associations j d' = associations j d) ∧
     db_wf (H:=ascii_host) d') ∧
  (∀ e s date,
     (if exif_truthy (DateTimeOriginal e) then DateTimeOriginal e
      else if exif_truthy (CreateDate e) then CreateDate e
      else ModifyDate e) = ExifString s →
     match_exif_date s = Some date →
     extractExif (Some e) = (Some date, gps e) ∧
     is_year (take 4 date) = true ∧ take 4 date = take 4 s).
Proof.
  apply (upload_file_dates_and_tags (HS:=ascii_host) true 9 (str "f00d.jpg")
           (Some (str "2024-05-01")) None).
  apply (apply_ops_db_wf (HS:=ascii_host) (HR:=quarters_source) history
           (start empty_db)).
  - apply db_wf_empty.
  - vm_compute. reflexivity.
Defined.

(** ** Tokens do not disturb each other *)

Section other_tokens.
Context `{HR : RandomSource}.
Implicit Types (req : Request) (tok : jsstring) (w : World)
  (row : TokenCols).

Lemma photo_other_token req w tok :
  query_token req ≠ Some tok →
  getToken tok (db (photo req w).2) = getToken tok (db w).
Proof.
  intros Hq. destruct (photo_db_cases req w) as [->|(t & Ht & Hdb)]; [done|].
  assert (t ≠ tok) by congruence.
  case_bool_decide; [destruct Hdb as (? & ? & ->)|destruct Hdb as (? & ->)].
  - unfold updateTokenRandomState.
    by rewrite getToken_alter_token, decide_False.
  - unfold updateTokenIndex. by rewrite getToken_alter_token, decide_False.
Qed.

Lemma run_requests_other_token reqs w tok :
  Forall (λ r, query_token r ≠ Some tok) reqs →
  pictures (db (run_requests reqs w)) = pictures (db w) ∧
  getToken tok (db (run_requests reqs w)) = getToken tok (db w).
Proof.
  intros Hall. revert w. unfold run_requests.
  induction Hall as [|r reqs Hr _ IH]; intros w; [done|].
  cbn [foldl]. destruct (IH (photo r w).2) as [-> ->].
  split; [apply photo_pictures|by apply photo_other_token].
Qed.

(** What a delivery answers is a function of the pictures and of the row
    of the presented token, as long as no permutation has to be drawn. *)
Lemma photo_answer_ext req tok row w1 w2 :
  query_token req = Some tok →
  pictures (db w1) = pictures (db w2) →
  getToken tok (db w1) = Some row → getToken tok (db w2) = Some row →
  (mode_of req = str "random" →
   exhausted (random_ids row) (random_index row) = false) →
  (photo req w1).1 = (photo req w2).1.
Proof.
  intros Hq Hp Hrow1 Hrow2 Hcached.
  destruct (decide (tok = [])) as [->|Hne].
  { unfold photo. by rewrite Hq. }
  destruct (decide (getPictureCount (db w1) = 0)) as [Hn|Hn].
  { unfold photo. rewrite Hq. destruct tok as [|c t]; [done|].
    rewrite !state_bind_run. cbn [gets fst snd].
    rewrite <- (getPictureCount_ext _ _ Hp).
    by rewrite !bool_decide_eq_true_2. }
  assert (getPictureCount (db w2) ≠ 0) as Hn2
    by by rewrite <- (getPictureCount_ext _ _ Hp).
  rewrite (photo_run req tok row w1), (photo_run req tok row w2) by done.
  cbn zeta. cbn [fst]. f_equal. case_bool_decide as Hmode.
  - specialize (Hcached Hmode). rewrite !photo_random_run. cbn zeta.
    unfold getTokenRandomState. unfold getToken in Hrow1, Hrow2.
    rewrite Hrow1, Hrow2.
    cbn [fmap option_fmap option_map mbind option_bind fst snd from_option].
    rewrite Hcached, !serve_cursor_run. cbn [fst].
    destruct (array_get _ _) as [i|]; [|done]. cbn.
    by rewrite (getPictureById_ext _ _ _ Hp).
  - rewrite !photo_next_run. cbn [fst].
    rewrite (getPictureCount_ext _ _ Hp).
    by rewrite (getPictureByIndex_ext _ _ _ Hp).
Qed.

(** X21. Tokens do not disturb each other: whatever requests other tokens
    make in between, in either mode and in any number, a token gets the
    same answer to its next sequential request as without them; the same
    holds for its next randomized request while it is inside its cached
    permutation (when a new permutation has to be drawn, the draw depends
    on the random numbers the others consumed).  Its stored row is not
    changed by the others. *)
Theorem other_tokens_do_not_interfere reqs req tok row w :
  query_token req = Some tok →
  Forall (λ r, query_token r ≠ Some tok) reqs →
  getToken tok (db w) = Some row →
  (mode_of req = str "random" →
   exhausted (random_ids row) (random_index row) = false) →
  getToken tok (db (run_requests reqs w)) = Some row ∧
  (photo req (run_requests reqs w)).1 = (photo req w).1.
Proof.
  intros Hq Hothers Hrow Hcached.
  destruct (run_requests_other_token reqs w tok Hothers) as [Hp Htok].
  rewrite Hrow in Htok. split; [done|].
  by apply (photo_answer_ext req tok row).
Qed.
End other_tokens.

Lemma other_tokens_do_not_interfere_witness :
  let others :=
    {| query_token := Some (str "0b0e"); query_mode := Some (str "random");
       base_url := str "http://localhost:3456" |} in
  let w := start (default empty_db
                    (snd <$> createToken (str "0b0e") 3 gallery_three)) in
  getToken token_T (db (run_requests (H:=quarters_source)
                          [others; others; others] w))
    = Some fresh_token ∧
  (photo (H:=quarters_source) next_request
     (run_requests (H:=quarters_source) [others; others; others] w)).1
    = (photo (H:=quarters_source) next_request w).1.
Proof.
  apply (other_tokens_do_not_interfere (HR:=quarters_source)).
  - reflexivity.
  - repeat constructor; discriminate.
  - vm_compute. reflexivity.
  - discriminate.
Defined.
